(** * FastSLAM (python_slam.py): a shallow embedding and its properties

    The Python program is a Rao-Blackwellized particle filter.  Each
    [Particle] carries a pose and two parallel lists (landmark positions,
    landmark covariances); [FastSLAM] owns the particle list and the filter
    constants.

    Modelling conventions.
    - Python floats and NumPy float64 values are idealised as real numbers
      ([R]).  Rounding, overflow and underflow are therefore outside the
      model.
    - Code that can raise returns a [result]: [Ok v], or [Raise e] for the
      Python exception [e].
    - NumPy scalar division by zero does not raise: it yields nan or inf,
      and the program goes on with that value.  The real numbers have no
      such value, so the model ends there with the outcome [NonFinite].
      This outcome is not an exception and does not say that the program
      stops; what the program does with nan and inf is outside the model.
    - The [while] loop of [resample] is bounded by fuel; [OutOfFuel] says
      that the bound was too small, nothing about the program.
    - Randomness is an explicit oracle: the values that [random.random()],
      [random.gauss] and [random.randint] deliver are inputs.
    - The filter is modelled on particle values, mutation as state passing.
      Where aliasing matters (the copies made by [resample]) the particles
      are objects in a store, and [resample], written once over the copy
      operation, is run on references. *)

From Stdlib Require Import Reals Lra Lia.
From stdpp Require Import base option list gmap.

#[global] Set Warnings "-clear-no-such-hyp".

(** ** Outcomes of fallible code *)

Inductive exn : Set :=
  | ZeroDivisionError   (* Python float division by zero *)
  | ValueError          (* math.sqrt of a negative number, max of an empty list, randint on an empty range *)
  | IndexError          (* list index out of range *)
  | LinAlgError         (* np.linalg.inv of a singular matrix *)
  | TypeError.          (* an object of the wrong class *)

(** What the model makes of a computation: a value, a Python exception, or
    the end of the model, either because the fuel ran out or because a
    NumPy operation produced nan or inf, with which the program would go
    on. *)
Inductive result (A : Type) : Type :=
  | Ok (a : A)
  | Raise (e : exn)
  | OutOfFuel
  | NonFinite.
Arguments Ok {A} a.
Arguments Raise {A} e.
Arguments OutOfFuel {A}.
Arguments NonFinite {A}.

#[global] Instance result_ret : MRet result := fun A a => Ok a.
#[global] Instance result_bind : MBind result := fun A B f m =>
  match m with
  | Ok a => f a
  | Raise e => Raise e
  | OutOfFuel => OutOfFuel
  | NonFinite => NonFinite
  end.

Definition py_index {A} (l : list A) (i : nat) : result A :=
  match l !! i with
  | Some x => Ok x
  | None => Raise IndexError
  end.

(** ** Real-number primitives *)

Section Numerics.
Local Open Scope R_scope.

(** The test [a != b]. *)
Definition Rne_dec (a b : R) : {a ≠ b} + {¬ a ≠ b} :=
  match Req_dec_T a b with
  | left e => right (λ n : a ≠ b, n e)
  | right n => left n
  end.

(** Python float division [a / b]. *)
Definition py_div (a b : R) : result R :=
  if Req_dec_T b 0 then Raise ZeroDivisionError else Ok (a / b).

(** NumPy float64 division [a / b].  On a zero divisor NumPy raises nothing
    and delivers nan or inf; that is no real number, and the model ends
    with [NonFinite]. *)
Definition np_div (a b : R) : result R :=
  if Req_dec_T b 0 then NonFinite else Ok (a / b).

(** [math.sqrt]. *)
Definition py_sqrt (a : R) : result R :=
  if Rlt_dec a 0 then Raise ValueError else Ok (sqrt a).

(** Python float [a % b]: for [b > 0] the result lies in [0, b). *)
Definition py_mod (a b : R) : R := a - IZR (Int_part (a / b)) * b.

(** [math.atan2 y x]. *)
Definition atan2 (y x : R) : R :=
  if Rlt_dec 0 x then atan (y / x)
  else if Rlt_dec x 0 then
         (if Rle_dec 0 y then atan (y / x) + PI else atan (y / x) - PI)
  else if Rlt_dec 0 y then PI / 2
  else if Rlt_dec y 0 then - (PI / 2)
  else 0.

(** Python's builtin [max] on a list of floats. *)
Fixpoint list_max_from (m : R) (l : list R) : R :=
  match l with
  | [] => m
  | x :: l' => list_max_from (if Rlt_dec m x then x else m) l'
  end.

Definition py_max (l : list R) : result R :=
  match l with
  | [] => Raise ValueError
  | x :: l' => Ok (list_max_from x l')
  end.

(** 2-vectors and 2x2 matrices (NumPy arrays of shape (2,) and (2,2)). *)
Definition vec2 : Type := R * R.

Record mat2 : Type := Mat2 { m00 : R; m01 : R; m10 : R; m11 : R }.

Definition vec_sub (a b : vec2) : vec2 := (a.1 - b.1, a.2 - b.2).
Definition vec_add (a b : vec2) : vec2 := (a.1 + b.1, a.2 + b.2).
Definition vec_scale (c : R) (a : vec2) : vec2 := (c * a.1, c * a.2).
Definition vec_dot (a b : vec2) : R := a.1 * b.1 + a.2 * b.2.

Definition mat_T (A : mat2) : mat2 := Mat2 (m00 A) (m10 A) (m01 A) (m11 A).
Definition mat_add (A B : mat2) : mat2 :=
  Mat2 (m00 A + m00 B) (m01 A + m01 B) (m10 A + m10 B) (m11 A + m11 B).
Definition mat_sub (A B : mat2) : mat2 :=
  Mat2 (m00 A - m00 B) (m01 A - m01 B) (m10 A - m10 B) (m11 A - m11 B).
Definition mat_mul (A B : mat2) : mat2 :=
  Mat2 (m00 A * m00 B + m01 A * m10 B) (m00 A * m01 B + m01 A * m11 B)
       (m10 A * m00 B + m11 A * m10 B) (m10 A * m01 B + m11 A * m11 B).
(** [np.dot(A, v)] and [np.dot(v, A)]. *)
Definition mat_vec (A : mat2) (v : vec2) : vec2 :=
  (m00 A * v.1 + m01 A * v.2, m10 A * v.1 + m11 A * v.2).
Definition vec_mat (v : vec2) (A : mat2) : vec2 :=
  (v.1 * m00 A + v.2 * m10 A, v.1 * m01 A + v.2 * m11 A).
Definition eye2 : mat2 := Mat2 1 0 0 1.
Definition diag2 (a b : R) : mat2 := Mat2 a 0 0 b.

(** [np.linalg.det] and [np.linalg.inv]. *)
Definition det (A : mat2) : R := m00 A * m11 A - m01 A * m10 A.
Definition inv (A : mat2) : result mat2 :=
  if Req_dec_T (det A) 0 then Raise LinAlgError
  else Ok (Mat2 (m11 A / det A) (- m01 A / det A)
                (- m10 A / det A) (m00 A / det A)).

End Numerics.

(** ** Particle *)

Section ParticleModel.
Local Open Scope R_scope.

(** A pose is [(x, y, theta)]. *)
Definition Pose : Type := R * R * R.

Record Particle : Type := mkParticle {
  pose : Pose;
  landmark_positions : list vec2;
  landmark_covariances : list mat2
}.

Definition number_of_landmarks (self : Particle) : nat :=
  length (landmark_positions self).

(** [Particle.g]: the state transition. *)
Definition g (state : Pose) (control : R * R) (w : R) : result Pose :=
  let '(x, y, theta) := state in
  let '(l, r) := control in
  if Rne_dec r l then
    alpha ← py_div (r - l) w;
    rad ← py_div l alpha;
    Ok (x + (rad + w / 2) * (sin (theta + alpha) - sin theta),
        y + (rad + w / 2) * (- cos (theta + alpha) + cos theta),
        py_mod (theta + alpha + PI) (2 * PI) - PI)
  else
    Ok (x + l * cos theta, y + l * sin theta, theta).

(** [Particle.move]. *)
Definition move (self : Particle) (left right w : R) : result Particle :=
  p ← g (pose self) (left, right) w;
  Ok (mkParticle p (landmark_positions self) (landmark_covariances self)).

(** [Particle.h]: the measurement function, (range, bearing). *)
Definition h (state : Pose) (landmark : vec2) (scanner_displacement : R) : vec2 :=
  let '(sx, sy, theta) := state in
  let dx := landmark.1 - (sx + scanner_displacement * cos theta) in
  let dy := landmark.2 - (sy + scanner_displacement * sin theta) in
  let r := sqrt (dx * dx + dy * dy) in
  let alpha := py_mod (atan2 dy dx - theta + PI) (2 * PI) - PI in
  (r, alpha).

(** [Particle.dh_dlandmark]: the Jacobian of [h] in the landmark. *)
Definition dh_dlandmark (state : Pose) (landmark : vec2)
    (scanner_displacement : R) : result mat2 :=
  let '(sx, sy, theta) := state in
  let cost := cos theta in
  let sint := sin theta in
  let dx := landmark.1 - (sx + scanner_displacement * cost) in
  let dy := landmark.2 - (sy + scanner_displacement * sint) in
  let q := dx * dx + dy * dy in
  let sqrtq := sqrt q in
  dr_dmx ← np_div dx sqrtq;
  dr_dmy ← np_div dy sqrtq;
  dalpha_dmx ← np_div (- dy) q;
  dalpha_dmy ← np_div dx q;
  Ok (Mat2 dr_dmx dr_dmy dalpha_dmx dalpha_dmy).

Definition h_expected_measurement_for_landmark (self : Particle)
    (landmark_number : nat) (scanner_displacement : R) : result vec2 :=
  lm ← py_index (landmark_positions self) landmark_number;
  Ok (h (pose self) lm scanner_displacement).

Definition H_Ql_jacobian_and_measurement_covariance_for_landmark
    (self : Particle) (landmark_number : nat) (Qt : mat2)
    (scanner_displacement : R) : result (mat2 * mat2) :=
  lm ← py_index (landmark_positions self) landmark_number;
  H ← dh_dlandmark (pose self) lm scanner_displacement;
  Sigma ← py_index (landmark_covariances self) landmark_number;
  Ok (H, mat_add (mat_mul H (mat_mul Sigma (mat_T H))) Qt).

(** The innovation [measurement - expected measurement], as both
    [wl_likelihood_of_correspondence] and [update_landmark] compute it. *)
Definition delta_z (self : Particle) (measurement : vec2)
    (landmark_number : nat) (scanner_displacement : R) : result vec2 :=
  e ← h_expected_measurement_for_landmark self landmark_number scanner_displacement;
  Ok (vec_sub measurement e).

(** The value returned by [wl_likelihood_of_correspondence], as a function
    of the innovation covariance and the innovation. *)
Definition gauss_likelihood (Ql : mat2) (dz : vec2) : result R :=
  s ← py_sqrt (det Ql);
  c ← py_div 1 (2 * PI * s);
  Qinv ← inv Ql;
  Ok (c * exp (vec_dot (vec_mat (vec_scale (-0.5) dz) Qinv) dz)).

Definition wl_likelihood_of_correspondence (self : Particle)
    (measurement : vec2) (landmark_number : nat) (Qt : mat2)
    (scanner_displacement : R) : result R :=
  dz ← delta_z self measurement landmark_number scanner_displacement;
  '(H, Ql) ← H_Ql_jacobian_and_measurement_covariance_for_landmark
                self landmark_number Qt scanner_displacement;
  gauss_likelihood Ql dz.

(** [compute_correspondence_likelihoods]: the loop over [xrange(n)],
    started with [i = 0] and the empty list. *)
Fixpoint likelihoods_loop (self : Particle) (measurement : vec2) (Qt : mat2)
    (scanner_displacement : R) (n i : nat) (likelihoods : list R)
    : result (list R) :=
  match n with
  | O => Ok likelihoods
  | S n' =>
      wl ← wl_likelihood_of_correspondence self measurement i Qt
             scanner_displacement;
      likelihoods_loop self measurement Qt scanner_displacement n' (S i)
        (likelihoods ++ [wl])
  end.

Definition compute_correspondence_likelihoods (self : Particle)
    (measurement : vec2) (number_of_landmarks : nat) (Qt : mat2)
    (scanner_displacement : R) : result (list R) :=
  likelihoods_loop self measurement Qt scanner_displacement
    number_of_landmarks 0 [].

(** Modelled from the spec: [LegoLogfile.scanner_to_world] lives in
    lego_robot.py, which is not part of the sources.  The spec describes it
    as the transformation of scanner-frame coordinates into world
    coordinates by the scanner pose (rotate by the heading, translate by the
    scanner position). *)
Definition scanner_to_world (scanner_pose : Pose) (point : vec2) : vec2 :=
  let '(sx, sy, theta) := scanner_pose in
  let dx := cos theta in
  let dy := sin theta in
  let '(x, y) := point in
  (x * dx - y * dy + sx, x * dy + y * dx + sy).

Definition initialize_new_landmark (self : Particle)
    (measurement_in_scanner_system : vec2) (Qt : mat2)
    (scanner_displacement : R) : result Particle :=
  let '(x, y, theta) := pose self in
  let scanner_pose :=
    (x + cos theta * scanner_displacement,
     y + sin theta * scanner_displacement, theta) in
  let landmark_position :=
    scanner_to_world scanner_pose measurement_in_scanner_system in
  H ← dh_dlandmark (pose self) landmark_position scanner_displacement;
  H_inv ← inv H;
  let landmark_covariance := mat_mul (mat_mul H_inv Qt) (mat_T H_inv) in
  Ok (mkParticle (pose self)
        (landmark_positions self ++ [landmark_position])
        (landmark_covariances self ++ [landmark_covariance])).

(** [l[i] = v] on a Python list. *)
Definition py_setitem {A} (l : list A) (i : nat) (v : A) : result (list A) :=
  if decide (i < length l)%nat then Ok (<[i := v]> l) else Raise IndexError.

Definition update_landmark (self : Particle) (landmark_number : nat)
    (measurement : vec2) (Qt : mat2) (scanner_displacement : R)
    : result Particle :=
  '(H, Ql) ← H_Ql_jacobian_and_measurement_covariance_for_landmark
                self landmark_number Qt scanner_displacement;
  Sigma ← py_index (landmark_covariances self) landmark_number;
  Ql_inv ← inv Ql;
  let K := mat_mul (mat_mul Sigma (mat_T H)) Ql_inv in
  mu ← py_index (landmark_positions self) landmark_number;
  dz ← delta_z self measurement landmark_number scanner_displacement;
  positions' ← py_setitem (landmark_positions self) landmark_number
                  (vec_add mu (mat_vec K dz));
  Sigma' ← py_index (landmark_covariances self) landmark_number;
  covariances' ← py_setitem (landmark_covariances self) landmark_number
                    (mat_mul (mat_sub eye2 (mat_mul K H)) Sigma');
  Ok (mkParticle (pose self) positions' covariances').

(** The (max, argmax) loop of [update_particle], entered with [w = 0] and
    [max_index = 0]. *)
Fixpoint argmax_loop (likelihoods : list R) (index : nat) (w : R)
    (max_index : nat) : R * nat :=
  match likelihoods with
  | [] => (w, max_index)
  | likelihood :: rest =>
      if Rgt_dec likelihood w
      then argmax_loop rest (S index) likelihood index
      else argmax_loop rest (S index) w max_index
  end.

(** [not likelihoods or max(likelihoods) < minimum_correspondence_likelihood] *)
Definition no_correspondence (likelihoods : list R)
    (minimum_correspondence_likelihood : R) : result bool :=
  match likelihoods with
  | [] => Ok true
  | _ =>
      m ← py_max likelihoods;
      Ok (if Rlt_dec m minimum_correspondence_likelihood then true else false)
  end.

(** [update_particle] returns the weight contribution; the mutated particle
    is returned along with it. *)
Definition update_particle (self : Particle) (measurement : vec2)
    (measurement_in_scanner_system : vec2) (number_of_landmarks : nat)
    (minimum_correspondence_likelihood : R) (Qt : mat2)
    (scanner_displacement : R) : result (Particle * R) :=
  likelihoods ← compute_correspondence_likelihoods self measurement
                   number_of_landmarks Qt scanner_displacement;
  new ← no_correspondence likelihoods minimum_correspondence_likelihood;
  if new : bool then
    self' ← initialize_new_landmark self measurement_in_scanner_system Qt
              scanner_displacement;
    Ok (self', minimum_correspondence_likelihood)
  else
    let '(w, max_index) := argmax_loop likelihoods 0 0 0 in
    self' ← update_landmark self max_index measurement Qt
              scanner_displacement;
    Ok (self', w).

End ParticleModel.

(** ** FastSLAM *)

Section FilterModel.
Local Open Scope R_scope.

Record FastSLAM : Type := mkFastSLAM {
  particles : list Particle;
  robot_width : R;
  scanner_displacement : R;
  control_motion_factor : R;
  control_turn_factor : R;
  measurement_distance_stddev : R;
  measurement_angle_stddev : R;
  minimum_correspondence_likelihood : R
}.

Definition set_particles (self : FastSLAM) (ps : list Particle) : FastSLAM :=
  mkFastSLAM ps (robot_width self) (scanner_displacement self)
    (control_motion_factor self) (control_turn_factor self)
    (measurement_distance_stddev self) (measurement_angle_stddev self)
    (minimum_correspondence_likelihood self).

(** [random.gauss(mu, sigma)], given the standard normal draw [z]. *)
Definition gauss (mu sigma z : R) : R := mu + z * sigma.

(** [random.uniform(a, b)], given the draw [t] of [random.random()]. *)
Definition uniform (a b t : R) : R := a + (b - a) * t.

(** The loop of [predict]; [normal (2*i)] and [normal (2*i+1)] are the
    standard normal draws behind the two calls of [random.gauss] for the
    particle at position [i]. *)
Fixpoint predict_loop (ps : list Particle) (left right left_std right_std w : R)
    (normal : nat → R) (i : nat) : result (list Particle) :=
  match ps with
  | [] => Ok []
  | p :: rest =>
      let l := gauss left left_std (normal (2 * i)%nat) in
      let r := gauss right right_std (normal (2 * i + 1)%nat) in
      p' ← move p l r w;
      rest' ← predict_loop rest left right left_std right_std w normal (S i);
      Ok (p' :: rest')
  end.

Definition predict (self : FastSLAM) (control : R * R) (normal : nat → R)
    : result FastSLAM :=
  let left := control.1 in
  let right := control.2 in
  let left_std := sqrt ((control_motion_factor self * left) ^ 2 +
                        (control_turn_factor self * (left - right)) ^ 2) in
  let right_std := sqrt ((control_motion_factor self * right) ^ 2 +
                         (control_turn_factor self * (left - right)) ^ 2) in
  ps ← predict_loop (particles self) left right left_std right_std
         (robot_width self) normal 0;
  Ok (set_particles self ps).

(** The inner loop of [update_and_compute_weights]: all measurements of one
    scan against one particle, [weight *= p.update_particle(...)]. *)
Fixpoint update_observations (p : Particle) (cylinders : list (vec2 * vec2))
    (number_of_landmarks : nat) (minimum_correspondence_likelihood : R)
    (Qt : mat2) (scanner_displacement : R) (weight : R)
    : result (Particle * R) :=
  match cylinders with
  | [] => Ok (p, weight)
  | (measurement, measurement_in_scanner_system) :: rest =>
      '(p', c) ← update_particle p measurement measurement_in_scanner_system
                    number_of_landmarks minimum_correspondence_likelihood
                    Qt scanner_displacement;
      update_observations p' rest number_of_landmarks
        minimum_correspondence_likelihood Qt scanner_displacement
        (weight * c)
  end.

(** One pass of the outer loop body: the landmark count is read first, the
    weight starts at 1.0. *)
Definition particle_weight (p : Particle) (cylinders : list (vec2 * vec2))
    (minimum_correspondence_likelihood : R) (Qt : mat2)
    (scanner_displacement : R) : result (Particle * R) :=
  let number_of_landmarks := number_of_landmarks p in
  update_observations p cylinders number_of_landmarks
    minimum_correspondence_likelihood Qt scanner_displacement 1.

(** The outer loop of [update_and_compute_weights]. *)
Fixpoint update_particles (ps : list Particle) (cylinders : list (vec2 * vec2))
    (minimum_correspondence_likelihood : R) (Qt : mat2)
    (scanner_displacement : R) (weights : list R)
    : result (list Particle * list R) :=
  match ps with
  | [] => Ok ([], weights)
  | p :: rest =>
      '(p', weight) ← particle_weight p cylinders
                         minimum_correspondence_likelihood Qt
                         scanner_displacement;
      '(rest', weights') ← update_particles rest cylinders
                              minimum_correspondence_likelihood Qt
                              scanner_displacement (weights ++ [weight]);
      Ok (p' :: rest', weights')
  end.

(** [update_and_compute_weights] mutates the particles and returns the
    weights; both are returned here.  The method reads the module-level
    variable [scanner_displacement] (not [self.scanner_displacement]); it is
    the parameter [scanner_displacement_global]. *)
Definition update_and_compute_weights (self : FastSLAM)
    (scanner_displacement_global : R) (cylinders : list (vec2 * vec2))
    : result (FastSLAM * list R) :=
  let Qt := diag2 (measurement_distance_stddev self ^ 2)
                  (measurement_angle_stddev self ^ 2) in
  '(ps, weights) ← update_particles (particles self) cylinders
                      (minimum_correspondence_likelihood self) Qt
                      scanner_displacement_global [];
  Ok (set_particles self ps, weights).

End FilterModel.

(** ** Resampling

    [resample] is written once, over the type [P] of what the list
    [self.particles] holds and a state [St] that [copy.deepcopy] may change:
    particle values with no state in the value-level filter, references
    into an object store in the model of aliasing further down. *)

Section Resample.
Local Open Scope R_scope.
Context {P St : Type}.
Variable deepcopy : P → St → result (P * St).

(** [while offset > weights[index]: offset -= weights[index];
     index = (index + 1) % len(weights)] *)
Fixpoint wheel (fuel : nat) (weights : list R) (offset : R) (index : nat)
    : result (R * nat) :=
  w ← py_index weights index;
  if Rgt_dec offset w then
    match fuel with
    | O => OutOfFuel
    | S fuel' =>
        wheel fuel' weights (offset - w) ((index + 1) mod length weights)%nat
    end
  else Ok (offset, index).

(** The [for i in xrange(len(self.particles))] loop; [n] iterations remain,
    [random i] is the draw of [random.random()] in iteration [i]. *)
Fixpoint resample_loop (fuel : nat) (self_particles : list P)
    (weights : list R) (max_weight : R) (random : nat → R) (n i : nat)
    (offset : R) (index : nat) (new_particles : list P) (s : St)
    : result (list P * St) :=
  match n with
  | O => Ok (new_particles, s)
  | S n' =>
      let offset := offset + uniform 0 (2 * max_weight) (random i) in
      '(offset, index) ← wheel fuel weights offset index;
      p ← py_index self_particles index;
      '(c, s) ← deepcopy p s;
      resample_loop fuel self_particles weights max_weight random n' (S i)
        offset index (new_particles ++ [c]) s
  end.

(** [random.randint(0, n - 1)] raises [ValueError] on the empty range;
    otherwise it delivers [draw], which the caller takes to be in range. *)
Definition randint_upto (n : nat) (draw : nat) : result nat :=
  if decide (n = 0)%nat then Raise ValueError else Ok draw.

Definition resample (fuel : nat) (self_particles : list P) (weights : list R)
    (start : nat) (random : nat → R) (s : St) : result (list P * St) :=
  max_weight ← py_max weights;
  index ← randint_upto (length self_particles) start;
  resample_loop fuel self_particles weights max_weight random
    (length self_particles) 0 0 index [] s.

End Resample.

(** In the value-level filter a deep copy of a particle is the same value. *)
Definition deepcopy_value {A} (p : A) (s : unit) : result (A * unit) :=
  Ok (p, s).

(** [correct]: update, weigh, resample. *)
Definition correct (self : FastSLAM) (scanner_displacement_global : R)
    (cylinders : list (vec2 * vec2)) (fuel : nat) (start : nat)
    (random : nat → R) : result FastSLAM :=
  '(self', weights) ← update_and_compute_weights self
                         scanner_displacement_global cylinders;
  '(new_particles, _) ← resample deepcopy_value fuel (particles self')
                           weights start random ();
  Ok (set_particles self' new_particles).

(** ** Objects and references

    To speak about aliasing, the particles are also modelled as objects in
    a store.  A [Particle] instance holds three references: to its pose and
    to its two lists; a list holds references to its items.  Arrays, lists
    and instances are mutable; a tuple of floats is not. *)

Abbreviation loc := positive (only parsing).

Inductive obj : Type :=
  | OArray (data : list R)     (* numpy.ndarray *)
  | OTuple (data : list R)     (* tuple of floats *)
  | OList (items : list loc)   (* list *)
  | OParticle (pose_ref positions_ref covariances_ref : loc).

Abbreviation heap := (gmap loc obj) (only parsing).

(** A new object gets an address that is not in use. *)
Definition alloc (h : heap) (o : obj) : loc * heap :=
  let y := fresh (dom h) in (y, <[y := o]> h).

(** [copy.deepcopy(x, memo)].  The memo maps the objects already copied in
    this call to their copies.  An array is duplicated; a tuple of floats is
    returned as it is; a list is duplicated item by item; an instance is
    duplicated attribute by attribute.  (CPython creates the new list and the
    new instance before it copies what they hold; here they are allocated
    afterwards, which only gives the new objects other addresses.) *)
Definition deepcopy_leaf (x : loc) (st : gmap loc obj * gmap loc loc)
    : result (loc * (gmap loc obj * gmap loc loc)) :=
  match st.1 !! x with
  | Some (OArray data) =>
      match st.2 !! x with
      | Some y => Ok (y, st)
      | None =>
          let '(y, h') := alloc st.1 (OArray data) in
          Ok (y, (h', <[x := y]> st.2))
      end
  | Some (OTuple _) => Ok (x, st)
  | _ => Raise TypeError
  end.

Fixpoint deepcopy_items (items : list loc) (st : gmap loc obj * gmap loc loc)
    : result (list loc * (gmap loc obj * gmap loc loc)) :=
  match items with
  | [] => Ok ([], st)
  | x :: rest =>
      '(y, st) ← deepcopy_leaf x st;
      '(ys, st) ← deepcopy_items rest st;
      Ok (y :: ys, st)
  end.

Definition deepcopy_list (x : loc) (st : gmap loc obj * gmap loc loc)
    : result (loc * (gmap loc obj * gmap loc loc)) :=
  match st.1 !! x with
  | Some (OList items) =>
      match st.2 !! x with
      | Some y => Ok (y, st)
      | None =>
          '(ys, st') ← deepcopy_items items st;
          let '(y, h') := alloc st'.1 (OList ys) in
          Ok (y, (h', <[x := y]> st'.2))
      end
  | _ => Raise TypeError
  end.

(** [copy.deepcopy(p)] for a [Particle] instance [p]: a fresh memo. *)
Definition deepcopy_particle (x : loc) (h : heap) : result (loc * heap) :=
  match h !! x with
  | Some (OParticle a b c) =>
      '(a', st) ← deepcopy_leaf a (h, ∅);
      '(b', st) ← deepcopy_list b st;
      '(c', st) ← deepcopy_list c st;
      Ok (alloc st.1 (OParticle a' b' c'))
  | _ => Raise TypeError
  end.

(** What a reference stands for: the numbers of an array or tuple, the
    contents of a list of those, the three attributes of a particle. *)
Definition read_leaf (h : heap) (x : loc) : option (list R) :=
  match h !! x with
  | Some (OArray d) | Some (OTuple d) => Some d
  | _ => None
  end.

Definition read_list (h : heap) (x : loc) : option (list (list R)) :=
  match h !! x with
  | Some (OList items) => mapM (read_leaf h) items
  | _ => None
  end.

Definition read_particle (h : heap) (x : loc)
    : option (list R * list (list R) * list (list R)) :=
  match h !! x with
  | Some (OParticle a b c) =>
      pa ← read_leaf h a; lb ← read_list h b; lc ← read_list h c;
      Some (pa, lb, lc)
  | _ => None
  end.

(** The objects that make up a particle: the instance, its pose, its two
    lists and their items. *)
Definition items_of (h : heap) (x : loc) : list loc :=
  match h !! x with
  | Some (OList items) => items
  | _ => []
  end.

Definition footprint (h : heap) (x : loc) : gset loc :=
  match h !! x with
  | Some (OParticle a b c) =>
      {[x; a; b; c]} ∪ list_to_set (items_of h b) ∪ list_to_set (items_of h c)
  | _ => {[x]}
  end.

(** The objects that can be changed in place. *)
Definition mutable (h : heap) (l : loc) : Prop :=
  match h !! l with
  | Some (OTuple _) | None => False
  | Some _ => True
  end.

(** ** Vocabulary of the specification *)

Section Vocabulary.
Local Open Scope R_scope.

(** The interval the spec names for a heading or a bearing. *)
Definition wrapped (a : R) : Prop := - PI < a <= PI.
Definition heading_wrapped (p : Pose) : Prop := wrapped p.2.

(** Symmetric positive-definite 2x2 matrices. *)
Definition spd (A : mat2) : Prop := m01 A = m10 A ∧ 0 < m00 A ∧ 0 < det A.

(** A particle at the origin, heading east, with one landmark one unit to
    the west. *)
Definition p_west : Particle := mkParticle (0, 0, 0) [(-1, 0)] [eye2].

(** [m] is the maximum of the list [l]. *)
Definition is_max (m : R) (l : list R) : Prop :=
  m ∈ l ∧ ∀ x, x ∈ l → x <= m.

(** [k] is the smallest index at which [l] attains [m]. *)
Definition first_index_of (m : R) (l : list R) (k : nat) : Prop :=
  l !! k = Some m ∧ ∀ j x, (j < k)%nat → l !! j = Some x → x ≠ m.

(** A particle at the origin, heading east, with an empty map. *)
Definition p_origin : Particle := mkParticle (0, 0, 0) [] [].

(** [p_origin] after it has set up a landmark one unit ahead, under the
    measurement covariance [Qt]. *)
Definition p_east (Qt : mat2) : Particle :=
  mkParticle (0, 0, 0) [(1, 0)] [mat_mul (mat_mul eye2 Qt) (mat_T eye2)].

(** The likelihood of the measurement (1, 3) for the landmark of [p_west]
    under unit measurement noise. *)
Definition wl_west_value : R :=
  1 / (2 * PI * 2) * exp (- ((3 + PI) * (3 + PI)) / 4).

(** The product of a list of numbers. *)
Definition product (cs : list R) : R := foldr Rmult 1 cs.

(** The contributions of the successive observations of one scan to the
    weight of one particle: what the successive calls of [update_particle]
    return. *)
Fixpoint contributions (p : Particle) (cylinders : list (vec2 * vec2))
    (N : nat) (thr : R) (Qt : mat2) (d : R) : result (list R) :=
  match cylinders with
  | [] => Ok []
  | (z, zs) :: rest =>
      '(p', c) ← update_particle p z zs N thr Qt d;
      cs ← contributions p' rest N thr Qt d;
      Ok (c :: cs)
  end.

(** The particle cut down to its first [N] landmarks. *)
Definition truncate (N : nat) (p : Particle) : Particle :=
  mkParticle (pose p) (take N (landmark_positions p))
    (take N (landmark_covariances p)).

(** A filter with the single particle [p_origin], unit measurement noise
    and the threshold of the program's main section; one scan with one
    cylinder, one unit ahead. *)
Definition fs_one : FastSLAM := mkFastSLAM [p_origin] 1 0 0 0 1 1 (1 / 10000).
Definition scan_one : list (vec2 * vec2) := [((1, 0), (1, 0))].

(** The measurement covariance of a filter whose two measurement standard
    deviations are zero, and a filter with that configuration: its first
    particle holds the landmark that [initialize_new_landmark] sets up under
    this covariance, its second particle has an empty map. *)
Definition Qt_zero : mat2 := diag2 (0 ^ 2) (0 ^ 2).
Definition fs_noiseless : FastSLAM :=
  mkFastSLAM [p_east Qt_zero; p_origin] 1 0 0 0 0 0 (1 / 10000).

End Vocabulary.

Section StoreVocabulary.

(** [z] is allocated in [h], and if it already existed in [h0] it is a
    tuple there. *)
Definition fresh_or_tuple (h0 h : heap) (z : loc) : Prop :=
  z ∈ dom h ∧ (z ∈ dom h0 → ∃ d, h0 !! z = Some (OTuple d)).

(** [out] is a particle of [h'] none of whose mutable objects existed in
    [h0]. *)
Definition copied (h0 h' : heap) (out : loc) : Prop :=
  (out ∉ dom h0) ∧ ∀ z, z ∈ footprint h' out → fresh_or_tuple h0 h' z.

(** The state of one [copy.deepcopy] call, started in the store [h0]: the
    store has only grown, the memo holds fresh objects that read like their
    originals, and the lists made so far hold fresh objects or old tuples. *)
Record copy_inv (h0 : heap) (st : gmap loc obj * gmap loc loc) : Prop := {
  ci_ext : h0 ⊆ st.1;
  ci_memo_fresh : ∀ x y, st.2 !! x = Some y → y ∈ dom st.1 ∧ y ∉ dom h0;
  ci_memo_leaf : ∀ x y d, st.2 !! x = Some y →
                   read_leaf h0 x = Some d → read_leaf st.1 y = Some d;
  ci_memo_list : ∀ x y v, st.2 !! x = Some y →
                   read_list h0 x = Some v → read_list st.1 y = Some v;
  ci_lists : ∀ y ys, y ∉ dom h0 → st.1 !! y = Some (OList ys) →
               Forall (fresh_or_tuple h0 st.1) ys
}.

(** The outputs collected so far, in the store [h] that grew out of [h0]:
    each is closed in [h], none of its mutable objects existed in [h0], and
    no two of them share a mutable object. *)
Definition separated (h0 h : heap) (outs : list loc) : Prop :=
  (∀ i o, outs !! i = Some o →
     (o ∉ dom h0) ∧ ∀ z, z ∈ footprint h o → fresh_or_tuple h0 h z) ∧
  (∀ i j oi oj l, i ≠ j → outs !! i = Some oi → outs !! j = Some oj →
     l ∈ footprint h oi → l ∈ footprint h oj → ¬ mutable h l).

(** A store with two particle objects (at addresses 6 and 7) that alias
    each other completely: one pose array, one landmark whose position is a
    tuple and whose covariance is an array, and one pair of lists, shared
    by both instances as after a shallow copy. *)
Definition store_aliased : gmap loc obj :=
  {[ 1%positive := OArray [0; 0; 0]%R;
     2%positive := OTuple [1; 0]%R;
     3%positive := OArray [1; 0; 0; 1]%R;
     4%positive := OList [2%positive];
     5%positive := OList [3%positive];
     6%positive := OParticle 1 4 5;
     7%positive := OParticle 1 4 5 ]}.

End StoreVocabulary.

(** ** Objects of the main section and of [predict]

    Code that the value-level model cannot tell from its aliasing-free
    reading: how the main section builds the initial particles, and how
    [move] changes a pose. *)

(** [Particle(pose)]: a new instance with two new empty lists; its pose is
    the object that was passed in. *)
Definition Particle_init (pose_ref : loc) (h : heap)
    : loc * heap :=
  let '(b, h1) := alloc h (OList []) in
  let '(c, h2) := alloc h1 (OList []) in
  alloc h2 (OParticle pose_ref b c).

(** [copy.copy(x)] for an instance [x]: a new instance with the attributes
    of [x]. *)
Definition copy_copy (x : loc) (h : heap)
    : result (loc * heap) :=
  match h !! x with
  | Some (OParticle a b c) => Ok (alloc h (OParticle a b c))
  | _ => Raise TypeError
  end.

(** The list comprehension of the main section,
    [[copy.copy(Particle(start_state)) for _ in xrange(n)]]. *)
Fixpoint initial_particles (n : nat) (start_state : loc)
    (h : heap) : result (list loc * heap) :=
  match n with
  | O => Ok ([], h)
  | S n' =>
      let '(t, h1) := Particle_init start_state h in
      '(x, h2) ← copy_copy t h1;
      '(xs, h3) ← initial_particles n' start_state h2;
      Ok (x :: xs, h3)
  end.

(** [Particle.move] on the store: [self.pose] is bound to the new array
    that [g] returns; the old pose object is left as it is. *)
Definition move_obj (x : loc) (left right w : R) (h : heap)
    : result (heap) :=
  match h !! x with
  | Some (OParticle a b c) =>
      match read_leaf h a with
      | Some [px; py; theta] =>
          p ← g (px, py, theta) (left, right) w;
          let '(a', h1) := alloc h (OArray [p.1.1; p.1.2; p.2]) in
          Ok (<[x := OParticle a' b c]> h1)
      | Some _ => Raise ValueError
      | None => Raise TypeError
      end
  | _ => Raise TypeError
  end.

(** A store that holds just the start pose of the main section's kind. *)
Definition store_start : heap := {[ 1%positive := OArray [0; 0; 0]%R ]}.

(** ** Vocabulary of the further properties *)

Section FurtherVocabulary.
Local Open Scope R_scope.

(** Every particle moved by exactly the same wheel distances. *)
Fixpoint move_all (ps : list Particle) (l r w : R) : result (list Particle) :=
  match ps with
  | [] => Ok []
  | p :: rest =>
      p' ← move p l r w;
      rest' ← move_all rest l r w;
      Ok (p' :: rest')
  end.

(** Symmetric positive-semidefinite 2x2 matrices. *)
Definition psd (A : mat2) : Prop :=
  m01 A = m10 A ∧ 0 <= m00 A ∧ 0 <= m11 A ∧ 0 <= det A.

(** The squared distance between a landmark and the scanner of a robot at
    the given pose: the [q] of [dh_dlandmark]. *)
Definition scanner_distance2 (state : Pose) (landmark : vec2) (d : R) : R :=
  let '(sx, sy, theta) := state in
  let dx := landmark.1 - (sx + d * cos theta) in
  let dy := landmark.2 - (sy + d * sin theta) in
  dx * dx + dy * dy.

(** The two lists of a particle have the same length. *)
Definition aligned (p : Particle) : Prop :=
  length (landmark_positions p) = length (landmark_covariances p).

(** [p_origin] after a straight move of 50. *)
Definition p_ahead : Particle :=
  mkParticle (0 + 50 * cos 0, 0 + 50 * sin 0, 0) [] [].

(** Where [initialize_new_landmark] puts a new landmark: the measurement in
    the scanner's system, taken to world coordinates by the scanner pose. *)
Definition new_landmark_position (self : Particle) (zs : vec2) (d : R) : vec2 :=
  let '(x, y, theta) := pose self in
  scanner_to_world (x + cos theta * d, y + sin theta * d, theta) zs.

(** A particle is well formed when its two lists run in parallel and every
    landmark covariance is symmetric positive-definite. *)
Definition well_formed (p : Particle) : Prop :=
  aligned p ∧ Forall spd (landmark_covariances p).

(** The filter loop of the main section: per record of the log one
    prediction and one correction.  The wheel distances and the cylinders
    come from the log through functions that are not part of the sources
    and are inputs here, together with the random draws of the step; the
    output written per record is left out. *)
Record tick : Type := mkTick {
  tick_control : R * R;
  tick_cylinders : list (vec2 * vec2);
  tick_normal : nat → R;
  tick_start : nat;
  tick_random : nat → R
}.

Fixpoint filter_loop (fs : FastSLAM) (scanner_displacement_global : R)
    (fuel : nat) (ticks : list tick) : result FastSLAM :=
  match ticks with
  | [] => Ok fs
  | t :: rest =>
      fs1 ← predict fs (tick_control t) (tick_normal t);
      fs2 ← correct fs1 scanner_displacement_global (tick_cylinders t) fuel
              (tick_start t) (tick_random t);
      filter_loop fs2 scanner_displacement_global fuel rest
  end.

(** One record: straight ahead by 50, no cylinder in the scan. *)
Definition tick_ahead : tick := mkTick (50, 50) [] (λ _, 1) 0 (λ _, 1 / 2).

End FurtherVocabulary.

(** ** Proof support *)

(** Case analysis on the first step of a monadic computation that is known
    to return. *)
Ltac bind_ok H :=
  match type of H with
  | mbind _ ?m = Ok _ =>
      let E := fresh "E" in
      destruct m eqn:E; cbn [mbind result_bind] in H; [|discriminate..]
  end.

(** * Properties *)

(** ** Arithmetic of the primitives *)

Section NumericFacts.
Local Open Scope R_scope.

Lemma py_mod_range (a b : R) : 0 < b → 0 <= py_mod a b < b.
Proof.
  intros Hb. unfold py_mod.
  destruct (base_Int_part (a / b)) as [Hle Hgt].
  assert (Hab : a = a / b * b) by (field; lra).
  set (k := IZR (Int_part (a / b))) in *.
  split.
  - assert (k * b <= a / b * b) by (apply Rmult_le_compat_r; lra). lra.
  - assert (a / b * b < (k + 1) * b) by (apply Rmult_lt_compat_r; lra). lra.
Qed.

Lemma Int_part_IZR (z : Z) : Int_part (IZR z) = z.
Proof. symmetry. apply Int_part_spec. lra. Qed.

Lemma py_mod_self (b : R) : b ≠ 0 → py_mod b b = 0.
Proof.
  intros Hb. unfold py_mod.
  replace (b / b) with (IZR 1) by (simpl; field; exact Hb).
  rewrite Int_part_IZR. simpl. lra.
Qed.

Lemma py_div_ok (a b : R) : b ≠ 0 → py_div a b = Ok (a / b).
Proof. intros Hb. unfold py_div. destruct (Req_dec_T b 0); [contradiction|done]. Qed.

Lemma np_div_ok (a b : R) : b ≠ 0 → np_div a b = Ok (a / b).
Proof. intros Hb. unfold np_div. destruct (Req_dec_T b 0); [contradiction|done]. Qed.

Lemma py_sqrt_ok (a : R) : 0 <= a → py_sqrt a = Ok (sqrt a).
Proof. intros Ha. unfold py_sqrt. destruct (Rlt_dec a 0); [lra|done]. Qed.

Lemma inv_ok (A : mat2) :
  det A ≠ 0 →
  inv A = Ok (Mat2 (m11 A / det A) (- m01 A / det A)
                   (- m10 A / det A) (m00 A / det A)).
Proof. intros Hd. unfold inv. destruct (Req_dec_T (det A) 0); [contradiction|done]. Qed.

Lemma two_PI_pos : 0 < 2 * PI.
Proof. pose proof PI_RGT_0. lra. Qed.

End NumericFacts.

(** ** The motion model *)

Section MotionModel.
Local Open Scope R_scope.

(** Two angles of the interval [-PI, PI) that differ by a whole number of
    turns are the same. *)
Lemma wrapped_unique (a t t' : R) (k k' : Z) :
  - PI <= t < PI → - PI <= t' < PI →
  t = a - IZR k * (2 * PI) → t' = a - IZR k' * (2 * PI) → t = t'.
Proof.
  intros Ht Ht' E E'. pose proof PI_RGT_0 as Hpi.
  assert (Hd : t - t' = IZR (k' - k) * (2 * PI)) by (rewrite minus_IZR; lra).
  assert (H1 : (-1 < k' - k)%Z).
  { apply lt_IZR. destruct (Rlt_or_le (IZR (-1)) (IZR (k' - k))) as [|Hle];
      [done|]. exfalso.
    assert (IZR (k' - k) * (2 * PI) <= IZR (-1) * (2 * PI))
      by (apply Rmult_le_compat_r; lra).
    lra. }
  assert (H2 : (k' - k < 1)%Z).
  { apply lt_IZR. destruct (Rlt_or_le (IZR (k' - k)) (IZR 1)) as [|Hle];
      [done|]. exfalso.
    assert (IZR 1 * (2 * PI) <= IZR (k' - k) * (2 * PI))
      by (apply Rmult_le_compat_r; lra).
    lra. }
  assert (k' - k = 0)%Z as E0 by lia. rewrite E0 in Hd. lra.
Qed.

(** C4, as the code has it: with [left ≠ right] the returned heading is
    [(theta + alpha + pi) % (2*pi) - pi] for [alpha = (right - left) / w]:
    it differs from [theta + alpha] by a whole number of turns, it lies in
    the half-open interval [-PI, PI) (closed at -PI, open at PI), and it is
    the only such angle.  With [left = right] the heading is returned as it
    came in, with no wrap.  The call returns whenever the width is not
    zero. *)
Theorem g_heading (x y theta l r w : R) :
  r = l ∨ w ≠ 0 →
  ∃ p', g (x, y, theta) (l, r) w = Ok p' ∧
        (r ≠ l →
           p'.2 = py_mod (theta + (r - l) / w + PI) (2 * PI) - PI ∧
           (∃ k : Z, p'.2 = theta + (r - l) / w - IZR k * (2 * PI)) ∧
           - PI <= p'.2 < PI ∧
           ∀ (t : R) (k : Z), - PI <= t < PI →
             t = theta + (r - l) / w - IZR k * (2 * PI) → t = p'.2) ∧
        (r = l → p'.2 = theta).
Proof.
  intros Hrw. unfold g.
  destruct (Rne_dec r l) as [Hne|Heq].
  2:{ eexists. split; [reflexivity|]. simpl. split; [contradiction|done]. }
  - assert (Hw : w ≠ 0) by (by destruct Hrw).
    rewrite py_div_ok by exact Hw. simpl.
    rewrite py_div_ok.
    2:{ intros H0. apply Hne.
        assert (H1 : (r - l) / w * w = 0) by (rewrite H0; lra).
        unfold Rdiv in H1. rewrite Rmult_assoc, Rinv_l, Rmult_1_r in H1 by exact Hw.
        lra. }
    simpl. eexists. split; [reflexivity|]. simpl. split; [|contradiction].
    intros _.
    pose proof (py_mod_range (theta + (r - l) / w + PI) (2 * PI) two_PI_pos)
      as Hrange.
    set (k0 := Int_part ((theta + (r - l) / w + PI) / (2 * PI))).
    assert (Hk0 : py_mod (theta + (r - l) / w + PI) (2 * PI) - PI
                  = theta + (r - l) / w - IZR k0 * (2 * PI))
      by (unfold py_mod, k0; ring).
    split; [reflexivity|]. split; [by exists k0|]. split; [lra|].
    intros t k Ht Hk.
    apply (wrapped_unique (theta + (r - l) / w) _ _ k k0); [done|lra|done|done].
Qed.

Lemma g_heading_witness :
  ∃ p', g (0, 0, 0) (0, 1) 1 = Ok p' ∧
        (1 ≠ 0 →
           p'.2 = py_mod (0 + (1 - 0) / 1 + PI) (2 * PI) - PI ∧
           (∃ k : Z, p'.2 = 0 + (1 - 0) / 1 - IZR k * (2 * PI)) ∧
           - PI <= p'.2 < PI ∧
           ∀ (t : R) (k : Z), - PI <= t < PI →
             t = 0 + (1 - 0) / 1 - IZR k * (2 * PI) → t = p'.2) ∧
        (1 = 0 → p'.2 = 0).
Proof. apply (g_heading 0 0 0 0 1 1). right. lra. Defined.

(** C4 as stated fails in both branches: a straight move keeps a heading of
    5 radians, and an arc that ends exactly opposite returns -PI, which the
    interval (-PI, PI] excludes. *)
Lemma g_heading_counterexample :
  (∃ p', g (0, 0, 5) (1, 1) 1 = Ok p' ∧ p'.2 = 5 ∧ ¬ heading_wrapped p') ∧
  (∃ p', g (0, 0, 0) (0, PI) 1 = Ok p' ∧ p'.2 = - PI ∧ ¬ heading_wrapped p').
Proof.
  split.
  - unfold g. destruct (Rne_dec 1 1) as [Hne|_]; [contradiction|].
    eexists. split; [reflexivity|]. simpl. split; [done|].
    unfold heading_wrapped, wrapped. simpl. pose proof PI_4. lra.
  - unfold g. pose proof PI_RGT_0 as Hpi.
    destruct (Rne_dec PI 0) as [_|Heq]; [|exfalso; apply Heq; lra].
    rewrite py_div_ok by lra. simpl.
    rewrite py_div_ok by (unfold Rdiv; lra). simpl.
    eexists. split; [reflexivity|]. simpl.
    assert (Hm : py_mod (0 + (PI - 0) / 1 + PI) (2 * PI) = 0).
    { replace (0 + (PI - 0) / 1 + PI) with (2 * PI) by field.
      apply py_mod_self. lra. }
    rewrite Hm. split; [lra|].
    unfold heading_wrapped, wrapped. simpl. lra.
Qed.

End MotionModel.

(** ** The measurement model and the likelihood *)

Section MeasurementModel.
Local Open Scope R_scope.

Lemma h_bearing_range (state : Pose) (landmark : vec2) (d : R) :
  - PI <= (h state landmark d).2 < PI.
Proof.
  destruct state as [[sx sy] theta]. unfold h. cbn [snd].
  match goal with |- context [py_mod ?a ?b] =>
    pose proof (py_mod_range a b two_PI_pos) end.
  lra.
Qed.

Lemma dh_dlandmark_ok (sx sy theta : R) (landmark : vec2) (d : R) :
  let dx := landmark.1 - (sx + d * cos theta) in
  let dy := landmark.2 - (sy + d * sin theta) in
  let q := dx * dx + dy * dy in
  q ≠ 0 →
  dh_dlandmark (sx, sy, theta) landmark d =
    Ok (Mat2 (dx / sqrt q) (dy / sqrt q) (- dy / q) (dx / q)).
Proof.
  intros dx dy q Hq. unfold dh_dlandmark. fold dx dy. fold q.
  assert (Hs : sqrt q ≠ 0).
  { intros H0. apply Hq. apply sqrt_eq_0; [|exact H0].
    unfold q. nra. }
  rewrite !(np_div_ok _ (sqrt q)) by exact Hs. cbn [mbind result_bind].
  rewrite !(np_div_ok _ q) by exact Hq. reflexivity.
Qed.

(** The exponent of the density, written out. *)
Lemma exponent_formula (Ql : mat2) (dz : vec2) :
  det Ql ≠ 0 →
  vec_dot (vec_mat (vec_scale (-0.5) dz)
             (Mat2 (m11 Ql / det Ql) (- m01 Ql / det Ql)
                   (- m10 Ql / det Ql) (m00 Ql / det Ql))) dz
  = - (m11 Ql * dz.1 * dz.1 - (m01 Ql + m10 Ql) * dz.1 * dz.2
       + m00 Ql * dz.2 * dz.2) / (2 * det Ql).
Proof.
  intros Hd. destruct dz as [a b].
  unfold vec_dot, vec_mat, vec_scale. cbn [fst snd m00 m01 m10 m11].
  replace (-0.5) with (- (1 / 2)) by lra.
  field. exact Hd.
Qed.

Lemma gauss_likelihood_ok (Ql : mat2) (dz : vec2) :
  0 < det Ql →
  gauss_likelihood Ql dz =
    Ok (1 / (2 * PI * sqrt (det Ql)) *
        exp (- (m11 Ql * dz.1 * dz.1 - (m01 Ql + m10 Ql) * dz.1 * dz.2
                + m00 Ql * dz.2 * dz.2) / (2 * det Ql))).
Proof.
  intros Hd. unfold gauss_likelihood.
  rewrite py_sqrt_ok by lra. cbn [mbind result_bind].
  pose proof (sqrt_lt_R0 _ Hd) as Hs. pose proof PI_RGT_0 as Hpi.
  rewrite py_div_ok by nra. cbn [mbind result_bind].
  rewrite inv_ok by lra. cbn [mbind result_bind].
  rewrite exponent_formula by lra. reflexivity.
Qed.

(** Whenever the likelihood is computed at all, the determinant of the
    innovation covariance was positive and the value is positive. *)
Lemma gauss_likelihood_pos (Ql : mat2) (dz : vec2) (wl : R) :
  gauss_likelihood Ql dz = Ok wl → 0 < det Ql ∧ 0 < wl.
Proof.
  intros Hg.
  assert (Hd : 0 < det Ql).
  { unfold gauss_likelihood, py_sqrt in Hg.
    destruct (Rlt_dec (det Ql) 0) as [|Hge]; [discriminate|].
    cbn [mbind result_bind] in Hg. unfold py_div in Hg.
    destruct (Req_dec_T (2 * PI * sqrt (det Ql)) 0) as [Hz|Hnz]; [discriminate|].
    destruct (Req_dec (det Ql) 0) as [H0|H0]; [|lra].
    exfalso. apply Hnz. rewrite H0, sqrt_0. lra. }
  split; [exact Hd|].
  rewrite gauss_likelihood_ok in Hg by exact Hd. injection Hg as <-.
  pose proof (sqrt_lt_R0 _ Hd). pose proof PI_RGT_0.
  apply Rmult_lt_0_compat; [|apply exp_pos].
  apply Rdiv_lt_0_compat; nra.
Qed.

Lemma wl_likelihood_pos (self : Particle) (z : vec2) (k : nat) (Qt : mat2)
    (d wl : R) :
  wl_likelihood_of_correspondence self z k Qt d = Ok wl → 0 < wl.
Proof.
  unfold wl_likelihood_of_correspondence. intros Hw.
  destruct (delta_z self z k d) as [dz| | |]; try discriminate.
  cbn [mbind result_bind] in Hw.
  destruct (H_Ql_jacobian_and_measurement_covariance_for_landmark self k Qt d)
    as [[H Ql]| | |]; try discriminate.
  cbn [mbind result_bind] in Hw.
  by apply gauss_likelihood_pos in Hw as [_ ?].
Qed.

End MeasurementModel.

(** ** The likelihood as a function of the innovation *)

Section LikelihoodShape.
Local Open Scope R_scope.

Lemma Rabs_lt_sqr (a a' : R) : Rabs a < Rabs a' → a * a < a' * a'.
Proof.
  unfold Rabs. destruct (Rcase_abs a), (Rcase_abs a'); nra.
Qed.

Lemma spd_m11_pos (Ql : mat2) : spd Ql → 0 < m11 Ql.
Proof.
  intros (Hs & H0 & Hd). unfold det in Hd. rewrite Hs in Hd.
  destruct (Rlt_dec 0 (m11 Ql)) as [|Hn]; [done|]. exfalso. nra.
Qed.

(** C7, as the code has it: the value at the zero innovation is the
    normalisation constant, and the likelihood strictly decreases as one
    component of the innovation grows in magnitude, provided the other
    component is zero or the innovation covariance is diagonal. *)
Theorem likelihood_peak_and_decay (Ql : mat2) :
  spd Ql →
  gauss_likelihood Ql (0, 0) = Ok (1 / (2 * PI * sqrt (det Ql))) ∧
  (∀ a a' b, m01 Ql = 0 ∨ b = 0 → Rabs a < Rabs a' →
     ∃ w w', gauss_likelihood Ql (a, b) = Ok w ∧
             gauss_likelihood Ql (a', b) = Ok w' ∧ w' < w) ∧
  (∀ a b b', m01 Ql = 0 ∨ a = 0 → Rabs b < Rabs b' →
     ∃ w w', gauss_likelihood Ql (a, b) = Ok w ∧
             gauss_likelihood Ql (a, b') = Ok w' ∧ w' < w).
Proof.
  intros Hspd. pose proof (spd_m11_pos Ql Hspd) as H11.
  destruct Hspd as (Hs & H00 & Hd).
  assert (Hc : 0 < 1 / (2 * PI * sqrt (det Ql))).
  { pose proof (sqrt_lt_R0 _ Hd). pose proof PI_RGT_0.
    apply Rdiv_lt_0_compat; nra. }
  assert (Hi : 0 < / (2 * det Ql)) by (apply Rinv_0_lt_compat; lra).
  split; [|split].
  - rewrite gauss_likelihood_ok by exact Hd. cbn [fst snd].
    f_equal. rewrite <- (Rmult_1_r (1 / _)) at 2. f_equal.
    rewrite <- exp_0. f_equal. unfold Rdiv. lra.
  - intros a a' b Hb Ha. apply Rabs_lt_sqr in Ha.
    rewrite !gauss_likelihood_ok by exact Hd. cbn [fst snd].
    do 2 eexists. split; [reflexivity|]. split; [reflexivity|].
    apply Rmult_lt_compat_l; [exact Hc|]. apply exp_increasing.
    unfold Rdiv. apply Rmult_lt_compat_r; [exact Hi|].
    assert (Hx : (m01 Ql + m10 Ql) * a * b = 0 ∧ (m01 Ql + m10 Ql) * a' * b = 0).
    { destruct Hb as [Hb|Hb]; [rewrite <- Hs, Hb|rewrite Hb]; lra. }
    destruct Hx as [-> ->]. nra.
  - intros a b b' Hb Ha. apply Rabs_lt_sqr in Ha.
    rewrite !gauss_likelihood_ok by exact Hd. cbn [fst snd].
    do 2 eexists. split; [reflexivity|]. split; [reflexivity|].
    apply Rmult_lt_compat_l; [exact Hc|]. apply exp_increasing.
    unfold Rdiv. apply Rmult_lt_compat_r; [exact Hi|].
    assert (Hx : (m01 Ql + m10 Ql) * a * b = 0 ∧ (m01 Ql + m10 Ql) * a * b' = 0).
    { destruct Hb as [Hb|Hb]; [rewrite <- Hs, Hb|rewrite Hb]; lra. }
    destruct Hx as [-> ->]. nra.
Qed.

Lemma spd_eye2 : spd eye2.
Proof. unfold spd, det, eye2. cbn. lra. Qed.

Lemma likelihood_peak_and_decay_witness :
  gauss_likelihood eye2 (0, 0) = Ok (1 / (2 * PI * sqrt (det eye2))) ∧
  (∀ a a' b, m01 eye2 = 0 ∨ b = 0 → Rabs a < Rabs a' →
     ∃ w w', gauss_likelihood eye2 (a, b) = Ok w ∧
             gauss_likelihood eye2 (a', b) = Ok w' ∧ w' < w) ∧
  (∀ a b b', m01 eye2 = 0 ∨ a = 0 → Rabs b < Rabs b' →
     ∃ w w', gauss_likelihood eye2 (a, b) = Ok w ∧
             gauss_likelihood eye2 (a, b') = Ok w' ∧ w' < w).
Proof. apply (likelihood_peak_and_decay eye2). exact spd_eye2. Defined.

(** C7 as stated fails when the innovation covariance is not diagonal: for
    Ql = [[2,1],[1,2]] and the bearing innovation held at 2, the likelihood
    at range innovation 1 is larger than at range innovation 0. *)
Lemma likelihood_decay_counterexample :
  let Ql := Mat2 2 1 1 2 in
  spd Ql ∧ Rabs 0 < Rabs 1 ∧
  ∃ w0 w1, gauss_likelihood Ql (0, 2) = Ok w0 ∧
           gauss_likelihood Ql (1, 2) = Ok w1 ∧ w0 < w1.
Proof.
  cbn zeta.
  assert (Hd : det (Mat2 2 1 1 2) = 3) by (unfold det; cbn; lra).
  split; [|split].
  - unfold spd. rewrite Hd. cbn. lra.
  - rewrite Rabs_R0, Rabs_R1. lra.
  - rewrite !gauss_likelihood_ok by (rewrite Hd; lra).
    do 2 eexists. split; [reflexivity|]. split; [reflexivity|].
    rewrite Hd. cbn [fst snd m00 m01 m10 m11].
    apply Rmult_lt_compat_l.
    + pose proof (sqrt_lt_R0 3 ltac:(lra)). pose proof PI_RGT_0.
      apply Rdiv_lt_0_compat; nra.
    + apply exp_increasing. lra.
Qed.

End LikelihoodShape.

(** ** Landmark operations *)

Section LandmarkOps.
Local Open Scope R_scope.

Lemma py_index_ok {A} (l : list A) (i : nat) (x : A) :
  py_index l i = Ok x ↔ l !! i = Some x.
Proof. unfold py_index. destruct (l !! i); split; congruence. Qed.

Lemma py_setitem_ok {A} (l : list A) (i : nat) (v : A) (l' : list A) :
  py_setitem l i v = Ok l' → (i < length l)%nat ∧ l' = <[i := v]> l.
Proof. unfold py_setitem. case_decide; [|discriminate]. intros [= <-]. done. Qed.

Lemma delta_z_ok (self : Particle) (z : vec2) (k : nat) (d : R) (lm : vec2) :
  landmark_positions self !! k = Some lm →
  delta_z self z k d = Ok (vec_sub z (h (pose self) lm d)).
Proof.
  intros Hk. unfold delta_z, h_expected_measurement_for_landmark, py_index.
  rewrite Hk. reflexivity.
Qed.

Lemma H_Ql_inv (self : Particle) (k : nat) (Qt : mat2) (d : R) (H Ql : mat2) :
  H_Ql_jacobian_and_measurement_covariance_for_landmark self k Qt d = Ok (H, Ql) →
  ∃ lm Sigma,
    landmark_positions self !! k = Some lm ∧
    landmark_covariances self !! k = Some Sigma ∧
    dh_dlandmark (pose self) lm d = Ok H ∧
    Ql = mat_add (mat_mul H (mat_mul Sigma (mat_T H))) Qt.
Proof.
  unfold H_Ql_jacobian_and_measurement_covariance_for_landmark. intros Hq.
  bind_ok Hq. bind_ok Hq. bind_ok Hq. injection Hq as <- <-.
  apply py_index_ok in E, E1. eauto 10.
Qed.

(** What a successful [update_landmark] did: the standard EKF correction of
    landmark [k], every other entry of both lists kept. *)
Lemma update_landmark_inv (self : Particle) (k : nat) (z : vec2) (Qt : mat2)
    (d : R) (self' : Particle) :
  update_landmark self k z Qt d = Ok self' →
  ∃ lm Sigma H Ql_inv,
    landmark_positions self !! k = Some lm ∧
    landmark_covariances self !! k = Some Sigma ∧
    dh_dlandmark (pose self) lm d = Ok H ∧
    inv (mat_add (mat_mul H (mat_mul Sigma (mat_T H))) Qt) = Ok Ql_inv ∧
    let K := mat_mul (mat_mul Sigma (mat_T H)) Ql_inv in
    self' = mkParticle (pose self)
              (<[k := vec_add lm (mat_vec K (vec_sub z (h (pose self) lm d)))]>
                 (landmark_positions self))
              (<[k := mat_mul (mat_sub eye2 (mat_mul K H)) Sigma]>
                 (landmark_covariances self)).
Proof.
  unfold update_landmark. intros Hu.
  bind_ok Hu. destruct a as [H Ql].
  apply H_Ql_inv in E as (lm & Sigma & Hlm & HS & HH & ->).
  rewrite (proj2 (py_index_ok _ _ _) HS) in Hu. cbn [mbind result_bind] in Hu.
  bind_ok Hu.
  rewrite (proj2 (py_index_ok _ _ _) Hlm) in Hu. cbn [mbind result_bind] in Hu.
  rewrite (delta_z_ok _ _ _ _ _ Hlm) in Hu. cbn [mbind result_bind] in Hu.
  bind_ok Hu. apply py_setitem_ok in E0 as [_ ->].
  bind_ok Hu. apply py_setitem_ok in E0 as [_ ->].
  injection Hu as <-. exists lm, Sigma, H, a. done.
Qed.

(** A new landmark can be set up from every measurement that is not the
    scanner's own position. *)
Lemma initialize_new_landmark_ok (self : Particle) (ms : vec2) (Qt : mat2) (d : R) :
  ms.1 * ms.1 + ms.2 * ms.2 ≠ 0 →
  ∃ lm cov,
    initialize_new_landmark self ms Qt d =
      Ok (mkParticle (pose self) (landmark_positions self ++ [lm])
            (landmark_covariances self ++ [cov])).
Proof.
  intros Hq. destruct self as [[[x y] theta] lps lcs]. destruct ms as [mx my].
  unfold initialize_new_landmark. cbn [pose landmark_positions landmark_covariances fst snd] in *.
  set (lm := scanner_to_world _ _).
  pose proof (sin2_cos2 theta) as Hsc. unfold Rsqr in Hsc.
  assert (Hdx : lm.1 - (x + d * cos theta) = mx * cos theta - my * sin theta)
    by (unfold lm, scanner_to_world; cbn [fst snd]; lra).
  assert (Hdy : lm.2 - (y + d * sin theta) = mx * sin theta + my * cos theta)
    by (unfold lm, scanner_to_world; cbn [fst snd]; lra).
  assert (Hqq : (mx * cos theta - my * sin theta) * (mx * cos theta - my * sin theta)
              + (mx * sin theta + my * cos theta) * (mx * sin theta + my * cos theta)
              = mx * mx + my * my) by nra.
  rewrite dh_dlandmark_ok by (cbn zeta; rewrite Hdx, Hdy, Hqq; exact Hq).
  cbn [mbind result_bind]. rewrite Hdx, Hdy, Hqq.
  set (q := mx * mx + my * my) in *.
  assert (Hqpos : 0 < q) by (unfold q in *; nra).
  pose proof (sqrt_lt_R0 _ Hqpos) as Hs.
  rewrite inv_ok.
  - cbn [mbind result_bind]. eauto.
  - unfold det. cbn [m00 m01 m10 m11].
    set (a := mx * cos theta - my * sin theta) in *.
    set (b := mx * sin theta + my * cos theta) in *.
    replace (a / sqrt q * (a / q) - b / sqrt q * (- b / q))
      with ((a * a + b * b) / q * / sqrt q) by (field; lra).
    rewrite Hqq. replace (q / q) with 1 by (field; lra).
    rewrite Rmult_1_l. apply Rinv_neq_0_compat. lra.
Qed.

Lemma initialize_new_landmark_inv (self : Particle) (ms : vec2) (Qt : mat2)
    (d : R) (self' : Particle) :
  initialize_new_landmark self ms Qt d = Ok self' →
  ∃ lm cov,
    self' = mkParticle (pose self) (landmark_positions self ++ [lm])
              (landmark_covariances self ++ [cov]).
Proof.
  unfold initialize_new_landmark. destruct (pose self) as [[x y] theta] eqn:Hp.
  intros Hi. bind_ok Hi. bind_ok Hi. injection Hi as <-. eauto.
Qed.

End LandmarkOps.

(** ** The innovation *)

Section Innovation.
Local Open Scope R_scope.

(** C3, as the code has it: the innovation is the plain componentwise
    difference between the measurement and the expected measurement.  Only
    the expected bearing is wrapped, to [-PI, PI); the bearing of the
    innovation is not, and for a measured bearing in [-PI, PI) it lies
    anywhere in (-2 PI, 2 PI).  The likelihood and the mean correction of
    the landmark update both use this unwrapped innovation. *)
Theorem innovation_bearing_unwrapped (self : Particle) (z : vec2) (k : nat)
    (Qt : mat2) (d : R) (lm : vec2) :
  landmark_positions self !! k = Some lm →
  let e := h (pose self) lm d in
  let dz := (z.1 - e.1, z.2 - e.2) in
  - PI <= e.2 < PI ∧
  (- PI <= z.2 < PI → - (2 * PI) < dz.2 < 2 * PI) ∧
  delta_z self z k d = Ok dz ∧
  wl_likelihood_of_correspondence self z k Qt d =
    ('(H, Ql) ← H_Ql_jacobian_and_measurement_covariance_for_landmark
                  self k Qt d;
     gauss_likelihood Ql dz) ∧
  (∀ self', update_landmark self k z Qt d = Ok self' →
     ∃ Sigma H Ql_inv,
       landmark_covariances self !! k = Some Sigma ∧
       dh_dlandmark (pose self) lm d = Ok H ∧
       inv (mat_add (mat_mul H (mat_mul Sigma (mat_T H))) Qt) = Ok Ql_inv ∧
       landmark_positions self' !! k =
         Some (vec_add lm
                 (mat_vec (mat_mul (mat_mul Sigma (mat_T H)) Ql_inv) dz))).
Proof.
  intros Hk e dz. pose proof (h_bearing_range (pose self) lm d) as He.
  fold e in He.
  assert (Hdz : delta_z self z k d = Ok dz) by (by rewrite (delta_z_ok _ _ _ _ _ Hk)).
  split; [exact He|]. split; [unfold dz; cbn [snd]; lra|].
  split; [exact Hdz|]. split.
  - unfold wl_likelihood_of_correspondence. rewrite Hdz. reflexivity.
  - intros self' Hu.
    apply update_landmark_inv in Hu as (lm' & Sigma & H & Qi & Hlm & HS & HH & Hi & ->).
    rewrite Hk in Hlm. injection Hlm as <-.
    exists Sigma, H, Qi. repeat split; try done.
    cbn [landmark_positions]. apply list_lookup_insert_eq.
    by eapply lookup_lt_Some.
Qed.

Lemma atan2_west : atan2 0 (-1) = PI.
Proof.
  unfold atan2.
  destruct (Rlt_dec 0 (-1)); [lra|]. destruct (Rlt_dec (-1) 0); [|lra].
  destruct (Rle_dec 0 0); [|lra].
  replace (0 / -1) with 0 by (field; lra). rewrite atan_0. lra.
Qed.

Lemma h_west : h (0, 0, 0) (-1, 0) 0 = (1, - PI).
Proof.
  unfold h. cbn [fst snd].
  replace (-1 - (0 + 0 * cos 0)) with (-1) by ring.
  replace (0 - (0 + 0 * sin 0)) with 0 by ring.
  rewrite atan2_west. f_equal.
  - replace (-1 * -1 + 0 * 0) with 1 by ring. apply sqrt_1.
  - replace (PI - 0 + PI) with (2 * PI) by ring.
    rewrite py_mod_self by (pose proof PI_RGT_0; lra). lra.
Qed.

Lemma H_Ql_west :
  H_Ql_jacobian_and_measurement_covariance_for_landmark p_west 0 eye2 0
  = Ok (Mat2 (-1) 0 0 (-1), Mat2 2 0 0 2).
Proof.
  unfold H_Ql_jacobian_and_measurement_covariance_for_landmark, p_west.
  cbn [py_index lookup list_lookup landmark_positions landmark_covariances
       pose mbind result_bind].
  assert (Hx : (-1, 0).1 - (0 + 0 * cos 0) = -1) by (cbn [fst]; ring).
  assert (Hy : (-1, 0).2 - (0 + 0 * sin 0) = 0) by (cbn [snd]; ring).
  rewrite dh_dlandmark_ok; cbn zeta; rewrite Hx, Hy;
    replace (-1 * -1 + 0 * 0) with 1 by ring; [|lra].
  rewrite sqrt_1. cbn [mbind result_bind]. f_equal. f_equal.
  - f_equal; field.
  - unfold mat_add, mat_mul, mat_T, eye2. cbn [m00 m01 m10 m11].
    f_equal; field.
Qed.

Lemma innovation_bearing_unwrapped_witness :
  let e := h (pose p_west) (-1, 0) 0 in
  let z : vec2 := (1, 3) in
  let dz := (z.1 - e.1, z.2 - e.2) in
  - PI <= e.2 < PI ∧
  (- PI <= z.2 < PI → - (2 * PI) < dz.2 < 2 * PI) ∧
  delta_z p_west z 0 0 = Ok dz ∧
  wl_likelihood_of_correspondence p_west z 0 eye2 0 =
    ('(H, Ql) ← H_Ql_jacobian_and_measurement_covariance_for_landmark
                  p_west 0 eye2 0;
     gauss_likelihood Ql dz) ∧
  (∀ self', update_landmark p_west 0 z eye2 0 = Ok self' →
     ∃ Sigma H Ql_inv,
       landmark_covariances p_west !! 0%nat = Some Sigma ∧
       dh_dlandmark (pose p_west) (-1, 0) 0 = Ok H ∧
       inv (mat_add (mat_mul H (mat_mul Sigma (mat_T H))) eye2) = Ok Ql_inv ∧
       landmark_positions self' !! 0%nat =
         Some (vec_add (-1, 0)
                 (mat_vec (mat_mul (mat_mul Sigma (mat_T H)) Ql_inv) dz))).
Proof.
  apply (innovation_bearing_unwrapped p_west (1, 3) 0 eye2 0 (-1, 0)).
  reflexivity.
Defined.

Lemma delta_z_west : delta_z p_west (1, 3) 0 0 = Ok (0, 3 + PI).
Proof.
  rewrite (delta_z_ok p_west (1, 3) 0 0 (-1, 0)) by reflexivity.
  cbn [pose p_west]. rewrite h_west. unfold vec_sub. cbn [fst snd].
  f_equal. f_equal; ring.
Qed.

Lemma wl_west :
  wl_likelihood_of_correspondence p_west (1, 3) 0 eye2 0 = Ok wl_west_value.
Proof.
  unfold wl_likelihood_of_correspondence. rewrite delta_z_west, H_Ql_west.
  cbn [mbind result_bind].
  assert (Hd : det (Mat2 2 0 0 2) = 4) by (unfold det; cbn; ring).
  rewrite gauss_likelihood_ok by (rewrite Hd; lra).
  rewrite Hd. cbn [fst snd m00 m01 m10 m11].
  replace (sqrt 4) with 2.
  2:{ replace 4 with (2 * 2) by ring. rewrite sqrt_square; lra. }
  unfold wl_west_value. f_equal. f_equal. f_equal. field.
Qed.

(** C3 as stated fails: with the landmark due west (expected bearing -PI)
    and a measured bearing of 3 radians, the bearing of the innovation is
    3 + PI, outside (-PI, PI], and the likelihood is computed from it. *)
Lemma innovation_wrap_counterexample :
  delta_z p_west (1, 3) 0 0 = Ok (0, 3 + PI) ∧
  ¬ wrapped (3 + PI) ∧
  wl_likelihood_of_correspondence p_west (1, 3) 0 eye2 0 =
    Ok (1 / (2 * PI * 2) * exp (- ((3 + PI) * (3 + PI)) / 4)).
Proof.
  split; [exact delta_z_west|]. split; [|exact wl_west].
  unfold wrapped. pose proof PI_RGT_0. lra.
Qed.

End Innovation.

(** ** Two small scenes, evaluated *)

Section Scenes.
Local Open Scope R_scope.

(** Setting up a landmark one unit ahead of [p_origin]. *)
Lemma init_east (Qt : mat2) :
  initialize_new_landmark p_origin (1, 0) Qt 0 = Ok (p_east Qt).
Proof.
  unfold initialize_new_landmark, p_origin.
  cbn [pose landmark_positions landmark_covariances app].
  assert (Hlm : scanner_to_world (0 + cos 0 * 0, 0 + sin 0 * 0, 0) (1, 0) = (1, 0)).
  { unfold scanner_to_world. rewrite cos_0, sin_0. f_equal; ring. }
  rewrite Hlm.
  assert (Hx : (1, 0).1 - (0 + 0 * cos 0) = 1) by (cbn [fst]; ring).
  assert (Hy : (1, 0).2 - (0 + 0 * sin 0) = 0) by (cbn [snd]; ring).
  rewrite dh_dlandmark_ok; cbn zeta; rewrite Hx, Hy;
    replace (1 * 1 + 0 * 0) with 1 by ring; [|lra].
  rewrite sqrt_1. cbn [mbind result_bind].
  replace (Mat2 (1 / 1) (0 / 1) (- 0 / 1) (1 / 1)) with eye2
    by (unfold eye2; f_equal; field).
  rewrite inv_ok by (unfold det, eye2; cbn; lra).
  cbn [mbind result_bind].
  replace (Mat2 (m11 eye2 / det eye2) (- m01 eye2 / det eye2)
             (- m10 eye2 / det eye2) (m00 eye2 / det eye2)) with eye2
    by (unfold eye2, det; cbn; f_equal; field).
  reflexivity.
Qed.

Lemma update_particle_east (z : vec2) (thr : R) (Qt : mat2) :
  update_particle p_origin z (1, 0) 0 thr Qt 0 = Ok (p_east Qt, thr).
Proof.
  unfold update_particle.
  cbn [compute_correspondence_likelihoods likelihoods_loop no_correspondence
       mbind result_bind].
  by rewrite init_east.
Qed.

Lemma likelihoods_west :
  compute_correspondence_likelihoods p_west (1, 3) 1 eye2 0 = Ok [wl_west_value].
Proof.
  unfold compute_correspondence_likelihoods. cbn [likelihoods_loop].
  by rewrite wl_west.
Qed.

End Scenes.

(** ** Maximum and first index of the maximum *)

Section ArgMax.
Local Open Scope R_scope.

Lemma list_max_from_spec (l : list R) (m : R) :
  is_max (list_max_from m l) (m :: l).
Proof.
  revert m. induction l as [|x l IH]; intros m; cbn [list_max_from].
  - split; [set_solver|]. intros x Hx. apply list_elem_of_singleton in Hx. lra.
  - destruct (IH (if Rlt_dec m x then x else m)) as [Hin Hub].
    split.
    + apply elem_of_cons in Hin as [Hin|Hin]; [|set_solver].
      rewrite Hin. destruct (Rlt_dec m x); set_solver.
    + intros y Hy.
      assert (Hm : m <= list_max_from (if Rlt_dec m x then x else m) l ∧
                   x <= list_max_from (if Rlt_dec m x then x else m) l).
      { pose proof (Hub (if Rlt_dec m x then x else m) ltac:(set_solver)).
        destruct (Rlt_dec m x); lra. }
      apply elem_of_cons in Hy as [->|Hy]; [lra|].
      apply elem_of_cons in Hy as [->|Hy]; [lra|].
      apply Hub. set_solver.
Qed.

Lemma py_max_spec (l : list R) (m : R) : py_max l = Ok m → is_max m l.
Proof.
  destruct l as [|x l]; [discriminate|]. intros [= <-].
  apply list_max_from_spec.
Qed.

Lemma is_max_unique (l : list R) (m m' : R) : is_max m l → is_max m' l → m = m'.
Proof. intros [Hi Hu] [Hi' Hu']. apply Hu in Hi'. apply Hu' in Hi. lra. Qed.

(** The loop, entered after a prefix [pre] of which [w] is the maximum,
    first attained at [k]. *)
Lemma argmax_loop_spec (l pre : list R) (w : R) (k : nat) :
  is_max w pre → first_index_of w pre k →
  let r := argmax_loop l (length pre) w k in
  is_max r.1 (pre ++ l) ∧ first_index_of r.1 (pre ++ l) r.2.
Proof.
  revert pre w k. induction l as [|x l IH]; intros pre w k Hmax Hfirst.
  - cbn. rewrite app_nil_r. done.
  - cbn [argmax_loop]. destruct Hmax as [Hin Hub]. destruct Hfirst as [Hk Hlt].
    replace (pre ++ x :: l) with ((pre ++ [x]) ++ l) by (by rewrite <- app_assoc).
    replace (S (length pre)) with (length (pre ++ [x]))
      by (rewrite length_app; cbn; lia).
    destruct (Rgt_dec x w) as [Hgt|Hle]; apply IH.
    + split; [set_solver|]. intros y Hy.
      apply elem_of_app in Hy as [Hy|Hy]; [apply Hub in Hy; lra|].
      apply list_elem_of_singleton in Hy. lra.
    + split.
      * rewrite lookup_app_r by lia. by rewrite Nat.sub_diag.
      * intros j y Hj Hy. rewrite lookup_app_l in Hy by lia.
        apply list_elem_of_lookup_2 in Hy. apply Hub in Hy. lra.
    + split; [set_solver|]. intros y Hy.
      apply elem_of_app in Hy as [Hy|Hy]; [by apply Hub|].
      apply list_elem_of_singleton in Hy. lra.
    + split.
      * apply lookup_app_l_Some. exact Hk.
      * intros j y Hj Hy. apply lookup_lt_Some in Hk.
        rewrite lookup_app_l in Hy by lia. by eapply Hlt.
Qed.

(** On a non-empty list of positive numbers the loop of [update_particle]
    delivers the maximum and the first index that attains it. *)
Lemma argmax_loop_positive (l : list R) :
  l ≠ [] → Forall (λ x, 0 < x) l →
  let r := argmax_loop l 0 0 0 in
  is_max r.1 l ∧ first_index_of r.1 l r.2.
Proof.
  destruct l as [|x l]; [done|]. intros _ Hpos.
  apply Forall_cons in Hpos as [Hx _].
  cbn [argmax_loop]. destruct (Rgt_dec x 0) as [_|]; [|lra].
  apply (argmax_loop_spec l [x] x 0).
  - split; [set_solver|]. intros y Hy. apply list_elem_of_singleton in Hy. lra.
  - split; [done|]. intros j y Hj. lia.
Qed.

End ArgMax.

(** ** Data association: [update_particle] *)

Section DataAssociation.
Local Open Scope R_scope.

Lemma likelihoods_loop_spec (self : Particle) (z : vec2) (Qt : mat2) (d : R)
    (n i : nat) (acc ls : list R) :
  likelihoods_loop self z Qt d n i acc = Ok ls →
  ∃ new, ls = acc ++ new ∧ length new = n ∧
         ∀ j x, new !! j = Some x →
                wl_likelihood_of_correspondence self z (i + j) Qt d = Ok x.
Proof.
  revert i acc. induction n as [|n IH]; intros i acc; cbn [likelihoods_loop].
  - intros [= <-]. exists []. rewrite app_nil_r. split; [done|]. split; [done|].
    intros j x Hj. done.
  - intros Hl. bind_ok Hl. apply IH in Hl as (new & -> & Hlen & Hnew).
    exists (a :: new). rewrite <- app_assoc. split; [done|].
    split; [cbn; lia|]. intros [|j] x Hj.
    + injection Hj as <-. by rewrite Nat.add_0_r.
    + cbn in Hj. apply Hnew in Hj. by replace (i + S j)%nat with (S i + j)%nat by lia.
Qed.

(** The list of likelihoods has one entry per candidate index [0..N-1],
    each of them the likelihood of that landmark, and each positive. *)
Lemma compute_correspondence_likelihoods_spec (self : Particle) (z : vec2)
    (N : nat) (Qt : mat2) (d : R) (ls : list R) :
  compute_correspondence_likelihoods self z N Qt d = Ok ls →
  length ls = N ∧
  (∀ k x, ls !! k = Some x →
          wl_likelihood_of_correspondence self z k Qt d = Ok x) ∧
  Forall (λ x, 0 < x) ls.
Proof.
  unfold compute_correspondence_likelihoods. intros Hl.
  apply likelihoods_loop_spec in Hl as (new & -> & Hlen & Hnew).
  cbn [app] in *. split; [done|]. split; [exact Hnew|].
  apply Forall_lookup. intros k x Hk. apply Hnew in Hk.
  by eapply wl_likelihood_pos.
Qed.

Lemma no_correspondence_spec (ls : list R) (thr : R) :
  ∃ b, no_correspondence ls thr = Ok b ∧
       (b = true ↔ ls = [] ∨ ∃ m, is_max m ls ∧ m < thr).
Proof.
  destruct ls as [|x l].
  - exists true. split; [done|]. split; [by left|done].
  - unfold no_correspondence.
    destruct (py_max (x :: l)) as [m| | |] eqn:Hm; try discriminate.
    apply py_max_spec in Hm. cbn [mbind result_bind].
    destruct (Rlt_dec m thr) as [Hlt|Hge]; eexists; (split; [reflexivity|]).
    + split; [|done]. intros _. right. by exists m.
    + split; [done|]. intros [|(m' & Hm' & Hlt)]; [done|].
      rewrite (is_max_unique _ _ _ Hm Hm') in Hge. done.
Qed.

(** What a returning [update_particle] did. *)
Lemma update_particle_inv (self : Particle) (z zs : vec2) (N : nat)
    (thr : R) (Qt : mat2) (d : R) (self' : Particle) (c : R) :
  update_particle self z zs N thr Qt d = Ok (self', c) →
  ∃ ls, compute_correspondence_likelihoods self z N Qt d = Ok ls ∧
    (((N = 0%nat ∨ ∃ m, is_max m ls ∧ m < thr) ∧
      initialize_new_landmark self zs Qt d = Ok self' ∧ c = thr)
     ∨
     (∃ k, N ≠ 0%nat ∧ is_max c ls ∧ ¬ c < thr ∧ first_index_of c ls k ∧
           (k < N)%nat ∧ update_landmark self k z Qt d = Ok self')).
Proof.
  intros Hu. unfold update_particle in Hu. bind_ok Hu. rename a into ls.
  pose proof (compute_correspondence_likelihoods_spec _ _ _ _ _ _ E)
    as (Hlen & _ & Hpos).
  destruct (no_correspondence_spec ls thr) as (b & Hb & Hiff).
  rewrite Hb in Hu. cbn [mbind result_bind] in Hu.
  exists ls. split; [done|]. destruct b.
  - bind_ok Hu. injection Hu as <- <-. left. split; [|done].
    destruct (proj1 Hiff eq_refl) as [->|?]; [by left|by right].
  - assert (Hne : ls ≠ []).
    { intros ->. discriminate (proj2 Hiff (or_introl eq_refl)). }
    pose proof (argmax_loop_positive ls Hne Hpos) as [Hmax Hfirst].
    destruct (argmax_loop ls 0 0 0) as [w k]. cbn [fst snd] in *.
    bind_ok Hu. injection Hu as <- <-. right. exists k.
    split; [by intros ->; destruct ls|]. split; [done|]. split.
    { intros Hlt. assert (Hex : ∃ m, is_max m ls ∧ m < thr) by eauto.
      discriminate (proj2 Hiff (or_intror Hex)). }
    split; [done|]. split; [|done].
    destruct Hfirst as [Hk _]. apply lookup_lt_Some in Hk. lia.
Qed.

Lemma update_particle_frame_gen (self : Particle) (z zs : vec2) (N : nat)
    (thr : R) (Qt : mat2) (d : R) (self' : Particle) (c : R) :
  update_particle self z zs N thr Qt d = Ok (self', c) →
  pose self' = pose self ∧
  ((∃ lm cov,
      landmark_positions self' = landmark_positions self ++ [lm] ∧
      landmark_covariances self' = landmark_covariances self ++ [cov])
   ∨
   (∃ k lm cov, (k < N)%nat ∧ (k < length (landmark_positions self))%nat ∧
      (∃ ls, compute_correspondence_likelihoods self z N Qt d = Ok ls ∧
             is_max c ls ∧ first_index_of c ls k) ∧
      landmark_positions self' = <[k := lm]> (landmark_positions self) ∧
      landmark_covariances self' = <[k := cov]> (landmark_covariances self))).
Proof.
  intros Hu. apply update_particle_inv in Hu
    as (ls & Hls & [(_ & Hi & _)|(k & _ & Hmax & _ & Hfirst & Hk & Hup)]).
  - apply initialize_new_landmark_inv in Hi as (lm & cov & ->).
    split; [done|]. left. by exists lm, cov.
  - apply update_landmark_inv in Hup
      as (lm & Sigma & H & Qi & Hlm & HS & HH & Hi & ->).
    split; [done|]. right. apply lookup_lt_Some in Hlm.
    do 3 eexists. split; [done|]. split; [done|]. split; [eauto|]. done.
Qed.

Lemma update_particle_contribution (self : Particle) (z zs : vec2) (N : nat)
    (thr : R) (Qt : mat2) (d : R) (self' : Particle) (c : R) :
  update_particle self z zs N thr Qt d = Ok (self', c) → thr <= c.
Proof.
  intros Hu. apply update_particle_inv in Hu
    as (ls & Hls & [(_ & _ & ->)|(k & _ & _ & Hge & _)]); lra.
Qed.

(** C10: [update_particle] keeps the pose, and changes the map in one of
    two ways: one landmark (position and covariance) appended to the
    unchanged lists, or the entries of one existing index replaced, the
    first index at which the likelihoods attain their maximum, with every
    other entry and both lengths unchanged. *)
Theorem update_particle_frame (self : Particle) (z zs : vec2) (N : nat)
    (thr : R) (Qt : mat2) (d : R) (self' : Particle) (c : R) :
  update_particle self z zs N thr Qt d = Ok (self', c) →
  pose self' = pose self ∧
  ((∃ lm cov,
      landmark_positions self' = landmark_positions self ++ [lm] ∧
      landmark_covariances self' = landmark_covariances self ++ [cov])
   ∨
   (∃ k, (k < N)%nat ∧ (k < length (landmark_positions self))%nat ∧
      (∃ ls, compute_correspondence_likelihoods self z N Qt d = Ok ls ∧
             is_max c ls ∧ first_index_of c ls k) ∧
      length (landmark_positions self') = length (landmark_positions self) ∧
      length (landmark_covariances self') = length (landmark_covariances self) ∧
      ∀ j, j ≠ k →
        landmark_positions self' !! j = landmark_positions self !! j ∧
        landmark_covariances self' !! j = landmark_covariances self !! j)).
Proof.
  intros Hu. apply update_particle_frame_gen in Hu
    as [Hp [Happ|(k & lm & cov & HkN & Hk & Hsel & Hlp & Hlc)]].
  - split; [exact Hp|]. by left.
  - split; [exact Hp|]. right. exists k. rewrite Hlp, Hlc, !length_insert.
    repeat split; try done; by apply list_lookup_insert_ne.
Qed.

Lemma update_particle_frame_witness :
  let self := p_origin in
  let self' := p_east eye2 in
  pose self' = pose self ∧
  ((∃ lm cov,
      landmark_positions self' = landmark_positions self ++ [lm] ∧
      landmark_covariances self' = landmark_covariances self ++ [cov])
   ∨
   (∃ k, (k < 0)%nat ∧ (k < length (landmark_positions self))%nat ∧
      (∃ ls, compute_correspondence_likelihoods self (1, 0) 0 eye2 0 = Ok ls ∧
             is_max (1 / 10000) ls ∧ first_index_of (1 / 10000) ls k) ∧
      length (landmark_positions self') = length (landmark_positions self) ∧
      length (landmark_covariances self') = length (landmark_covariances self) ∧
      ∀ j, j ≠ k →
        landmark_positions self' !! j = landmark_positions self !! j ∧
        landmark_covariances self' !! j = landmark_covariances self !! j)).
Proof.
  apply (update_particle_frame p_origin (1, 0) (1, 0) 0 (1 / 10000) eye2 0
           (p_east eye2) (1 / 10000)).
  apply update_particle_east.
Defined.

End DataAssociation.

(** ** Weights: [update_and_compute_weights] *)

Section Weights.
Local Open Scope R_scope.

Lemma product_floor (thr : R) (cs : list R) :
  0 < thr → Forall (λ c, thr <= c) cs →
  thr ^ length cs <= product cs ∧ 0 < product cs.
Proof.
  intros Hthr. induction 1 as [|c cs Hc _ [IH1 IH2]]; cbn.
  - lra.
  - assert (0 < thr ^ length cs) by (apply pow_lt; exact Hthr).
    fold (product cs). split; nra.
Qed.

Lemma update_observations_spec (cylinders : list (vec2 * vec2)) :
  ∀ (p : Particle) (N : nat) (thr : R) (Qt : mat2) (d w0 : R)
    (p' : Particle) (w : R),
  update_observations p cylinders N thr Qt d w0 = Ok (p', w) →
  ∃ cs, contributions p cylinders N thr Qt d = Ok cs ∧
        length cs = length cylinders ∧
        w = w0 * product cs ∧
        Forall (λ c, thr <= c) cs.
Proof.
  induction cylinders as [|[z zs] rest IH]; intros p N thr Qt d w0 p' w;
    cbn [update_observations contributions].
  - intros [= <- <-]. exists []. cbn. repeat split; [lra|constructor].
  - intros Hu. bind_ok Hu. destruct a as [p1 c].
    apply update_particle_contribution in E as Hc.
    apply IH in Hu as (cs & Hcs & Hlen & -> & Hall).
    cbn [mbind result_bind]. rewrite Hcs. cbn [mbind result_bind]. exists (c :: cs).
    repeat split; [cbn; lia|cbn; fold (product cs); lra|by constructor].
Qed.

Lemma update_particles_spec (ps : list Particle) :
  ∀ (cylinders : list (vec2 * vec2)) (thr : R) (Qt : mat2) (d : R)
    (acc : list R) (ps' : list Particle) (ws : list R),
  update_particles ps cylinders thr Qt d acc = Ok (ps', ws) →
  ∃ new, ws = acc ++ new ∧ length ps' = length ps ∧
    Forall2 (λ p w, ∃ p', particle_weight p cylinders thr Qt d = Ok (p', w))
      ps new.
Proof.
  induction ps as [|p ps IH]; intros cylinders thr Qt d acc ps' ws;
    cbn [update_particles].
  - intros [= <- <-]. exists []. rewrite app_nil_r. repeat split. constructor.
  - intros Hu. bind_ok Hu. destruct a as [p1 w]. bind_ok Hu.
    destruct a as [rest' ws']. injection Hu as <- <-.
    apply IH in E0 as (new & -> & Hlen & Hall).
    exists (w :: new). rewrite <- app_assoc. repeat split; [cbn; lia|].
    constructor; [by exists p1|exact Hall].
Qed.

(** C2: for a positive threshold, the weight that the correction pass
    computes for a particle is the product of the contributions of the
    observations, one per observation; it is at least the threshold raised
    to the number of observations, and so it is positive. *)
Theorem weights_product_and_floor (self : FastSLAM) (d : R)
    (cylinders : list (vec2 * vec2)) (self' : FastSLAM) (weights : list R) :
  let thr := minimum_correspondence_likelihood self in
  let Qt := diag2 (measurement_distance_stddev self ^ 2)
                  (measurement_angle_stddev self ^ 2) in
  0 < thr →
  update_and_compute_weights self d cylinders = Ok (self', weights) →
  Forall2 (λ p w,
      ∃ cs, contributions p cylinders (number_of_landmarks p) thr Qt d = Ok cs ∧
            length cs = length cylinders ∧
            w = product cs ∧
            thr ^ length cylinders <= w ∧ 0 < w)
    (particles self) weights.
Proof.
  intros thr Qt Hthr Hu. unfold update_and_compute_weights in Hu.
  bind_ok Hu. destruct a as [ps ws]. injection Hu as <- <-.
  apply update_particles_spec in E as (new & -> & _ & Hall).
  cbn [app]. eapply Forall2_impl; [exact Hall|].
  intros p w [p' Hp]. unfold particle_weight in Hp.
  apply update_observations_spec in Hp as (cs & Hcs & Hlen & -> & Hge).
  exists cs. destruct (product_floor _ _ Hthr Hge) as [H1 H2].
  fold thr Qt. rewrite <- Hlen. repeat split; try done; lra.
Qed.

Lemma weights_fs_one :
  update_and_compute_weights fs_one 0 scan_one =
    Ok (set_particles fs_one [p_east (diag2 (1 ^ 2) (1 ^ 2))],
        [1 * (1 / 10000)]).
Proof.
  unfold update_and_compute_weights, fs_one, scan_one.
  cbn [particles minimum_correspondence_likelihood measurement_distance_stddev
       measurement_angle_stddev update_particles particle_weight
       update_observations number_of_landmarks landmark_positions p_origin
       length].
  fold p_origin. rewrite update_particle_east. reflexivity.
Qed.

Lemma weights_product_and_floor_witness :
  let thr := minimum_correspondence_likelihood fs_one in
  let Qt := diag2 (measurement_distance_stddev fs_one ^ 2)
                  (measurement_angle_stddev fs_one ^ 2) in
  Forall2 (λ p w,
      ∃ cs, contributions p scan_one (number_of_landmarks p) thr Qt 0 = Ok cs ∧
            length cs = length scan_one ∧
            w = product cs ∧
            thr ^ length scan_one <= w ∧ 0 < w)
    (particles fs_one) [1 * (1 / 10000)].
Proof.
  apply (weights_product_and_floor fs_one 0 scan_one
           (set_particles fs_one [p_east (diag2 (1 ^ 2) (1 ^ 2))])
           [1 * (1 / 10000)]).
  - cbn. lra.
  - exact weights_fs_one.
Defined.

End Weights.

(** ** The candidates of one correction step *)

Section Candidates.
Local Open Scope R_scope.

Lemma update_observations_app (pre post : list (vec2 * vec2)) :
  ∀ (p : Particle) (N : nat) (thr : R) (Qt : mat2) (d w0 : R),
  update_observations p (pre ++ post) N thr Qt d w0 =
    ('(p1, w1) ← update_observations p pre N thr Qt d w0;
     update_observations p1 post N thr Qt d w1).
Proof.
  induction pre as [|[z zs] pre IH]; intros p N thr Qt d w0.
  - reflexivity.
  - cbn [app update_observations].
    destruct (update_particle p z zs N thr Qt d) as [[p1 c]| | |]; [|done..].
    cbn [mbind result_bind]. apply IH.
Qed.

(** Within a step the pose stays, nothing below index [N] is removed, and
    whatever was appended before stays as it is. *)
Lemma update_observations_grows (cylinders : list (vec2 * vec2)) :
  ∀ (p : Particle) (N : nat) (thr : R) (Qt : mat2) (d w0 : R)
    (p' : Particle) (w : R),
  update_observations p cylinders N thr Qt d w0 = Ok (p', w) →
  pose p' = pose p ∧
  (∃ lms, drop N (landmark_positions p') = drop N (landmark_positions p) ++ lms) ∧
  (∃ covs, drop N (landmark_covariances p') =
           drop N (landmark_covariances p) ++ covs) ∧
  (length (landmark_positions p) ≤ length (landmark_positions p'))%nat.
Proof.
  induction cylinders as [|[z zs] rest IH]; intros p N thr Qt d w0 p' w;
    cbn [update_observations].
  - intros [= <- <-]. split; [done|].
    split; [|split]; [exists []|exists []|]; by rewrite ?app_nil_r.
  - intros Hu. bind_ok Hu. destruct a as [p1 c].
    apply IH in Hu as (Hp & [lms Hl] & [covs Hc] & Hlen).
    apply update_particle_frame_gen in E
      as [Hp1 [(lm & cov & Hlp & Hlc)|(k & lm & cov & HkN & Hk & _ & Hlp & Hlc)]].
    + rewrite Hl, Hc, Hp, Hp1, Hlp, Hlc, !drop_app.
      split; [done|]. rewrite <- !app_assoc.
      split; [eauto|]. split; [eauto|].
      rewrite Hlp, length_app in Hlen. cbn in Hlen. lia.
    + rewrite Hl, Hc, Hp, Hp1, Hlp, Hlc, !drop_insert_lt by done.
      split; [done|]. split; [eauto|]. split; [eauto|].
      by rewrite Hlp, length_insert in Hlen.
Qed.

Lemma wl_likelihood_ext (p q : Particle) (z : vec2) (k : nat) (Qt : mat2) (d : R) :
  pose p = pose q →
  landmark_positions p !! k = landmark_positions q !! k →
  landmark_covariances p !! k = landmark_covariances q !! k →
  wl_likelihood_of_correspondence p z k Qt d =
  wl_likelihood_of_correspondence q z k Qt d.
Proof.
  intros Hp Hl Hc.
  unfold wl_likelihood_of_correspondence, delta_z,
    h_expected_measurement_for_landmark,
    H_Ql_jacobian_and_measurement_covariance_for_landmark, py_index.
  by rewrite Hp, Hl, Hc.
Qed.

Lemma likelihoods_loop_ext (p q : Particle) (z : vec2) (Qt : mat2) (d : R)
    (n : nat) :
  ∀ (i : nat) (acc : list R),
  (∀ k, (i ≤ k < i + n)%nat →
        wl_likelihood_of_correspondence p z k Qt d =
        wl_likelihood_of_correspondence q z k Qt d) →
  likelihoods_loop p z Qt d n i acc = likelihoods_loop q z Qt d n i acc.
Proof.
  induction n as [|n IH]; intros i acc Hext; cbn [likelihoods_loop]; [done|].
  rewrite (Hext i) by lia.
  destruct (wl_likelihood_of_correspondence q z i Qt d); [|done..].
  cbn [mbind result_bind]. apply IH. intros k Hk. apply Hext. lia.
Qed.

Lemma likelihoods_truncate (p : Particle) (z : vec2) (N : nat) (Qt : mat2) (d : R) :
  compute_correspondence_likelihoods p z N Qt d =
  compute_correspondence_likelihoods (truncate N p) z N Qt d.
Proof.
  unfold compute_correspondence_likelihoods. apply likelihoods_loop_ext.
  intros k Hk. apply wl_likelihood_ext; unfold truncate;
    cbn [pose landmark_positions landmark_covariances];
    [done|by rewrite lookup_take_lt by lia..].
Qed.

(** C5: in the pass over one scan for one particle, the landmark count [N0]
    is read once, before the first observation.  After any prefix of the
    scan the next observation is still processed with [N0]; the landmarks
    created so far are in the list, at the indices from [N0] on; the
    likelihoods computed for the next observation are those of the particle
    cut down to its first [N0] landmarks, one per index below [N0]; and the
    next observation either appends one more landmark or rewrites an index
    below [N0], leaving the landmarks created in this step as they are. *)
Theorem candidates_are_pre_step_landmarks (p0 p1 : Particle)
    (pre post : list (vec2 * vec2)) (z zs : vec2) (thr : R) (Qt : mat2)
    (d w1 : R) :
  let N0 := number_of_landmarks p0 in
  update_observations p0 pre N0 thr Qt d 1 = Ok (p1, w1) →
  particle_weight p0 (pre ++ (z, zs) :: post) thr Qt d =
    ('(p2, c) ← update_particle p1 z zs N0 thr Qt d;
     update_observations p2 post N0 thr Qt d (w1 * c)) ∧
  (N0 ≤ number_of_landmarks p1)%nat ∧
  compute_correspondence_likelihoods p1 z N0 Qt d =
    compute_correspondence_likelihoods (truncate N0 p1) z N0 Qt d ∧
  (∀ ls, compute_correspondence_likelihoods p1 z N0 Qt d = Ok ls →
         length ls = N0) ∧
  (∀ p2 c, update_particle p1 z zs N0 thr Qt d = Ok (p2, c) →
     (∃ lm cov, landmark_positions p2 = landmark_positions p1 ++ [lm] ∧
                landmark_covariances p2 = landmark_covariances p1 ++ [cov])
     ∨
     (∃ k, (k < N0)%nat ∧
           drop N0 (landmark_positions p2) = drop N0 (landmark_positions p1) ∧
           drop N0 (landmark_covariances p2) =
             drop N0 (landmark_covariances p1))).
Proof.
  intros N0 Hpre.
  pose proof (update_observations_grows _ _ _ _ _ _ _ _ _ Hpre)
    as (Hp & _ & _ & Hlen).
  fold (number_of_landmarks p0) in Hlen. fold (number_of_landmarks p1) in Hlen.
  fold N0 in Hlen.
  split; [|split; [exact Hlen|split; [|split]]].
  - unfold particle_weight. fold N0. rewrite update_observations_app, Hpre.
    reflexivity.
  - apply likelihoods_truncate.
  - intros ls Hls.
    by apply compute_correspondence_likelihoods_spec in Hls as [? _].
  - intros p2 c Hu. apply update_particle_frame_gen in Hu
      as [_ [(lm & cov & Hlp & Hlc)|(k & lm & cov & HkN & Hk & _ & Hlp & Hlc)]].
    + left. by exists lm, cov.
    + right. exists k. rewrite Hlp, Hlc, !drop_insert_lt by done. done.
Qed.

Lemma candidates_are_pre_step_landmarks_witness :
  let p0 := p_origin in
  let p1 := p_east eye2 in
  let N0 := number_of_landmarks p0 in
  let z : vec2 := (2, 0) in
  let zs : vec2 := (2, 0) in
  let thr := 1 / 10000 in
  particle_weight p0 (scan_one ++ (z, zs) :: []) thr eye2 0 =
    ('(p2, c) ← update_particle p1 z zs N0 thr eye2 0;
     update_observations p2 [] N0 thr eye2 0 (1 * thr * c)) ∧
  (N0 ≤ number_of_landmarks p1)%nat ∧
  compute_correspondence_likelihoods p1 z N0 eye2 0 =
    compute_correspondence_likelihoods (truncate N0 p1) z N0 eye2 0 ∧
  (∀ ls, compute_correspondence_likelihoods p1 z N0 eye2 0 = Ok ls →
         length ls = N0) ∧
  (∀ p2 c, update_particle p1 z zs N0 thr eye2 0 = Ok (p2, c) →
     (∃ lm cov, landmark_positions p2 = landmark_positions p1 ++ [lm] ∧
                landmark_covariances p2 = landmark_covariances p1 ++ [cov])
     ∨
     (∃ k, (k < N0)%nat ∧
           drop N0 (landmark_positions p2) = drop N0 (landmark_positions p1) ∧
           drop N0 (landmark_covariances p2) =
             drop N0 (landmark_covariances p1))).
Proof.
  apply (candidates_are_pre_step_landmarks p_origin (p_east eye2) scan_one []
           (2, 0) (2, 0) (1 / 10000) eye2 0 (1 * (1 / 10000))).
  unfold scan_one. cbn [update_observations number_of_landmarks
                        landmark_positions p_origin length].
  fold p_origin. rewrite update_particle_east. reflexivity.
Defined.

End Candidates.

(** ** Resampling: termination and the number of particles *)

Section WheelFacts.
Local Open Scope R_scope.

Lemma weights_floor (ws : list R) :
  ws ≠ [] → Forall (λ w, 0 < w) ws →
  ∃ wmin, 0 < wmin ∧ Forall (λ w, wmin <= w) ws.
Proof.
  intros Hne Hpos. induction Hpos as [|w ws Hw Hpos IH]; [done|].
  destruct ws as [|w' ws'].
  - exists w. split; [done|]. constructor; [lra|constructor].
  - destruct IH as (m & Hm & Hall); [done|].
    exists (Rmin w m). split; [by apply Rmin_glb_lt|].
    constructor; [apply Rmin_l|].
    eapply Forall_impl; [exact Hall|]. intros x Hx. cbn in Hx.
    pose proof (Rmin_r w m). lra.
Qed.

Lemma nat_multiple_above (x wmin : R) : 0 < wmin → ∃ k : nat, x <= INR k * wmin.
Proof.
  intros Hw. destruct (archimed (x / wmin)) as [Hup _].
  exists (Z.to_nat (up (x / wmin))).
  assert (Hx : x = x / wmin * wmin) by (field; lra).
  destruct (Z_lt_le_dec (up (x / wmin)) 0) as [Hneg|Hpos].
  - rewrite Z2Nat.nonpos by lia. cbn.
    assert (IZR (up (x / wmin)) <= 0) by (apply IZR_le; lia). nra.
  - rewrite INR_IZR_INZ, Z2Nat.id by lia. nra.
Qed.

(** With positive weights the wheel stops: after at most [k] rounds when
    the offset is at most [k] times the smallest weight. *)
Lemma wheel_stops (ws : list R) (wmin : R) :
  0 < wmin → Forall (λ w, wmin <= w) ws →
  ∀ (k : nat) (offset : R) (index : nat),
    (index < length ws)%nat → offset <= INR k * wmin →
    ∃ r, (∀ fuel, (k ≤ fuel)%nat → wheel fuel ws offset index = Ok r) ∧
         (r.2 < length ws)%nat.
Proof.
  intros Hmin Hall. induction k as [|k IH]; intros offset index Hi Hoff.
  - destruct (lookup_lt_is_Some_2 ws index Hi) as [w Hw].
    pose proof (Forall_lookup_1 _ _ _ _ Hall Hw) as Hge. cbn in Hge, Hoff.
    exists (offset, index). split; [|done]. intros fuel _.
    destruct fuel; cbn [wheel]; unfold py_index; rewrite Hw;
      cbn [mbind result_bind]; destruct (Rgt_dec offset w); try lra; done.
  - destruct (lookup_lt_is_Some_2 ws index Hi) as [w Hw].
    pose proof (Forall_lookup_1 _ _ _ _ Hall Hw) as Hge. cbn in Hge.
    destruct (Rgt_dec offset w) as [Hgt|Hle].
    + destruct (IH (offset - w) ((index + 1) mod length ws)%nat) as (r & Hr & Hlt).
      { apply Nat.mod_upper_bound. lia. }
      { rewrite S_INR in Hoff. lra. }
      exists r. split; [|done]. intros fuel Hfuel.
      destruct fuel as [|fuel]; [lia|]. cbn [wheel]. unfold py_index.
      rewrite Hw. cbn [mbind result_bind].
      destruct (Rgt_dec offset w); [|lra]. apply Hr. lia.
    + exists (offset, index). split; [|done]. intros fuel _.
      destruct fuel; cbn [wheel]; unfold py_index; rewrite Hw;
        cbn [mbind result_bind]; destruct (Rgt_dec offset w); try lra; done.
Qed.

Lemma wheel_terminates (ws : list R) (offset : R) (index : nat) :
  Forall (λ w, 0 < w) ws → (index < length ws)%nat →
  ∃ fuel0 r, (∀ fuel, (fuel0 ≤ fuel)%nat → wheel fuel ws offset index = Ok r) ∧
             (r.2 < length ws)%nat.
Proof.
  intros Hpos Hi.
  assert (Hne : ws ≠ []) by (intros ->; cbn in Hi; lia).
  destruct (weights_floor ws Hne Hpos) as (wmin & Hmin & Hall).
  destruct (nat_multiple_above offset wmin Hmin) as [k Hk].
  destruct (wheel_stops ws wmin Hmin Hall k offset index Hi Hk) as (r & Hr & Hlt).
  by exists k, r.
Qed.

End WheelFacts.

Section ResampleFacts.
Local Open Scope R_scope.
Context {P St : Type}.
Variable deepcopy : P → St → result (P * St).

(** Whatever [resample] returns has one entry per iteration. *)
Lemma resample_loop_length (fuel : nat) (ps : list P) (ws : list R) (mw : R)
    (random : nat → R) (n : nat) :
  ∀ (i : nat) (offset : R) (index : nat) (new : list P) (s : St)
    (out : list P) (s' : St),
  resample_loop deepcopy fuel ps ws mw random n i offset index new s
    = Ok (out, s') →
  length out = (length new + n)%nat.
Proof.
  induction n as [|n IH]; intros i offset index new s out s';
    cbn [resample_loop].
  - intros [= <- <-]. lia.
  - intros Hr. bind_ok Hr. destruct a as [offset' index'].
    bind_ok Hr. bind_ok Hr. destruct a0 as [c s1].
    apply IH in Hr. rewrite length_app in Hr. cbn in Hr. lia.
Qed.

Lemma resample_length (fuel : nat) (ps : list P) (ws : list R) (start : nat)
    (random : nat → R) (s : St) (out : list P) (s' : St) :
  resample deepcopy fuel ps ws start random s = Ok (out, s') →
  length out = length ps.
Proof.
  unfold resample. intros Hr. bind_ok Hr. bind_ok Hr.
  by apply resample_loop_length in Hr.
Qed.

(** Termination, for a copy operation that succeeds on every particle of
    the list in every state satisfying an invariant it maintains. *)
Variable Inv : St → Prop.

Lemma resample_loop_terminates (ps : list P) (ws : list R) (mw : R)
    (random : nat → R) :
  (∀ p s, p ∈ ps → Inv s → ∃ c s', deepcopy p s = Ok (c, s') ∧ Inv s') →
  Forall (λ w, 0 < w) ws → length ws = length ps →
  ∀ (n i : nat) (offset : R) (index : nat) (new : list P) (s : St),
    (index < length ws)%nat → Inv s →
    ∃ fuel0 out s',
      (∀ fuel, (fuel0 ≤ fuel)%nat →
         resample_loop deepcopy fuel ps ws mw random n i offset index new s
           = Ok (out, s')) ∧
      length out = (length new + n)%nat ∧ Inv s'.
Proof.
  intros Hcopy Hpos Hlen.
  induction n as [|n IH]; intros i offset index new s Hi Hs.
  - exists 0%nat, new, s. split; [done|]. split; [lia|done].
  - destruct (wheel_terminates ws (offset + uniform 0 (2 * mw) (random i))
                index Hpos Hi) as (f1 & [offset' index'] & Hw & Hi').
    cbn [snd] in Hi'.
    destruct (lookup_lt_is_Some_2 ps index' ltac:(lia)) as [p Hp].
    destruct (Hcopy p s (list_elem_of_lookup_2 _ _ _ Hp) Hs) as (c & s1 & Hc & Hs1).
    destruct (IH (S i) offset' index' (new ++ [c]) s1 Hi' Hs1)
      as (f2 & out & s' & Hrest & Hout & Hs').
    exists (max f1 f2), out, s'. split; [|split; [|done]].
    + intros fuel Hfuel. cbn [resample_loop].
      rewrite Hw by lia. cbn [mbind result_bind].
      unfold py_index. rewrite Hp. cbn [mbind result_bind].
      rewrite Hc. cbn [mbind result_bind]. apply Hrest. lia.
    + rewrite Hout, length_app. cbn. lia.
Qed.

Lemma resample_terminates (ps : list P) (ws : list R) (start : nat)
    (random : nat → R) (s : St) :
  (∀ p s, p ∈ ps → Inv s → ∃ c s', deepcopy p s = Ok (c, s') ∧ Inv s') →
  ps ≠ [] → length ws = length ps → Forall (λ w, 0 < w) ws →
  (start < length ps)%nat → Inv s →
  ∃ fuel0 out s',
    (∀ fuel, (fuel0 ≤ fuel)%nat →
       resample deepcopy fuel ps ws start random s = Ok (out, s')) ∧
    length out = length ps ∧ Inv s'.
Proof.
  intros Hcopy Hne Hlen Hpos Hstart Hs. unfold resample.
  destruct ws as [|w ws]; [by destruct ps|].
  cbn [py_max mbind result_bind]. unfold randint_upto.
  destruct (decide (length ps = 0%nat)) as [H0|_];
    [by apply nil_length_inv in H0|].
  cbn [mbind result_bind].
  destruct (resample_loop_terminates ps (w :: ws) (list_max_from w ws) random
              Hcopy Hpos Hlen (length ps) 0 0 start [] s)
    as (f & out & s' & Hr & Hout & Hs'); [lia|done|].
  exists f, out, s'. done.
Qed.

End ResampleFacts.

(** ** The particle count across a filter cycle *)

Section ParticleCount.
Local Open Scope R_scope.

Lemma predict_loop_length (ps : list Particle) :
  ∀ (left right left_std right_std w : R) (normal : nat → R) (i : nat)
    (ps' : list Particle),
  predict_loop ps left right left_std right_std w normal i = Ok ps' →
  length ps' = length ps.
Proof.
  induction ps as [|p ps IH]; intros left right ls rs w normal i ps';
    cbn [predict_loop].
  - by intros [= <-].
  - intros Hp. bind_ok Hp. bind_ok Hp. injection Hp as <-.
    apply IH in E0. cbn. lia.
Qed.

Lemma predict_length (self : FastSLAM) (control : R * R) (normal : nat → R)
    (self1 : FastSLAM) :
  predict self control normal = Ok self1 →
  length (particles self1) = length (particles self).
Proof.
  unfold predict. intros Hp. bind_ok Hp. injection Hp as <-.
  by apply predict_loop_length in E.
Qed.

Lemma update_and_compute_weights_length (self : FastSLAM) (d : R)
    (cylinders : list (vec2 * vec2)) (self1 : FastSLAM) (weights : list R) :
  update_and_compute_weights self d cylinders = Ok (self1, weights) →
  length (particles self1) = length (particles self) ∧
  length weights = length (particles self).
Proof.
  unfold update_and_compute_weights. intros Hu. bind_ok Hu.
  destruct a as [ps ws]. injection Hu as <- <-.
  apply update_particles_spec in E as (new & -> & Hlen & Hall).
  split; [done|]. cbn [app]. symmetry. by eapply Forall2_length.
Qed.

Lemma deepcopy_value_total (ps : list Particle) :
  ∀ p s, p ∈ ps → True → ∃ c s', deepcopy_value p s = Ok (c, s') ∧ True.
Proof. intros p s _ _. by exists p, s. Qed.

(** C6, as the code has it: for a filter with at least one particle, a
    weight vector of the same length with positive entries, and a start
    index that [random.randint] can deliver, [resample] terminates and
    returns as many particles as the filter holds.  [predict] keeps the
    count, and a correction step whose weights are these terminates and
    keeps it as well. *)
Theorem resample_returns_N (self : FastSLAM) (weights : list R) (start : nat)
    (random : nat → R) :
  particles self ≠ [] →
  length weights = length (particles self) →
  Forall (λ w, 0 < w) weights →
  (start < length (particles self))%nat →
  (∃ fuel0 new,
     ∀ fuel, (fuel0 ≤ fuel)%nat →
       resample deepcopy_value fuel (particles self) weights start random ()
         = Ok (new, ()) ∧
       length new = length (particles self)) ∧
  (∀ control normal self1,
     predict self control normal = Ok self1 →
     length (particles self1) = length (particles self)) ∧
  (∀ self0 d cylinders,
     update_and_compute_weights self0 d cylinders = Ok (self, weights) →
     ∃ fuel0 self2,
       ∀ fuel, (fuel0 ≤ fuel)%nat →
         correct self0 d cylinders fuel start random = Ok self2 ∧
         length (particles self2) = length (particles self0)).
Proof.
  intros Hne Hlen Hpos Hstart.
  destruct (resample_terminates deepcopy_value (λ _, True) (particles self)
              weights start random () (deepcopy_value_total _) Hne Hlen Hpos
              Hstart I) as (f & out & [] & Hr & Hout & _).
  split; [|split].
  - exists f, out. intros fuel Hfuel. by rewrite Hr.
  - intros control normal self1. apply predict_length.
  - intros self0 d cylinders Hu. exists f, (set_particles self out).
    intros fuel Hfuel. unfold correct. rewrite Hu. cbn [mbind result_bind].
    rewrite Hr by done. cbn [mbind result_bind]. split; [done|].
    apply update_and_compute_weights_length in Hu as [Hl _].
    cbn [set_particles particles]. lia.
Qed.

Lemma resample_returns_N_witness :
  let weights := [1 * (1 / 10000)] in
  (∃ fuel0 new,
     ∀ fuel, (fuel0 ≤ fuel)%nat →
       resample deepcopy_value fuel (particles fs_one) weights 0 (λ _, 0) ()
         = Ok (new, ()) ∧
       length new = length (particles fs_one)) ∧
  (∀ control normal self1,
     predict fs_one control normal = Ok self1 →
     length (particles self1) = length (particles fs_one)) ∧
  (∀ self0 d cylinders,
     update_and_compute_weights self0 d cylinders = Ok (fs_one, weights) →
     ∃ fuel0 self2,
       ∀ fuel, (fuel0 ≤ fuel)%nat →
         correct self0 d cylinders fuel 0 (λ _, 0) = Ok self2 ∧
         length (particles self2) = length (particles self0)).
Proof.
  apply (resample_returns_N fs_one [1 * (1 / 10000)] 0 (λ _, 0)).
  - discriminate.
  - reflexivity.
  - constructor; [lra|constructor].
  - cbn. lia.
Defined.

(** C6 as stated fails for the filter without particles: the weight vector
    of length zero has only positive entries, and [resample] raises
    [ValueError] (the maximum of an empty list) instead of returning the
    empty list. *)
Lemma resample_empty_counterexample :
  length (@nil R) = length (@nil Particle) ∧
  Forall (λ w, (0 < w)%R) (@nil R) ∧
  ∀ fuel start random,
    resample (@deepcopy_value Particle) fuel [] [] start random ()
      = Raise ValueError.
Proof. split; [done|]. split; [constructor|]. reflexivity. Qed.

End ParticleCount.

(** ** Numerical failures *)

Section NumericalFailures.
Local Open Scope R_scope.

Lemma gauss_likelihood_singular (Ql : mat2) (dz : vec2) :
  det Ql = 0 → gauss_likelihood Ql dz = Raise ZeroDivisionError.
Proof.
  intros Hd. unfold gauss_likelihood. rewrite py_sqrt_ok by lra.
  cbn [mbind result_bind]. unfold py_div.
  destruct (Req_dec_T (2 * PI * sqrt (det Ql)) 0) as [_|Hn]; [done|].
  exfalso. apply Hn. rewrite Hd, sqrt_0. ring.
Qed.

Lemma update_particles_raise (ps1 : list Particle) :
  ∀ (p : Particle) (ps2 : list Particle) (cylinders : list (vec2 * vec2))
    (thr : R) (Qt : mat2) (d : R) (acc : list R) (e : exn),
  Forall (λ q, ∃ r, particle_weight q cylinders thr Qt d = Ok r) ps1 →
  particle_weight p cylinders thr Qt d = Raise e →
  update_particles (ps1 ++ p :: ps2) cylinders thr Qt d acc = Raise e.
Proof.
  induction ps1 as [|q ps1 IH]; intros p ps2 cylinders thr Qt d acc e Hok Hp;
    cbn [app update_particles].
  - by rewrite Hp.
  - apply Forall_cons in Hok as [[[q' w] Hq] Hok]. rewrite Hq.
    cbn [mbind result_bind]. by rewrite (IH _ _ _ _ _ _ _ _ Hok Hp).
Qed.

(** The landmark that was set up under zero measurement noise has a
    singular innovation covariance. *)
Lemma update_particle_noiseless (z zs : vec2) (thr : R) :
  update_particle (p_east Qt_zero) z zs 1 thr Qt_zero 0 = Raise ZeroDivisionError.
Proof.
  unfold update_particle, compute_correspondence_likelihoods.
  cbn [likelihoods_loop]. unfold wl_likelihood_of_correspondence.
  rewrite (delta_z_ok _ _ _ _ (1, 0)) by reflexivity. cbn [mbind result_bind].
  unfold H_Ql_jacobian_and_measurement_covariance_for_landmark, p_east.
  cbn [py_index lookup list_lookup landmark_positions landmark_covariances
       pose mbind result_bind].
  assert (Hx : (1, 0).1 - (0 + 0 * cos 0) = 1) by (cbn [fst]; ring).
  assert (Hy : (1, 0).2 - (0 + 0 * sin 0) = 0) by (cbn [snd]; ring).
  rewrite dh_dlandmark_ok; cbn zeta; rewrite Hx, Hy;
    replace (1 * 1 + 0 * 0) with 1 by ring; [|lra].
  rewrite sqrt_1. cbn [mbind result_bind].
  rewrite gauss_likelihood_singular; [done|].
  unfold det, mat_add, mat_mul, mat_T, eye2, Qt_zero, diag2.
  cbn [m00 m01 m10 m11]. field.
Qed.

End NumericalFailures.

(** ** Deep copies in the object store *)

Section ObjectStore.

Lemma alloc_fresh (h : gmap loc obj) (o : obj) :
  ((alloc h o).1 ∉ dom h) ∧ h ⊆ (alloc h o).2 ∧
  (alloc h o).2 !! (alloc h o).1 = Some o ∧
  dom (alloc h o).2 = {[(alloc h o).1]} ∪ dom h.
Proof.
  unfold alloc. cbn [fst snd]. pose proof (is_fresh (dom h)) as Hf.
  split; [exact Hf|]. split; [|split].
  - apply insert_subseteq. by apply not_elem_of_dom.
  - apply lookup_insert_eq.
  - apply dom_insert_L.
Qed.

Lemma read_leaf_mono (h h' : gmap loc obj) (x : loc) (d : list R) :
  h ⊆ h' → read_leaf h x = Some d → read_leaf h' x = Some d.
Proof.
  intros Hsub. unfold read_leaf. destruct (h !! x) as [o|] eqn:E; [|done].
  by rewrite (lookup_weaken _ _ _ _ E Hsub).
Qed.

Lemma read_items_mono (h h' : gmap loc obj) (items : list loc)
    (v : list (list R)) :
  h ⊆ h' → mapM (read_leaf h) items = Some v →
  mapM (read_leaf h') items = Some v.
Proof.
  intros Hsub Hm. apply mapM_Some. apply mapM_Some in Hm.
  eapply Forall2_impl; [exact Hm|]. intros x d. by apply read_leaf_mono.
Qed.

Lemma read_list_mono (h h' : gmap loc obj) (x : loc) (v : list (list R)) :
  h ⊆ h' → read_list h x = Some v → read_list h' x = Some v.
Proof.
  intros Hsub. unfold read_list. destruct (h !! x) as [o|] eqn:E; [|done].
  rewrite (lookup_weaken _ _ _ _ E Hsub). destruct o; try done.
  by apply read_items_mono.
Qed.

Lemma fresh_or_tuple_mono (h0 h h' : gmap loc obj) (z : loc) :
  h ⊆ h' → fresh_or_tuple h0 h z → fresh_or_tuple h0 h' z.
Proof.
  intros Hsub [Hd Ht]. split; [|exact Ht].
  by apply (subseteq_dom _ _ Hsub).
Qed.

(** A particle whose objects are all allocated keeps its footprint when the
    store grows. *)
Lemma footprint_mono (h h' : gmap loc obj) (x : loc) :
  h ⊆ h' → footprint h x ⊆ dom h → footprint h' x = footprint h x.
Proof.
  intros Hsub Hclosed. unfold footprint in *.
  destruct (h !! x) as [o|] eqn:E.
  - rewrite (lookup_weaken _ _ _ _ E Hsub). destruct o as [| | |a b c]; try done.
    assert (Hi : ∀ y, y ∈ dom h → items_of h' y = items_of h y).
    { intros y Hy. apply elem_of_dom in Hy as [oy Hy]. unfold items_of.
      by rewrite Hy, (lookup_weaken _ _ _ _ Hy Hsub). }
    rewrite !Hi by set_solver. done.
  - assert (x ∈ dom h) by set_solver.
    apply not_elem_of_dom in E. done.
Qed.

(** Reading a particle looks at its footprint only. *)
Lemma read_leaf_insert_ne (h : gmap loc obj) (l x : loc) (o : obj) :
  l ≠ x → read_leaf (<[l := o]> h) x = read_leaf h x.
Proof. intros Hne. unfold read_leaf. by rewrite lookup_insert_ne. Qed.

Lemma read_list_insert_ne (h : gmap loc obj) (l x : loc) (o : obj) :
  l ≠ x → l ∉ items_of h x →
  read_list (<[l := o]> h) x = read_list h x.
Proof.
  intros Hne Hitems. unfold read_list, items_of in *.
  rewrite lookup_insert_ne by done.
  destruct (h !! x) as [[| |items|]|]; try done.
  apply Forall_mapM_ext. apply Forall_forall. intros y Hy.
  apply read_leaf_insert_ne. intros ->. done.
Qed.

Lemma read_particle_frame (h : gmap loc obj) (l x : loc) (o : obj) :
  l ∉ footprint h x →
  read_particle (<[l := o]> h) x = read_particle h x.
Proof.
  unfold footprint, read_particle. intros Hl.
  destruct (h !! x) as [ox|] eqn:E.
  - destruct ox as [| | |a b c]; rewrite lookup_insert_ne by set_solver;
      rewrite E; try done.
    rewrite read_leaf_insert_ne by set_solver.
    rewrite !read_list_insert_ne by set_solver. done.
  - rewrite lookup_insert_ne by set_solver. by rewrite E.
Qed.

Lemma copy_inv_init (h : gmap loc obj) : copy_inv h (h, ∅).
Proof.
  split; cbn [fst snd]; try done.
  intros y ys Hy Hl. apply not_elem_of_dom in Hy. congruence.
Qed.

(** Allocating one more object, which is not a list unless its items are
    fresh objects or old tuples, and entering it in the memo. *)
Lemma copy_inv_alloc (h0 h : gmap loc obj) (m : gmap loc loc) (x : loc)
    (o : obj) :
  copy_inv h0 (h, m) →
  (∀ ys, o = OList ys → Forall (fresh_or_tuple h0 h) ys) →
  (∀ d, read_leaf h0 x = Some d → read_leaf (alloc h o).2 (alloc h o).1 = Some d) →
  (∀ v, read_list h0 x = Some v → read_list (alloc h o).2 (alloc h o).1 = Some v) →
  copy_inv h0 ((alloc h o).2, <[x := (alloc h o).1]> m).
Proof.
  intros [Hext Hmf Hml Hmls Hls] Ho Hrl Hrls. cbn [fst snd] in *.
  destruct (alloc_fresh h o) as (Hf & Hsub & Hy & Hdom).
  set (y := (alloc h o).1) in *. set (h' := (alloc h o).2) in *.
  split; cbn [fst snd].
  - by transitivity h.
  - intros x1 y1 [[<- <-]|[Hne Hx1]]%lookup_insert_Some.
    + split; [set_solver|]. intros Hy0. apply Hf.
      by apply (subseteq_dom _ _ Hext).
    + destruct (Hmf _ _ Hx1) as [Hd Hn]. split; [|done].
      by apply (subseteq_dom _ _ Hsub).
  - intros x1 y1 d [[<- <-]|[Hne Hx1]]%lookup_insert_Some Hr.
    + by apply Hrl.
    + eapply read_leaf_mono; [exact Hsub|]. by eapply Hml.
  - intros x1 y1 v [[<- <-]|[Hne Hx1]]%lookup_insert_Some Hr.
    + by apply Hrls.
    + eapply read_list_mono; [exact Hsub|]. by eapply Hmls.
  - intros y1 ys Hy1 Hl. destruct (decide (y1 = y)) as [->|Hne].
    + rewrite Hy in Hl. injection Hl as ->.
      eapply Forall_impl; [by apply Ho|]. intros z. by apply fresh_or_tuple_mono.
    + assert (Hl' : h !! y1 = Some (OList ys)).
      { unfold h', alloc in Hl. cbn [snd] in Hl.
        rewrite lookup_insert_ne in Hl; [done|].
        intros Heq. apply Hne. by rewrite <- Heq. }
      eapply Forall_impl; [by eapply Hls|]. intros z. by apply fresh_or_tuple_mono.
Qed.

Lemma deepcopy_leaf_spec (h0 : gmap loc obj) (x y : loc)
    (st st' : gmap loc obj * gmap loc loc) :
  copy_inv h0 st → deepcopy_leaf x st = Ok (y, st') →
  copy_inv h0 st' ∧ st.1 ⊆ st'.1 ∧ fresh_or_tuple h0 st'.1 y ∧
  (∀ d, read_leaf h0 x = Some d → read_leaf st'.1 y = Some d).
Proof.
  destruct st as [h m]. intros Hinv. pose proof Hinv as [Hext Hmf Hml Hmls Hls].
  cbn [fst snd] in *. unfold deepcopy_leaf. cbn [fst snd].
  destruct (h !! x) as [[data|data|items|a b c]|] eqn:Hx; try discriminate.
  - destruct (m !! x) as [y0|] eqn:Hm.
    + intros [= <- <-]. cbn [fst snd]. split; [done|]. split; [done|].
      destruct (Hmf _ _ Hm) as [Hd Hn]. split; [by split|].
      intros d. by apply Hml.
    + cbn zeta. intros Ha.
      assert (Hrl : ∀ d, read_leaf h0 x = Some d →
                      read_leaf (alloc h (OArray data)).2
                        (alloc h (OArray data)).1 = Some d).
      { intros d Hr. apply (read_leaf_mono _ _ _ _ Hext) in Hr.
        unfold read_leaf in Hr. rewrite Hx in Hr. injection Hr as <-.
        destruct (alloc_fresh h (OArray data)) as (_ & _ & Hy & _).
        unfold read_leaf. by rewrite Hy. }
      pose proof (copy_inv_alloc h0 h m x (OArray data) Hinv) as Hnew.
      destruct (alloc_fresh h (OArray data)) as (Hf & Hsub & Hy & Hdom).
      destruct (alloc h (OArray data)) as [y1 h1] eqn:Hal. cbn [fst snd] in *.
      injection Ha as <- <-. cbn [fst snd].
      split; [|split; [done|split; [|done]]].
      * apply Hnew; [done|done|].
        intros v Hr. apply (read_list_mono _ _ _ _ Hext) in Hr.
        unfold read_list in Hr. by rewrite Hx in Hr.
      * split; [set_solver|]. intros Hy0. exfalso. apply Hf.
        by apply (subseteq_dom _ _ Hext).
  - intros [= <- <-]. cbn [fst snd]. split; [done|]. split; [done|]. split.
    + split; [by eapply elem_of_dom_2|].
      intros [o Ho]%elem_of_dom. pose proof (lookup_weaken _ _ _ _ Ho Hext) as Ho'.
      rewrite Hx in Ho'. injection Ho' as <-. eauto.
    + intros d. by apply read_leaf_mono.
Qed.

Lemma deepcopy_items_spec (h0 : gmap loc obj) (items : list loc) :
  ∀ (ys : list loc) (st st' : gmap loc obj * gmap loc loc),
  copy_inv h0 st → deepcopy_items items st = Ok (ys, st') →
  copy_inv h0 st' ∧ st.1 ⊆ st'.1 ∧ Forall (fresh_or_tuple h0 st'.1) ys ∧
  (∀ v, mapM (read_leaf h0) items = Some v →
        mapM (read_leaf st'.1) ys = Some v).
Proof.
  induction items as [|x rest IH]; intros ys st st' Hinv; cbn [deepcopy_items].
  - intros [= <- <-]. split; [done|]. split; [done|]. split; [constructor|].
    done.
  - intros Hd. bind_ok Hd. destruct a as [y st1].
    apply (deepcopy_leaf_spec h0) in E as (Hinv1 & Hsub1 & Hy & Hry); [|done].
    bind_ok Hd. destruct a as [ys' st2]. injection Hd as <- <-.
    apply IH in E as (Hinv2 & Hsub2 & Hys & Hrys); [|done].
    split; [done|]. split; [by transitivity st1.1|]. split.
    + constructor; [|done]. by eapply fresh_or_tuple_mono.
    + intros v Hv. apply mapM_Some in Hv.
      apply Forall2_cons_inv_l in Hv as (d & v' & Hd & Hv' & ->).
      apply mapM_Some. constructor.
      * eapply read_leaf_mono; [exact Hsub2|]. by apply Hry.
      * apply mapM_Some. apply Hrys. by apply mapM_Some.
Qed.

Lemma copy_inv_items (h0 : gmap loc obj) (st : gmap loc obj * gmap loc loc)
    (y z : loc) :
  copy_inv h0 st → y ∉ dom h0 → z ∈ items_of st.1 y →
  fresh_or_tuple h0 st.1 z.
Proof.
  intros Hinv Hy. unfold items_of.
  destruct (st.1 !! y) as [[| |ys|]|] eqn:E; try (by intros ?%elem_of_nil).
  intros Hz. pose proof (ci_lists _ _ Hinv _ _ Hy E) as Hall.
  by apply (proj1 (Forall_forall _ _) Hall).
Qed.

Lemma deepcopy_list_spec (h0 : gmap loc obj) (x y : loc)
    (st st' : gmap loc obj * gmap loc loc) :
  copy_inv h0 st → deepcopy_list x st = Ok (y, st') →
  copy_inv h0 st' ∧ st.1 ⊆ st'.1 ∧ y ∈ dom st'.1 ∧ (y ∉ dom h0) ∧
  (∀ v, read_list h0 x = Some v → read_list st'.1 y = Some v).
Proof.
  destruct st as [h m]. intros Hinv. pose proof Hinv as [Hext Hmf Hml Hmls Hls].
  cbn [fst snd] in *. unfold deepcopy_list. cbn [fst snd].
  destruct (h !! x) as [[data|data|items|a b c]|] eqn:Hx; try discriminate.
  destruct (m !! x) as [y0|] eqn:Hm.
  - intros [= <- <-]. cbn [fst snd]. destruct (Hmf _ _ Hm) as [Hd Hn].
    split; [done|]. split; [done|]. split; [done|]. split; [done|].
    intros v. by apply Hmls.
  - intros Hd. bind_ok Hd. destruct a as [ys [h1 m1]].
    apply (deepcopy_items_spec h0) in E as (Hinv1 & Hsub1 & Hys & Hrys); [|done].
    cbn [fst snd] in *. pose proof (ci_ext _ _ Hinv1) as Hext1. cbn [fst] in Hext1.
    assert (Hrls : ∀ v, read_list h0 x = Some v →
                     read_list (alloc h1 (OList ys)).2
                       (alloc h1 (OList ys)).1 = Some v).
    { intros v Hr. unfold read_list in Hr.
      destruct (h0 !! x) as [o|] eqn:Hx0; [|done].
      pose proof (lookup_weaken _ _ _ _ Hx0 Hext) as Hx1. rewrite Hx in Hx1.
      injection Hx1 as <-. apply Hrys in Hr.
      destruct (alloc_fresh h1 (OList ys)) as (_ & Hsub & Hy & _).
      unfold read_list. rewrite Hy. by eapply read_items_mono. }
    pose proof (copy_inv_alloc h0 h1 m1 x (OList ys) Hinv1) as Hnew.
    destruct (alloc_fresh h1 (OList ys)) as (Hf & Hsub & Hy & Hdom).
    destruct (alloc h1 (OList ys)) as [y1 h2] eqn:Hal. cbn [fst snd] in *.
    injection Hd as <- <-. cbn [fst snd].
    split; [|split; [by transitivity h1|split; [set_solver|split; [|done]]]].
    + apply Hnew; [by intros ? [= <-]| |done].
      intros d Hr. apply (read_leaf_mono _ _ _ _ Hext) in Hr.
      unfold read_leaf in Hr. by rewrite Hx in Hr.
    + intros Hy0. apply Hf. by apply (subseteq_dom _ _ Hext1).
Qed.

(** One deep copy of a particle: the store grows, the copy is made of
    fresh objects and old tuples, and it reads like the original. *)
Lemma deepcopy_particle_spec (h h' : gmap loc obj) (x out : loc) :
  deepcopy_particle x h = Ok (out, h') →
  h ⊆ h' ∧ copied h h' out ∧
  (∀ v, read_particle h x = Some v → read_particle h' out = Some v).
Proof.
  unfold deepcopy_particle.
  destruct (h !! x) as [[data|data|items|a b c]|] eqn:Hx; try discriminate.
  intros Hd.
  bind_ok Hd. destruct a0 as [a' st1].
  apply (deepcopy_leaf_spec h) in E as (Hinv1 & Hsub1 & Ha & Hra);
    [|apply copy_inv_init].
  bind_ok Hd. destruct a0 as [b' st2].
  apply (deepcopy_list_spec h) in E as (Hinv2 & Hsub2 & Hb & Hbn & Hrb); [|done].
  bind_ok Hd. destruct a0 as [c' st3].
  apply (deepcopy_list_spec h) in E as (Hinv3 & Hsub3 & Hc & Hcn & Hrc); [|done].
  cbn [fst snd] in *.
  destruct (alloc_fresh st3.1 (OParticle a' b' c')) as (Hf & Hsub & Hy & Hdom).
  destruct (alloc st3.1 (OParticle a' b' c')) as [y1 h1] eqn:Hal.
  cbn [fst snd] in *. injection Hd as <- <-.
  assert (Hs13 : st1.1 ⊆ st3.1) by (by transitivity st2.1).
  assert (Hs03 : h ⊆ st3.1) by (by transitivity st1.1).
  assert (Hout : y1 ∉ dom h).
  { intros Hy0. apply Hf. by apply (subseteq_dom _ _ Hs03). }
  assert (Hit : ∀ y, y ∈ dom st3.1 → items_of h1 y = items_of st3.1 y).
  { intros y [o Ho]%elem_of_dom. unfold items_of.
    by rewrite Ho, (lookup_weaken _ _ _ _ Ho Hsub). }
  split; [by transitivity st3.1|]. split; [split; [done|]|].
  - unfold footprint. rewrite Hy. intros z Hz.
    rewrite !elem_of_union, !elem_of_singleton, !elem_of_list_to_set in Hz.
    destruct Hz as [[[[[->| ->]| ->]| ->]|Hz]|Hz].
    + split; [by eapply elem_of_dom_2|by intros ?].
    + eapply fresh_or_tuple_mono; [|exact Ha]. by transitivity st3.1.
    + split; [|by intros ?]. apply (subseteq_dom _ _ Hsub).
      by apply (subseteq_dom _ _ Hsub3).
    + split; [|by intros ?]. by apply (subseteq_dom _ _ Hsub).
    + rewrite Hit in Hz by (by apply (subseteq_dom _ _ Hsub3)).
      eapply fresh_or_tuple_mono; [exact Hsub|].
      by apply (copy_inv_items h st3 b').
    + rewrite Hit in Hz by done.
      eapply fresh_or_tuple_mono; [exact Hsub|].
      by apply (copy_inv_items h st3 c').
  - intros v Hv. unfold read_particle in *. rewrite Hx in Hv. rewrite Hy.
    destruct (read_leaf h a) as [pa|] eqn:Hpa; [|done]. cbn in Hv.
    destruct (read_list h b) as [lb|] eqn:Hlb; [|done]. cbn in Hv.
    destruct (read_list h c) as [lc|] eqn:Hlc; [|done]. cbn in Hv.
    injection Hv as <-.
    rewrite (read_leaf_mono st1.1 h1 a' pa) by (by transitivity st3.1 || by apply Hra).
    rewrite (read_list_mono st2.1 h1 b' lb)
      by (by transitivity st3.1 || by apply Hrb).
    rewrite (read_list_mono st3.1 h1 c' lc) by (done || by apply Hrc).
    done.
Qed.

Lemma read_leaf_dom (h : gmap loc obj) (x : loc) (d : list R) :
  read_leaf h x = Some d → x ∈ dom h.
Proof.
  unfold read_leaf. destruct (h !! x) eqn:E; [|done]. intros _.
  by eapply elem_of_dom_2.
Qed.

Lemma read_particle_closed (h : gmap loc obj) (x : loc)
    (v : list R * list (list R) * list (list R)) :
  read_particle h x = Some v → footprint h x ⊆ dom h.
Proof.
  unfold read_particle, footprint.
  destruct (h !! x) as [[| | |a b c]|] eqn:Hx; try done. intros Hv.
  destruct (read_leaf h a) as [pa|] eqn:Hpa; [|done]. cbn in Hv.
  destruct (read_list h b) as [lb|] eqn:Hlb; [|done]. cbn in Hv.
  destruct (read_list h c) as [lc|] eqn:Hlc; [|done].
  assert (Hl : ∀ y lv, read_list h y = Some lv →
                 y ∈ dom h ∧ ∀ z, z ∈ items_of h y → z ∈ dom h).
  { intros y lv. unfold read_list, items_of.
    destruct (h !! y) as [[| |items|]|] eqn:Hy; try done. intros Hm.
    split; [by eapply elem_of_dom_2|]. intros z Hz.
    apply mapM_Some in Hm. apply list_elem_of_lookup_1 in Hz as [k Hk].
    destruct (Forall2_lookup_l _ _ _ _ _ Hm Hk) as (d & _ & Hd).
    by eapply read_leaf_dom. }
  destruct (Hl _ _ Hlb) as [Hb Hbi]. destruct (Hl _ _ Hlc) as [Hc Hci].
  apply read_leaf_dom in Hpa. apply elem_of_dom_2 in Hx.
  intros z. rewrite !elem_of_union, !elem_of_singleton, !elem_of_list_to_set.
  intros [[[[[->| ->]| ->]| ->]|Hz]|Hz]; auto.
Qed.

Lemma read_particle_mono (h h' : gmap loc obj) (x : loc)
    (v : list R * list (list R) * list (list R)) :
  h ⊆ h' → read_particle h x = Some v → read_particle h' x = Some v.
Proof.
  intros Hsub. unfold read_particle.
  destruct (h !! x) as [o|] eqn:Hx; [|done].
  rewrite (lookup_weaken _ _ _ _ Hx Hsub). destruct o as [| | |a b c]; try done.
  destruct (read_leaf h a) as [pa|] eqn:Hpa; [|done]. cbn.
  destruct (read_list h b) as [lb|] eqn:Hlb; [|done]. cbn.
  destruct (read_list h c) as [lc|] eqn:Hlc; [|done]. cbn.
  rewrite (read_leaf_mono _ _ _ _ Hsub Hpa), (read_list_mono _ _ _ _ Hsub Hlb),
    (read_list_mono _ _ _ _ Hsub Hlc). done.
Qed.

Lemma tuple_not_mutable (h h' : gmap loc obj) (l : loc) (d : list R) :
  h ⊆ h' → h !! l = Some (OTuple d) → ¬ mutable h' l.
Proof.
  intros Hsub Hl Hm. unfold mutable in Hm.
  by rewrite (lookup_weaken _ _ _ _ Hl Hsub) in Hm.
Qed.

(** One more copy keeps the outputs separated. *)
Lemma separated_step (h0 h h1 : gmap loc obj) (outs : list loc) (c : loc) :
  h0 ⊆ h → h ⊆ h1 → separated h0 h outs → copied h h1 c →
  separated h0 h1 (outs ++ [c]).
Proof.
  intros H0 H1 [Hall Hpair] [Hc Hcf].
  assert (Hold : ∀ i o, outs !! i = Some o →
            footprint h1 o = footprint h o ∧ footprint h o ⊆ dom h).
  { intros i o Ho. destruct (Hall _ _ Ho) as [_ Hf].
    assert (footprint h o ⊆ dom h) by (intros z Hz; by apply Hf).
    split; [by apply footprint_mono|done]. }
  assert (Hnew : ∀ l, l ∈ footprint h1 c → l ∈ dom h → ¬ mutable h1 l).
  { intros l Hl Hd. destruct (Hcf _ Hl) as [_ Ht].
    destruct (Ht Hd) as [d Hd']. by eapply tuple_not_mutable. }
  split.
  - intros i o Ho. apply lookup_app_Some in Ho as [Ho|[_ Ho]].
    + destruct (Hall _ _ Ho) as [Hn Hf]. destruct (Hold _ _ Ho) as [-> _].
      split; [done|]. intros z Hz. eapply fresh_or_tuple_mono; [exact H1|].
      by apply Hf.
    + apply list_lookup_singleton_Some in Ho as [_ <-]. split.
      * intros Hd. apply Hc. by apply (subseteq_dom _ _ H0).
      * intros z Hz. destruct (Hcf _ Hz) as [Hd Ht]. split; [done|].
        intros [o Ho]%elem_of_dom. pose proof (lookup_weaken _ _ _ _ Ho H0) as Ho'.
        destruct (Ht (elem_of_dom_2 _ _ _ Ho')) as [d Hd']. exists d. congruence.
  - intros i j oi oj l Hij Hi Hj Hli Hlj.
    apply lookup_app_Some in Hi as [Hi|[Hilen Hi]];
      apply lookup_app_Some in Hj as [Hj|[Hjlen Hj]].
    + destruct (Hold _ _ Hi) as [Ei Ci]. destruct (Hold _ _ Hj) as [Ej Cj].
      rewrite Ei in Hli. rewrite Ej in Hlj.
      pose proof (Hpair _ _ _ _ _ Hij Hi Hj Hli Hlj) as Hnm.
      apply Ci, elem_of_dom in Hli as [o Ho]. unfold mutable in *.
      rewrite Ho in Hnm. rewrite (lookup_weaken _ _ _ _ Ho H1).
      by destruct o.
    + apply list_lookup_singleton_Some in Hj as [_ <-].
      destruct (Hold _ _ Hi) as [Ei Ci]. rewrite Ei in Hli.
      apply Hnew; [done|]. by apply Ci.
    + apply list_lookup_singleton_Some in Hi as [_ <-].
      destruct (Hold _ _ Hj) as [Ej Cj]. rewrite Ej in Hlj.
      apply Hnew; [done|]. by apply Cj.
    + apply list_lookup_singleton_Some in Hi as [Hi _].
      apply list_lookup_singleton_Some in Hj as [Hj _]. lia.
Qed.

Lemma resample_loop_separated (fuel : nat) (ps : list loc) (ws : list R)
    (mw : R) (random : nat → R) (h0 : gmap loc obj) (n : nat) :
  ∀ (i : nat) (offset : R) (index : nat) (new : list loc)
    (h : gmap loc obj) (outs : list loc) (h' : gmap loc obj),
  resample_loop deepcopy_particle fuel ps ws mw random n i offset index new h
    = Ok (outs, h') →
  h0 ⊆ h → separated h0 h new →
  Forall (λ o, ∃ src, src ∈ ps ∧
            ∀ v, read_particle h0 src = Some v → read_particle h o = Some v)
    new →
  h ⊆ h' ∧ separated h0 h' outs ∧
  Forall (λ o, ∃ src, src ∈ ps ∧
            ∀ v, read_particle h0 src = Some v → read_particle h' o = Some v)
    outs.
Proof.
  induction n as [|n IH]; intros i offset index new h outs h';
    cbn [resample_loop].
  - intros [= <- <-] H0 Hsep Hcp. done.
  - intros Hr H0 Hsep Hcp. bind_ok Hr. destruct a as [offset' index'].
    bind_ok Hr. apply py_index_ok in E0. bind_ok Hr. destruct a0 as [c h1].
    apply deepcopy_particle_spec in E1 as (H1 & Hc & Hrc).
    apply IH in Hr as (H2 & Hsep' & Hcp').
    + split; [by transitivity h1|done].
    + by transitivity h.
    + by eapply separated_step.
    + apply Forall_app. split.
      * eapply Forall_impl; [exact Hcp|]. intros o (src & Hsrc & Hv).
        exists src. split; [done|]. intros v Hv0.
        eapply read_particle_mono; [exact H1|]. by apply Hv.
      * constructor; [|constructor]. exists a. split.
        -- by eapply list_elem_of_lookup_2.
        -- intros v Hv0. apply Hrc. by eapply read_particle_mono.
Qed.

(** *** The object store refines the values

    Run on references, [resample] returns references that read as the
    values that [resample] returns when it is run on the values that the
    particles of the list read as. *)

Lemma resample_loop_refines (fuel : nat) (ps : list loc)
    (vs : list (list R * list (list R) * list (list R))) (ws : list R)
    (mw : R) (random : nat → R) (h0 : gmap loc obj) (n : nat) :
  Forall2 (λ p v, read_particle h0 p = Some v) ps vs →
  ∀ (i : nat) (offset : R) (index : nat) (new : list loc)
    (vnew : list (list R * list (list R) * list (list R)))
    (h : gmap loc obj) (outs : list loc) (h' : gmap loc obj),
  resample_loop deepcopy_particle fuel ps ws mw random n i offset index new h
    = Ok (outs, h') →
  h0 ⊆ h → Forall2 (λ o v, read_particle h o = Some v) new vnew →
  ∃ vouts,
    resample_loop deepcopy_value fuel vs ws mw random n i offset index vnew ()
      = Ok (vouts, ()) ∧
    Forall2 (λ o v, read_particle h' o = Some v) outs vouts.
Proof.
  intros Hps. induction n as [|n IH];
    intros i offset index new vnew h outs h'; cbn [resample_loop].
  - intros [= <- <-] _ Hnew. by exists vnew.
  - intros Hr H0 Hnew. bind_ok Hr. destruct a as [offset' index'].
    cbn [mbind result_bind].
    bind_ok Hr. apply py_index_ok in E0. bind_ok Hr. destruct a0 as [c h1].
    destruct (Forall2_lookup_l _ _ _ _ _ Hps E0) as (v & Hv & Hpv).
    unfold py_index at 1. rewrite Hv. cbn [mbind result_bind deepcopy_value].
    apply deepcopy_particle_spec in E1 as (H1 & _ & Hrc).
    apply (IH _ _ _ _ (vnew ++ [v])) in Hr as (vouts & Hvo & Hall).
    + by exists vouts.
    + by transitivity h.
    + apply Forall2_app.
      * eapply Forall2_impl; [exact Hnew|]. intros o w.
        by apply read_particle_mono.
      * constructor; [|constructor]. apply Hrc.
        by eapply read_particle_mono.
Qed.

(** X21: [resample] on the object store refines [resample] on values: if
    the references of the particle list read as the values [vs], then the
    references returned read, in the new store, as the values that
    [resample] returns for [vs] under the same weights and draws. *)
Lemma resample_store_refines (fuel : nat) (ps : list loc)
    (vs : list (list R * list (list R) * list (list R))) (ws : list R)
    (start : nat) (random : nat → R) (h h' : gmap loc obj)
    (outs : list loc) :
  Forall2 (λ p v, read_particle h p = Some v) ps vs →
  resample deepcopy_particle fuel ps ws start random h = Ok (outs, h') →
  ∃ vouts,
    resample deepcopy_value fuel vs ws start random () = Ok (vouts, ()) ∧
    Forall2 (λ o v, read_particle h' o = Some v) outs vouts.
Proof.
  intros Hps Hr. unfold resample in *. bind_ok Hr. bind_ok Hr.
  cbn [mbind result_bind]. rewrite <- (Forall2_length _ _ _ Hps), E0.
  cbn [mbind result_bind].
  by apply (resample_loop_refines _ _ _ _ _ _ h _ Hps _ _ _ [] []) in Hr.
Qed.

(** *** Copies succeed on well-formed particles *)

Lemma deepcopy_leaf_total (h0 : gmap loc obj) (x : loc) (d : list R)
    (st : gmap loc obj * gmap loc loc) :
  copy_inv h0 st → read_leaf h0 x = Some d →
  ∃ y st', deepcopy_leaf x st = Ok (y, st').
Proof.
  intros Hinv Hr. apply (read_leaf_mono _ _ _ _ (ci_ext _ _ Hinv)) in Hr.
  unfold read_leaf in Hr. unfold deepcopy_leaf.
  destruct (st.1 !! x) as [[data|data| |]|]; try done.
  - destruct (st.2 !! x); [eauto|].
    destruct (alloc st.1 (OArray data)). eauto.
  - eauto.
Qed.

Lemma deepcopy_items_total (h0 : gmap loc obj) (items : list loc) :
  ∀ (v : list (list R)) (st : gmap loc obj * gmap loc loc),
  copy_inv h0 st → mapM (read_leaf h0) items = Some v →
  ∃ ys st', deepcopy_items items st = Ok (ys, st').
Proof.
  induction items as [|x rest IH]; intros v st Hinv Hv; cbn [deepcopy_items].
  - eauto.
  - apply mapM_Some in Hv.
    apply Forall2_cons_inv_l in Hv as (d & v' & Hd & Hv' & ->).
    destruct (deepcopy_leaf_total h0 x d st Hinv Hd) as (y & st1 & Hy).
    rewrite Hy. cbn [mbind result_bind].
    apply (deepcopy_leaf_spec h0) in Hy as (Hinv1 & _); [|done].
    destruct (IH v' st1 Hinv1) as (ys & st2 & Hys); [by apply mapM_Some|].
    rewrite Hys. cbn [mbind result_bind]. eauto.
Qed.

Lemma deepcopy_list_total (h0 : gmap loc obj) (x : loc) (v : list (list R))
    (st : gmap loc obj * gmap loc loc) :
  copy_inv h0 st → read_list h0 x = Some v →
  ∃ y st', deepcopy_list x st = Ok (y, st').
Proof.
  intros Hinv Hr. unfold read_list in Hr. unfold deepcopy_list.
  destruct (h0 !! x) as [o|] eqn:Hx; [|done].
  rewrite (lookup_weaken _ _ _ _ Hx (ci_ext _ _ Hinv)).
  destruct o as [| |items|]; try done.
  destruct (st.2 !! x); [eauto|].
  destruct (deepcopy_items_total h0 items v st Hinv Hr) as (ys & st1 & Hys).
  rewrite Hys. cbn [mbind result_bind].
  destruct (alloc st1.1 (OList ys)). eauto.
Qed.

Lemma deepcopy_particle_total (h : gmap loc obj) (x : loc)
    (v : list R * list (list R) * list (list R)) :
  read_particle h x = Some v → ∃ out h', deepcopy_particle x h = Ok (out, h').
Proof.
  unfold read_particle, deepcopy_particle.
  destruct (h !! x) as [[| | |a b c]|]; try done. intros Hv.
  destruct (read_leaf h a) as [pa|] eqn:Hpa; [|done]. cbn in Hv.
  destruct (read_list h b) as [lb|] eqn:Hlb; [|done]. cbn in Hv.
  destruct (read_list h c) as [lc|] eqn:Hlc; [|done].
  destruct (deepcopy_leaf_total h a pa (h, ∅) (copy_inv_init h) Hpa)
    as (a' & st1 & Ha).
  rewrite Ha. cbn [mbind result_bind].
  apply (deepcopy_leaf_spec h) in Ha as (Hinv1 & _); [|apply copy_inv_init].
  destruct (deepcopy_list_total h b lb st1 Hinv1 Hlb) as (b' & st2 & Hb).
  rewrite Hb. cbn [mbind result_bind].
  apply (deepcopy_list_spec h) in Hb as (Hinv2 & _); [|done].
  destruct (deepcopy_list_total h c lc st2 Hinv2 Hlc) as (c' & st3 & Hc).
  rewrite Hc. cbn [mbind result_bind].
  destruct (alloc st3.1 (OParticle a' b' c')). eauto.
Qed.

(** At the object level too, [resample] terminates on a store in which
    the particles of the list are well formed. *)
Lemma resample_store_terminates (ps : list loc) (ws : list R) (start : nat)
    (random : nat → R) (h : gmap loc obj) :
  Forall (λ p, is_Some (read_particle h p)) ps →
  ps ≠ [] → length ws = length ps → Forall (λ w, (0 < w)%R) ws →
  (start < length ps)%nat →
  ∃ fuel0 outs h',
    ∀ fuel, (fuel0 ≤ fuel)%nat →
      resample deepcopy_particle fuel ps ws start random h = Ok (outs, h').
Proof.
  intros Hwf Hne Hlen Hpos Hstart.
  destruct (resample_terminates deepcopy_particle
              (λ h1, Forall (λ p, is_Some (read_particle h1 p)) ps)
              ps ws start random h) as (f & outs & h' & Hr & _); try done.
  - intros p h1 Hp Hall.
    destruct (proj1 (Forall_forall _ _) Hall p Hp) as [v Hv].
    destruct (deepcopy_particle_total h1 p v Hv) as (out & h2 & Hc).
    exists out, h2. split; [done|].
    apply deepcopy_particle_spec in Hc as (Hsub & _).
    eapply Forall_impl; [exact Hall|]. intros q [vq Hq].
    exists vq. by eapply read_particle_mono.
  - by exists f, outs, h'.
Qed.

(** C9: the particles that [resample] returns are new objects, made of new
    mutable objects throughout, each reading like a particle of the list;
    no mutable object of one output belongs to another output, so that
    replacing any mutable object of an output (its instance, one of its
    lists, its pose or a landmark array) leaves every other output as it
    reads, and the particles of the list as well.  Two outputs copied from
    the same source are no exception. *)
Theorem resample_outputs_independent (fuel : nat) (ps : list loc)
    (ws : list R) (start : nat) (random : nat → R) (h h' : gmap loc obj)
    (outs : list loc) :
  resample deepcopy_particle fuel ps ws start random h = Ok (outs, h') →
  h ⊆ h' ∧ length outs = length ps ∧
  (∀ i o, outs !! i = Some o →
     (o ∉ dom h) ∧
     (∀ l, l ∈ footprint h' o → mutable h' l → l ∉ dom h) ∧
     ∃ src, src ∈ ps ∧
            ∀ v, read_particle h src = Some v → read_particle h' o = Some v) ∧
  (∀ i j oi oj l, i ≠ j → outs !! i = Some oi → outs !! j = Some oj →
     l ∈ footprint h' oi → mutable h' l →
     (l ∉ footprint h' oj) ∧
     ∀ o, read_particle (<[l := o]> h') oj = read_particle h' oj) ∧
  (∀ i oi l src v o, outs !! i = Some oi →
     l ∈ footprint h' oi → mutable h' l →
     src ∈ ps → read_particle h src = Some v →
     read_particle (<[l := o]> h') src = Some v).
Proof.
  intros Hr. pose proof (resample_length _ _ _ _ _ _ _ _ _ Hr) as Hlen.
  unfold resample in Hr. bind_ok Hr. bind_ok Hr.
  apply (resample_loop_separated _ _ _ _ _ h) in Hr as (Hsub & [Hall Hpair] & Hcp);
    [|done|split; intros ??; by rewrite ?lookup_nil|constructor].
  split; [done|]. split; [done|]. split; [|split].
  - intros i o Ho. destruct (Hall _ _ Ho) as [Hn Hf]. split; [done|]. split.
    + intros l Hl Hm Hd. destruct (Hf _ Hl) as [_ Ht].
      destruct (Ht Hd) as [d Hd']. by eapply tuple_not_mutable.
    + by apply (proj1 (Forall_lookup _ _) Hcp i o).
  - intros i j oi oj l Hij Hi Hj Hl Hm.
    assert (Hnot : l ∉ footprint h' oj).
    { intros Hlj. by apply (Hpair _ _ _ _ _ Hij Hi Hj Hl Hlj). }
    split; [done|]. intros o. by apply read_particle_frame.
  - intros i oi l src v o Hi Hl Hm Hsrc Hv.
    rewrite read_particle_frame; [by eapply read_particle_mono|].
    intros Hls. destruct (Hall _ _ Hi) as [_ Hf].
    destruct (Hf _ Hl) as [_ Ht].
    pose proof (read_particle_closed _ _ _ Hv) as Hcl.
    rewrite (footprint_mono h h') in Hls by done.
    destruct (Ht (Hcl _ Hls)) as [d Hd].
    by eapply tuple_not_mutable.
Qed.

Lemma store_aliased_well_formed :
  Forall (λ p, is_Some (read_particle store_aliased p)) [6; 7]%positive.
Proof. repeat constructor; eexists; vm_compute; reflexivity. Qed.

Lemma resample_outputs_independent_witness :
  let ps := [6; 7]%positive in
  ∃ fuel outs h',
    resample deepcopy_particle fuel ps [1; 1]%R 0 (λ _, 0%R) store_aliased
      = Ok (outs, h') ∧
    store_aliased ⊆ h' ∧ length outs = length ps ∧
    (∀ i o, outs !! i = Some o →
       (o ∉ dom store_aliased) ∧
       (∀ l, l ∈ footprint h' o → mutable h' l → l ∉ dom store_aliased) ∧
       ∃ src, src ∈ ps ∧
              ∀ v, read_particle store_aliased src = Some v →
                   read_particle h' o = Some v) ∧
    (∀ i j oi oj l, i ≠ j → outs !! i = Some oi → outs !! j = Some oj →
       l ∈ footprint h' oi → mutable h' l →
       (l ∉ footprint h' oj) ∧
       ∀ o, read_particle (<[l := o]> h') oj = read_particle h' oj) ∧
    (∀ i oi l src v o, outs !! i = Some oi →
       l ∈ footprint h' oi → mutable h' l →
       src ∈ ps → read_particle store_aliased src = Some v →
       read_particle (<[l := o]> h') src = Some v).
Proof.
  intros ps.
  destruct (resample_store_terminates ps [1; 1]%R 0 (λ _, 0%R) store_aliased)
    as (f & outs & h' & Hr).
  - exact store_aliased_well_formed.
  - discriminate.
  - reflexivity.
  - repeat constructor; lra.
  - cbn. lia.
  - exists f, outs, h'. split; [by apply Hr|].
    apply (resample_outputs_independent f ps [1; 1]%R 0 (λ _, 0%R)).
    by apply Hr.
Defined.

End ObjectStore.

(** * Further properties of the code *)

(** ** Wrapping angles *)

Section Wrapping.
Local Open Scope R_scope.

Lemma cos_sin_shift (x : R) (k : Z) :
  cos (x - IZR k * (2 * PI)) = cos x ∧ sin (x - IZR k * (2 * PI)) = sin x.
Proof.
  destruct (Z_le_gt_dec 0 k) as [Hk|Hk].
  - rewrite <- (Z2Nat.id k Hk), <- INR_IZR_INZ.
    set (n := Z.to_nat k). set (y := x - INR n * (2 * PI)).
    replace x with (y + 2 * INR n * PI) by (unfold y; ring).
    by rewrite cos_period, sin_period.
  - replace k with (- Z.of_nat (Z.to_nat (- k)))%Z by lia.
    rewrite opp_IZR, <- INR_IZR_INZ.
    set (n := Z.to_nat (- k)).
    replace (x - - INR n * (2 * PI)) with (x + 2 * INR n * PI) by ring.
    by rewrite cos_period, sin_period.
Qed.

(** The wrap [(a + pi) % (2*pi) - pi] changes an angle by a whole number of
    turns. *)
Lemma wrap_turns (a : R) :
  ∃ k : Z, py_mod (a + PI) (2 * PI) - PI = a - IZR k * (2 * PI).
Proof. exists (Int_part ((a + PI) / (2 * PI))). unfold py_mod. ring. Qed.

Lemma wrap_cos_sin (a : R) :
  cos (py_mod (a + PI) (2 * PI) - PI) = cos a ∧
  sin (py_mod (a + PI) (2 * PI) - PI) = sin a.
Proof. destruct (wrap_turns a) as [k ->]. apply cos_sin_shift. Qed.

Lemma Int_part_add_IZR (a : R) (k : Z) :
  Int_part (a + IZR k) = (Int_part a + k)%Z.
Proof.
  symmetry. apply Int_part_spec. rewrite plus_IZR.
  destruct (base_Int_part a). lra.
Qed.

Lemma py_mod_add_turns (a b : R) (k : Z) :
  b ≠ 0 → py_mod (a + IZR k * b) b = py_mod a b.
Proof.
  intros Hb. unfold py_mod.
  replace ((a + IZR k * b) / b) with (a / b + IZR k) by (field; exact Hb).
  rewrite Int_part_add_IZR, plus_IZR. ring.
Qed.

(** Wrapping is idempotent on sums: an angle that was wrapped before more is
    added wraps to the same value as the plain sum. *)
Lemma wrap_wrap_add (a b : R) :
  py_mod (py_mod (a + PI) (2 * PI) - PI + b + PI) (2 * PI)
  = py_mod (a + b + PI) (2 * PI).
Proof.
  destruct (wrap_turns a) as [k ->].
  replace (a - IZR k * (2 * PI) + b + PI)
    with (a + b + PI + IZR (- k) * (2 * PI)) by (rewrite opp_IZR; ring).
  apply py_mod_add_turns. pose proof PI_RGT_0. lra.
Qed.

End Wrapping.

(** ** The motion model: geometry and composition *)

Section MotionGeometry.
Local Open Scope R_scope.

Lemma g_arc_eq (x y theta l r w : R) :
  r ≠ l → w ≠ 0 →
  g (x, y, theta) (l, r) w =
    Ok (x + (l / ((r - l) / w) + w / 2) * (sin (theta + (r - l) / w) - sin theta),
        y + (l / ((r - l) / w) + w / 2) * (- cos (theta + (r - l) / w) + cos theta),
        py_mod (theta + (r - l) / w + PI) (2 * PI) - PI).
Proof.
  intros Hne Hw. unfold g. destruct (Rne_dec r l) as [_|Hn]; [|contradiction].
  rewrite py_div_ok by exact Hw. cbn [mbind result_bind].
  rewrite py_div_ok; [reflexivity|].
  intros H0. apply Hne.
  assert (H1 : (r - l) / w * w = 0) by (rewrite H0; lra).
  unfold Rdiv in H1. rewrite Rmult_assoc, Rinv_l, Rmult_1_r in H1 by exact Hw.
  lra.
Qed.

(** X1: an arc keeps the robot on the circle of radius [l/alpha + w/2]
    around the instantaneous centre of rotation, with the heading tangent to
    it: the new heading is [theta + alpha] up to whole turns, and the new
    position is the centre plus the radius turned by the new heading. *)
Theorem g_arc_on_circle (x y theta l r w : R) :
  r ≠ l → w ≠ 0 →
  let alpha := (r - l) / w in
  let rho := l / alpha + w / 2 in
  let cx := x - rho * sin theta in
  let cy := y + rho * cos theta in
  ∃ x' y' theta',
    g (x, y, theta) (l, r) w = Ok (x', y', theta') ∧
    cos theta' = cos (theta + alpha) ∧ sin theta' = sin (theta + alpha) ∧
    x' - cx = rho * sin theta' ∧ y' - cy = - rho * cos theta' ∧
    (x' - cx) * (x' - cx) + (y' - cy) * (y' - cy) = rho * rho.
Proof.
  intros Hne Hw alpha rho cx cy. rewrite g_arc_eq by done.
  fold alpha. fold rho. do 3 eexists. split; [reflexivity|].
  destruct (wrap_cos_sin (theta + alpha)) as [Hc Hs].
  rewrite Hc, Hs. unfold cx, cy.
  pose proof (sin2_cos2 (theta + alpha)) as H1. unfold Rsqr in H1.
  repeat split; try ring.
  replace (x + rho * (sin (theta + alpha) - sin theta) - (x - rho * sin theta))
    with (rho * sin (theta + alpha)) by ring.
  replace (y + rho * (- cos (theta + alpha) + cos theta) - (y + rho * cos theta))
    with (- (rho * cos (theta + alpha))) by ring.
  nra.
Qed.

Lemma g_arc_on_circle_witness :
  let alpha := (1 - 0) / 1 in
  let rho := 0 / alpha + 1 / 2 in
  let cx := 0 - rho * sin 0 in
  let cy := 0 + rho * cos 0 in
  ∃ x' y' theta',
    g (0, 0, 0) (0, 1) 1 = Ok (x', y', theta') ∧
    cos theta' = cos (0 + alpha) ∧ sin theta' = sin (0 + alpha) ∧
    x' - cx = rho * sin theta' ∧ y' - cy = - rho * cos theta' ∧
    (x' - cx) * (x' - cx) + (y' - cy) * (y' - cy) = rho * rho.
Proof. apply (g_arc_on_circle 0 0 0 0 1 1); lra. Defined.

(** X2: two arcs of the same curvature compose to the arc of the summed
    wheel distances, heading included: wrapping the heading in between
    loses nothing. *)
Theorem g_arcs_compose (x y theta l1 r1 l2 r2 w : R) :
  w ≠ 0 → r1 ≠ l1 → r2 ≠ l2 → r1 + r2 ≠ l1 + l2 →
  l1 * (r2 - l2) = l2 * (r1 - l1) →
  (s ← g (x, y, theta) (l1, r1) w; g s (l2, r2) w)
  = g (x, y, theta) (l1 + l2, r1 + r2) w.
Proof.
  intros Hw H1 H2 H12 Hcurv.
  rewrite (g_arc_eq x y theta l1 r1) by done. cbn [mbind result_bind].
  rewrite g_arc_eq by done. rewrite g_arc_eq by done.
  set (a1 := (r1 - l1) / w). set (a2 := (r2 - l2) / w).
  assert (Ha : (r1 + r2 - (l1 + l2)) / w = a1 + a2)
    by (unfold a1, a2; field; exact Hw).
  rewrite Ha.
  assert (Ha1 : a1 ≠ 0).
  { unfold a1. intros H0. apply H1.
    assert (H3 : (r1 - l1) / w * w = 0) by (rewrite H0; lra).
    unfold Rdiv in H3. rewrite Rmult_assoc, Rinv_l, Rmult_1_r in H3 by exact Hw.
    lra. }
  assert (Ha2 : a2 ≠ 0).
  { unfold a2. intros H0. apply H2.
    assert (H3 : (r2 - l2) / w * w = 0) by (rewrite H0; lra).
    unfold Rdiv in H3. rewrite Rmult_assoc, Rinv_l, Rmult_1_r in H3 by exact Hw.
    lra. }
  assert (Ha12 : a1 + a2 ≠ 0).
  { rewrite <- Ha. intros H0. apply H12.
    assert (H3 : (r1 + r2 - (l1 + l2)) / w * w = 0) by (rewrite H0; lra).
    unfold Rdiv in H3. rewrite Rmult_assoc, Rinv_l, Rmult_1_r in H3 by exact Hw.
    lra. }
  assert (Hc : l1 * a2 = l2 * a1).
  { unfold a1, a2. unfold Rdiv. rewrite <- !Rmult_assoc, Hcurv. ring. }
  assert (Hr2 : l2 / a2 = l1 / a1).
  { apply (Rmult_eq_reg_r (a1 * a2)); [|by apply Rmult_integral_contrapositive].
    replace (l2 / a2 * (a1 * a2)) with (l2 * a1) by (field; exact Ha2).
    replace (l1 / a1 * (a1 * a2)) with (l1 * a2) by (field; exact Ha1).
    by rewrite Hc. }
  assert (Hr : (l1 + l2) / (a1 + a2) = l1 / a1).
  { apply (Rmult_eq_reg_r (a1 * (a1 + a2)));
      [|by apply Rmult_integral_contrapositive].
    replace ((l1 + l2) / (a1 + a2) * (a1 * (a1 + a2))) with ((l1 + l2) * a1)
      by (field; exact Ha12).
    replace (l1 / a1 * (a1 * (a1 + a2))) with (l1 * (a1 + a2))
      by (field; exact Ha1).
    nra. }
  rewrite Hr2, Hr. set (rho := l1 / a1 + w / 2).
  set (t1 := py_mod (theta + a1 + PI) (2 * PI) - PI).
  destruct (wrap_cos_sin (theta + a1)) as [Hcos Hsin]. fold t1 in Hcos, Hsin.
  assert (Hs2 : sin (t1 + a2) = sin (theta + (a1 + a2))).
  { rewrite <- Rplus_assoc, !(sin_plus _ a2), Hcos, Hsin. ring. }
  assert (Hc2 : cos (t1 + a2) = cos (theta + (a1 + a2))).
  { rewrite <- Rplus_assoc, !(cos_plus _ a2), Hcos, Hsin. ring. }
  rewrite Hs2, Hc2, Hsin, Hcos. unfold t1. rewrite wrap_wrap_add.
  replace (theta + a1 + a2) with (theta + (a1 + a2)) by ring.
  f_equal. f_equal. f_equal; ring.
Qed.

Lemma g_arcs_compose_witness :
  (s ← g (0, 0, 0) (1, 2) 1; g s (2, 4) 1) = g (0, 0, 0) (1 + 2, 2 + 4) 1.
Proof. apply (g_arcs_compose 0 0 0 1 2 2 4 1); lra. Defined.

End MotionGeometry.

(** ** Prediction *)

Section Prediction.
Local Open Scope R_scope.

Lemma move_frame (p p' : Particle) (l r w : R) :
  move p l r w = Ok p' →
  g (pose p) (l, r) w = Ok (pose p') ∧
  landmark_positions p' = landmark_positions p ∧
  landmark_covariances p' = landmark_covariances p.
Proof.
  unfold move. intros Hm. bind_ok Hm. injection Hm as <-. done.
Qed.

Lemma predict_loop_frame (ps : list Particle) :
  ∀ (left right left_std right_std w : R) (normal : nat → R) (i : nat)
    (ps' : list Particle),
  predict_loop ps left right left_std right_std w normal i = Ok ps' →
  Forall2 (λ p p',
      (∃ l r, g (pose p) (l, r) w = Ok (pose p')) ∧
      landmark_positions p' = landmark_positions p ∧
      landmark_covariances p' = landmark_covariances p) ps ps'.
Proof.
  induction ps as [|p ps IH]; intros left right ls rs w normal i ps';
    cbn [predict_loop].
  - intros [= <-]. constructor.
  - intros Hp. bind_ok Hp. bind_ok Hp. injection Hp as <-.
    apply move_frame in E as (Hg & Hl & Hc). apply IH in E0.
    constructor; [|done]. eauto.
Qed.

(** X3: [predict] changes poses only: every particle keeps its map, its
    new pose is what [g] makes of the old one for some pair of wheel
    distances, and the filter constants stay. *)
Theorem predict_frame (self self' : FastSLAM) (control : R * R)
    (normal : nat → R) :
  predict self control normal = Ok self' →
  set_particles self' (particles self) = self ∧
  Forall2 (λ p p',
      (∃ l r, g (pose p) (l, r) (robot_width self) = Ok (pose p')) ∧
      landmark_positions p' = landmark_positions p ∧
      landmark_covariances p' = landmark_covariances p)
    (particles self) (particles self').
Proof.
  unfold predict. intros Hp. bind_ok Hp. injection Hp as <-.
  split; [by destruct self|]. cbn [particles set_particles].
  by eapply predict_loop_frame.
Qed.

Lemma predict_loop_noiseless (ps : list Particle) :
  ∀ (left right w : R) (normal : nat → R) (i : nat),
  predict_loop ps left right 0 0 w normal i = move_all ps left right w.
Proof.
  induction ps as [|p ps IH]; intros left right w normal i;
    cbn [predict_loop move_all]; [done|].
  unfold gauss.
  replace (left + normal (2 * i)%nat * 0) with left by ring.
  replace (right + normal (2 * i + 1)%nat * 0) with right by ring.
  by rewrite IH.
Qed.

Lemma predict_fs_one (normal : nat → R) :
  predict fs_one (50, 50) normal = Ok (set_particles fs_one [p_ahead]).
Proof.
  unfold predict, fs_one.
  cbn [particles control_motion_factor control_turn_factor robot_width
       fst snd].
  replace ((0 * 50) ^ 2 + (0 * (50 - 50)) ^ 2) with 0 by ring.
  rewrite sqrt_0, predict_loop_noiseless. cbn [move_all].
  unfold move, g, p_origin. cbn [pose].
  destruct (Rne_dec 50 50) as [Hne|_]; [contradiction|reflexivity].
Qed.

Lemma predict_frame_witness :
  set_particles (set_particles fs_one [p_ahead]) (particles fs_one) = fs_one ∧
  Forall2 (λ p p',
      (∃ l r, g (pose p) (l, r) (robot_width fs_one) = Ok (pose p')) ∧
      landmark_positions p' = landmark_positions p ∧
      landmark_covariances p' = landmark_covariances p)
    (particles fs_one) (particles (set_particles fs_one [p_ahead])).
Proof.
  apply (predict_frame fs_one (set_particles fs_one [p_ahead]) (50, 50) (λ _, 1)).
  apply predict_fs_one.
Defined.

(** X4: with both motion-noise factors zero the draws of [random.gauss] do
    not matter: [predict] moves every particle by exactly the commanded
    wheel distances. *)
Theorem predict_noiseless (self : FastSLAM) (control : R * R)
    (normal : nat → R) :
  control_motion_factor self = 0 → control_turn_factor self = 0 →
  predict self control normal =
    (ps ← move_all (particles self) control.1 control.2 (robot_width self);
     Ok (set_particles self ps)).
Proof.
  intros Hm Ht. unfold predict. rewrite Hm, Ht.
  replace ((0 * control.1) ^ 2 + (0 * (control.1 - control.2)) ^ 2) with 0
    by ring.
  replace ((0 * control.2) ^ 2 + (0 * (control.1 - control.2)) ^ 2) with 0
    by ring.
  rewrite sqrt_0. by rewrite predict_loop_noiseless.
Qed.

Lemma predict_noiseless_witness :
  predict fs_one (50, 50) (λ _, 1) =
    (ps ← move_all (particles fs_one) (50, 50).1 (50, 50).2 (robot_width fs_one);
     Ok (set_particles fs_one ps)).
Proof. apply (predict_noiseless fs_one (50, 50) (λ _, 1)); reflexivity. Defined.

End Prediction.

(** ** The measurement model: geometry *)

Section MeasurementGeometry.
Local Open Scope R_scope.

Lemma atan_polar_pos (x y : R) :
  0 < x →
  sqrt (x * x + y * y) * cos (atan (y / x)) = x ∧
  sqrt (x * x + y * y) * sin (atan (y / x)) = y.
Proof.
  intros Hx. rewrite cos_atan, sin_atan.
  assert (H1 : 1 + (y / x)² = (x * x + y * y) / (x * x))
    by (unfold Rsqr; field; lra).
  rewrite H1, sqrt_div_alt by nra. rewrite (sqrt_square x) by lra.
  assert (0 < sqrt (x * x + y * y)) by (apply sqrt_lt_R0; nra).
  split; field; lra.
Qed.

Lemma atan_polar_neg (x y : R) :
  x < 0 →
  sqrt (x * x + y * y) * cos (atan (y / x)) = - x ∧
  sqrt (x * x + y * y) * sin (atan (y / x)) = - y.
Proof.
  intros Hx. destruct (atan_polar_pos (- x) (- y)) as [Hc Hs]; [lra|].
  replace (- x * - x + - y * - y) with (x * x + y * y) in * by ring.
  replace (- y / - x) with (y / x) in * by (field; lra).
  done.
Qed.

(** [atan2 y x] is the direction of the vector [(x, y)]. *)
Lemma atan2_polar (y x : R) :
  sqrt (x * x + y * y) * cos (atan2 y x) = x ∧
  sqrt (x * x + y * y) * sin (atan2 y x) = y.
Proof.
  unfold atan2. destruct (Rlt_dec 0 x) as [Hx|Hx].
  { by apply atan_polar_pos. }
  destruct (Rlt_dec x 0) as [Hx'|Hx'].
  { destruct (atan_polar_neg x y Hx') as [Hc Hs].
    destruct (Rle_dec 0 y) as [Hy|Hy].
    - rewrite neg_cos, neg_sin. split; lra.
    - rewrite cos_minus, sin_minus, cos_PI, sin_PI. split; lra. }
  assert (x = 0) as -> by lra.
  replace (0 * 0 + y * y) with (y * y) by ring.
  destruct (Rlt_dec 0 y) as [Hy|Hy].
  { rewrite cos_PI2, sin_PI2, sqrt_square by lra. split; ring. }
  destruct (Rlt_dec y 0) as [Hy'|Hy'].
  { rewrite cos_neg, sin_neg, cos_PI2, sin_PI2.
    replace (y * y) with (- y * - y) by ring. rewrite sqrt_square by lra.
    split; ring. }
  assert (y = 0) as -> by lra.
  replace (0 * 0) with 0 by ring. rewrite sqrt_0. split; ring.
Qed.

(** X5: the measurement [h] predicts, read as polar coordinates in the
    scanner's frame, leads back to the landmark: the range is not negative,
    the bearing lies in [-pi, pi), and the landmark is the scanner position
    plus the range in the direction heading + bearing. *)
Theorem h_polar (x y theta : R) (landmark : vec2) (d : R) :
  let z := h (x, y, theta) landmark d in
  0 <= z.1 ∧ - PI <= z.2 < PI ∧
  landmark.1 = x + d * cos theta + z.1 * cos (theta + z.2) ∧
  landmark.2 = y + d * sin theta + z.1 * sin (theta + z.2).
Proof.
  intros z. split; [apply sqrt_pos|].
  split; [apply (h_bearing_range (x, y, theta))|].
  unfold z, h. cbn [fst snd].
  set (dx := landmark.1 - (x + d * cos theta)).
  set (dy := landmark.2 - (y + d * sin theta)).
  destruct (wrap_cos_sin (atan2 dy dx - theta)) as [Hc Hs].
  destruct (atan2_polar dy dx) as [Hx Hy].
  rewrite cos_plus, sin_plus, Hc, Hs.
  replace (cos theta * cos (atan2 dy dx - theta) -
           sin theta * sin (atan2 dy dx - theta))
    with (cos (theta + (atan2 dy dx - theta))) by (rewrite cos_plus; ring).
  replace (sin theta * cos (atan2 dy dx - theta) +
           cos theta * sin (atan2 dy dx - theta))
    with (sin (theta + (atan2 dy dx - theta))) by (rewrite sin_plus; ring).
  replace (theta + (atan2 dy dx - theta)) with (atan2 dy dx) by ring.
  rewrite Hx, Hy. unfold dx, dy. split; ring.
Qed.

End MeasurementGeometry.

(** ** The Jacobian and the innovation covariance *)

Section Covariances.
Local Open Scope R_scope.

Lemma scanner_distance2_nonneg (state : Pose) (landmark : vec2) (d : R) :
  0 <= scanner_distance2 state landmark d.
Proof.
  destruct state as [[sx sy] theta]. unfold scanner_distance2. cbv zeta.
  match goal with |- 0 <= ?a * ?a + ?b * ?b =>
    pose proof (Rle_0_sqr a); pose proof (Rle_0_sqr b) end.
  unfold Rsqr in *. lra.
Qed.

(** With the landmark at the scanner's own position the divisions of the
    Jacobian have a zero divisor: what they deliver is no matrix of real
    numbers, and the model ends. *)
Lemma dh_dlandmark_at_scanner (state : Pose) (landmark : vec2) (d : R) :
  scanner_distance2 state landmark d = 0 →
  dh_dlandmark state landmark d = NonFinite.
Proof.
  destruct state as [[sx sy] theta]. unfold scanner_distance2, dh_dlandmark.
  intros ->. rewrite sqrt_0. unfold np_div.
  destruct (Req_dec_T 0 0) as [_|Hn]; [reflexivity|contradiction].
Qed.

Lemma dh_dlandmark_returns (state : Pose) (landmark : vec2) (d : R) :
  scanner_distance2 state landmark d ≠ 0 →
  ∃ H, dh_dlandmark state landmark d = Ok H ∧
       det H = / sqrt (scanner_distance2 state landmark d) ∧ 0 < det H.
Proof.
  destruct state as [[sx sy] theta]. intros Hq.
  pose proof (scanner_distance2_nonneg (sx, sy, theta) landmark d) as Hq0.
  unfold scanner_distance2 in *.
  rewrite dh_dlandmark_ok by exact Hq. eexists. split; [reflexivity|].
  set (dx := landmark.1 - (sx + d * cos theta)) in *.
  set (dy := landmark.2 - (sy + d * sin theta)) in *.
  set (q := dx * dx + dy * dy) in *.
  assert (Hs : 0 < sqrt q) by (apply sqrt_lt_R0; lra).
  assert (Hd : det (Mat2 (dx / sqrt q) (dy / sqrt q) (- dy / q) (dx / q))
               = / sqrt q).
  { unfold det. cbn [m00 m01 m10 m11].
    replace (dx / sqrt q * (dx / q) - dy / sqrt q * (- dy / q))
      with ((dx * dx + dy * dy) / q * / sqrt q) by (field; lra).
    fold q. replace (q / q) with 1 by (field; lra). ring. }
  split; [exact Hd|]. rewrite Hd. by apply Rinv_0_lt_compat.
Qed.

Lemma inv_left_right (A : mat2) :
  det A ≠ 0 →
  ∃ A_inv, inv A = Ok A_inv ∧ mat_mul A A_inv = eye2 ∧ mat_mul A_inv A = eye2.
Proof.
  intros Hd. rewrite inv_ok by exact Hd. eexists. split; [reflexivity|].
  destruct A as [a b c e]. unfold det in *. cbn [m00 m01 m10 m11] in *.
  unfold mat_mul, eye2. cbn [m00 m01 m10 m11].
  split; f_equal; field; exact Hd.
Qed.

Lemma dh_east : dh_dlandmark (0, 0, 0) (1, 0) 0 = Ok eye2.
Proof.
  assert (Hx : (1, 0).1 - (0 + 0 * cos 0) = 1) by (cbn [fst]; ring).
  assert (Hy : (1, 0).2 - (0 + 0 * sin 0) = 0) by (cbn [snd]; ring).
  rewrite dh_dlandmark_ok; cbn zeta; rewrite Hx, Hy;
    replace (1 * 1 + 0 * 0) with 1 by ring; [|lra].
  rewrite sqrt_1. unfold eye2. do 2 f_equal; field.
Qed.

(** X6: for a landmark away from the scanner (q the squared distance, not
    zero) [dh_dlandmark] returns a Jacobian of determinant [1 / sqrt q],
    which is positive, and [np.linalg.inv] returns a two-sided inverse of
    it: inverting the Jacobian raises nothing. *)
Theorem dh_dlandmark_invertible (state : Pose) (landmark : vec2) (d : R) :
  scanner_distance2 state landmark d ≠ 0 →
  ∃ H H_inv,
    dh_dlandmark state landmark d = Ok H ∧
    det H = / sqrt (scanner_distance2 state landmark d) ∧ 0 < det H ∧
    inv H = Ok H_inv ∧ mat_mul H H_inv = eye2 ∧ mat_mul H_inv H = eye2.
Proof.
  intros Hq.
  destruct (dh_dlandmark_returns state landmark d Hq) as (H & HH & Hd & Hp).
  destruct (inv_left_right H) as (H_inv & Hinv & Hr & Hl); [lra|].
  exists H, H_inv. done.
Qed.

Lemma scanner_distance2_east : scanner_distance2 (0, 0, 0) (1, 0) 0 ≠ 0.
Proof.
  unfold scanner_distance2. cbn [fst snd].
  replace ((1 - (0 + 0 * cos 0)) * (1 - (0 + 0 * cos 0))
           + (0 - (0 + 0 * sin 0)) * (0 - (0 + 0 * sin 0))) with 1 by ring.
  lra.
Qed.

Lemma dh_dlandmark_invertible_witness :
  ∃ H H_inv,
    dh_dlandmark (0, 0, 0) (1, 0) 0 = Ok H ∧
    det H = / sqrt (scanner_distance2 (0, 0, 0) (1, 0) 0) ∧ 0 < det H ∧
    inv H = Ok H_inv ∧ mat_mul H H_inv = eye2 ∧ mat_mul H_inv H = eye2.
Proof.
  apply (dh_dlandmark_invertible (0, 0, 0) (1, 0) 0).
  exact scanner_distance2_east.
Defined.

(** A positive-semidefinite matrix has a non-negative quadratic form. *)
Lemma psd_form (s00 s01 s11 a b : R) :
  0 <= s00 → 0 <= s11 → 0 <= s00 * s11 - s01 * s01 →
  0 <= s00 * (a * a) + 2 * s01 * (a * b) + s11 * (b * b).
Proof.
  intros H0 H1 Hd.
  destruct (Req_dec_T s00 0) as [->|Hn].
  - assert (s01 = 0) as -> by nra. nra.
  - assert (Hp : 0 < s00) by lra.
    assert (0 <= s00 * (s00 * (a * a) + 2 * s01 * (a * b) + s11 * (b * b))).
    { replace (s00 * (s00 * (a * a) + 2 * s01 * (a * b) + s11 * (b * b)))
        with ((s00 * a + s01 * b) * (s00 * a + s01 * b)
              + (s00 * s11 - s01 * s01) * (b * b)) by ring.
      pose proof (Rle_0_sqr (s00 * a + s01 * b)) as Q1.
      pose proof (Rle_0_sqr b) as Q2. unfold Rsqr in Q1, Q2.
      pose proof (Rmult_le_pos _ _ Hd Q2). lra. }
    set (F := s00 * (a * a) + 2 * s01 * (a * b) + s11 * (b * b)) in *.
    destruct (Rle_or_lt 0 F) as [HF|HF]; [exact HF|].
    exfalso. nra.
Qed.

Lemma spd_psd (A : mat2) : spd A → psd A.
Proof.
  destruct A as [a b c e]. unfold spd, psd, det. cbn [m00 m01 m10 m11].
  intros (-> & Ha & Hd). repeat split; try lra. nra.
Qed.

(** The innovation covariance [H Sigma H^T + Qt] for a diagonal [Qt]. *)
Lemma Ql_spd (H Sigma : mat2) (u v : R) :
  psd Sigma → 0 < u → 0 < v →
  let Ql := mat_add (mat_mul H (mat_mul Sigma (mat_T H))) (diag2 u v) in
  spd Ql ∧ u * v <= det Ql.
Proof.
  destruct H as [a b c e], Sigma as [s00 s01 s10 s11].
  unfold psd, spd, det. cbn [m00 m01 m10 m11].
  intros (-> & H0 & H1 & Hd) Hu Hv.
  unfold mat_add, mat_mul, mat_T, diag2. cbn [m00 m01 m10 m11].
  pose proof (psd_form s00 s10 s11 a b H0 H1 Hd) as F1.
  pose proof (psd_form s00 s10 s11 c e H0 H1 Hd) as F2.
  assert (Hdet :
    (a * (s00 * a + s10 * b) + b * (s10 * a + s11 * b) + u) *
    (c * (s00 * c + s10 * e) + e * (s10 * c + s11 * e) + v) -
    (a * (s00 * c + s10 * e) + b * (s10 * c + s11 * e) + 0) *
    (c * (s00 * a + s10 * b) + e * (s10 * a + s11 * b) + 0)
    = (a * e - b * c) * (a * e - b * c) * (s00 * s11 - s10 * s10)
      + u * (s00 * (c * c) + 2 * s10 * (c * e) + s11 * (e * e))
      + v * (s00 * (a * a) + 2 * s10 * (a * b) + s11 * (b * b))
      + u * v) by ring.
  rewrite Hdet.
  assert (0 <= (a * e - b * c) * (a * e - b * c) * (s00 * s11 - s10 * s10))
    by (apply Rmult_le_pos; [apply (Rle_0_sqr (a * e - b * c))|lra]).
  assert (0 <= u * (s00 * (c * c) + 2 * s10 * (c * e) + s11 * (e * e)))
    by (apply Rmult_le_pos; lra).
  assert (0 <= v * (s00 * (a * a) + 2 * s10 * (a * b) + s11 * (b * b)))
    by (apply Rmult_le_pos; lra).
  assert (0 < u * v) by (apply Rmult_lt_0_compat; lra).
  repeat split; lra.
Qed.

Lemma psd_eye2 : psd eye2.
Proof. unfold psd, eye2, det. cbn [m00 m01 m10 m11]. repeat split; lra. Qed.

(** X7: with a diagonal measurement covariance of positive entries [u],
    [v] and a positive-semidefinite landmark covariance, the innovation
    covariance that is computed is symmetric positive-definite and its
    determinant is at least [u * v]. *)
Theorem innovation_covariance_spd (self : Particle) (k : nat) (u v d : R)
    (H Ql Sigma : mat2) :
  H_Ql_jacobian_and_measurement_covariance_for_landmark self k (diag2 u v) d
    = Ok (H, Ql) →
  landmark_covariances self !! k = Some Sigma →
  psd Sigma → 0 < u → 0 < v →
  spd Ql ∧ u * v <= det Ql.
Proof.
  intros HQ HS Hpsd Hu Hv.
  apply H_Ql_inv in HQ as (lm & Sigma' & _ & HS' & _ & ->).
  rewrite HS in HS'. injection HS' as <-. by apply Ql_spd.
Qed.

Lemma innovation_covariance_spd_witness :
  spd (Mat2 2 0 0 2) ∧ 1 * 1 <= det (Mat2 2 0 0 2).
Proof.
  apply (innovation_covariance_spd p_west 0 1 1 0 (Mat2 (-1) 0 0 (-1))
           (Mat2 2 0 0 2) eye2).
  - exact H_Ql_west.
  - reflexivity.
  - exact psd_eye2.
  - lra.
  - lra.
Defined.

End Covariances.

(** ** Bounds on the correspondence likelihood *)

Section LikelihoodBounds.
Local Open Scope R_scope.

Lemma exp_nonpos_le_1 (x : R) : x <= 0 → exp x <= 1.
Proof.
  intros [Hx| ->]; [|rewrite exp_0; lra].
  pose proof (exp_increasing x 0 Hx) as H. rewrite exp_0 in H. lra.
Qed.

(** The density never exceeds its value at innovation zero. *)
Lemma gauss_likelihood_le_peak (Ql : mat2) (dz : vec2) (wl : R) :
  spd Ql → gauss_likelihood Ql dz = Ok wl →
  0 < wl <= 1 / (2 * PI * sqrt (det Ql)).
Proof.
  intros Hspd Hg. pose proof (gauss_likelihood_pos _ _ _ Hg) as [Hd Hwl].
  split; [exact Hwl|].
  rewrite gauss_likelihood_ok in Hg by exact Hd. injection Hg as <-.
  pose proof (spd_m11_pos _ Hspd) as H11. destruct Hspd as (Hsym & H00 & _).
  set (F := m11 Ql * dz.1 * dz.1 - (m01 Ql + m10 Ql) * dz.1 * dz.2
            + m00 Ql * dz.2 * dz.2).
  assert (HF : 0 <= F).
  { pose proof (psd_form (m11 Ql) (- m01 Ql) (m00 Ql) dz.1 dz.2) as HP.
    unfold F. rewrite <- Hsym.
    replace (m11 Ql * dz.1 * dz.1 - (m01 Ql + m01 Ql) * dz.1 * dz.2
             + m00 Ql * dz.2 * dz.2)
      with (m11 Ql * (dz.1 * dz.1) + 2 * - m01 Ql * (dz.1 * dz.2)
            + m00 Ql * (dz.2 * dz.2)) by ring.
    apply HP; [lra|lra|]. unfold det in Hd. rewrite <- Hsym in Hd. lra. }
  assert (Hexp : exp (- F / (2 * det Ql)) <= 1).
  { apply exp_nonpos_le_1.
    assert (0 < / (2 * det Ql)) by (apply Rinv_0_lt_compat; lra).
    assert (0 <= F * / (2 * det Ql)) by (apply Rmult_le_pos; lra).
    unfold Rdiv. lra. }
  pose proof (sqrt_lt_R0 _ Hd) as Hs. pose proof PI_RGT_0 as Hpi.
  assert (Hc : 0 < 1 / (2 * PI * sqrt (det Ql)))
    by (apply Rdiv_lt_0_compat; nra).
  pose proof (exp_pos (- F / (2 * det Ql))). nra.
Qed.

Lemma peak_antitone (a b : R) :
  0 < a → a <= b → 1 / (2 * PI * sqrt b) <= 1 / (2 * PI * sqrt a).
Proof.
  intros Ha Hab. pose proof PI_RGT_0 as Hpi.
  pose proof (sqrt_lt_R0 _ Ha) as Hsa.
  pose proof (sqrt_le_1_alt _ _ Hab) as Hsab.
  unfold Rdiv. rewrite !Rmult_1_l.
  apply Rinv_le_contravar; nra.
Qed.

Lemma wl_likelihood_le (self : Particle) (z : vec2) (k : nat) (u v d wl : R) :
  wl_likelihood_of_correspondence self z k (diag2 u v) d = Ok wl →
  Forall psd (landmark_covariances self) → 0 < u → 0 < v →
  0 < wl <= 1 / (2 * PI * sqrt (u * v)).
Proof.
  unfold wl_likelihood_of_correspondence. intros Hw Hall Hu Hv.
  bind_ok Hw. bind_ok Hw. destruct a0 as [H Ql].
  apply H_Ql_inv in E0 as (lm & Sigma & _ & HS & _ & ->).
  pose proof (Forall_lookup_1 _ _ _ _ Hall HS) as Hpsd.
  destruct (Ql_spd H Sigma u v Hpsd Hu Hv) as [Hspd Hdet].
  destruct (gauss_likelihood_le_peak _ _ _ Hspd Hw) as [Hpos Hle].
  split; [exact Hpos|].
  eapply Rle_trans; [exact Hle|].
  apply peak_antitone; [|exact Hdet]. by apply Rmult_lt_0_compat.
Qed.

(** X8: with a diagonal measurement covariance of positive entries [u],
    [v] and positive-semidefinite landmark covariances, the list that
    [compute_correspondence_likelihoods] returns holds one likelihood per
    candidate, each in (0, 1 / (2 pi sqrt(u v))], and so does its maximum. *)
Theorem likelihoods_bounded (self : Particle) (z : vec2) (N : nat)
    (u v d : R) (ls : list R) :
  compute_correspondence_likelihoods self z N (diag2 u v) d = Ok ls →
  Forall psd (landmark_covariances self) → 0 < u → 0 < v →
  length ls = N ∧
  Forall (λ wl, 0 < wl <= 1 / (2 * PI * sqrt (u * v))) ls ∧
  ∀ m, py_max ls = Ok m → 0 < m <= 1 / (2 * PI * sqrt (u * v)).
Proof.
  intros Hls Hall Hu Hv.
  apply compute_correspondence_likelihoods_spec in Hls as (Hlen & Hwl & _).
  assert (HF : Forall (λ wl, 0 < wl <= 1 / (2 * PI * sqrt (u * v))) ls).
  { apply Forall_lookup_2. intros k wl Hk. apply Hwl in Hk.
    by eapply wl_likelihood_le. }
  split; [exact Hlen|]. split; [exact HF|].
  intros m Hm. apply py_max_spec in Hm as [Hin _].
  by apply (proj1 (Forall_forall _ _) HF).
Qed.

Lemma likelihoods_bounded_witness :
  length [wl_west_value] = 1%nat ∧
  Forall (λ wl, 0 < wl <= 1 / (2 * PI * sqrt (1 * 1))) [wl_west_value] ∧
  ∀ m, py_max [wl_west_value] = Ok m → 0 < m <= 1 / (2 * PI * sqrt (1 * 1)).
Proof.
  apply (likelihoods_bounded p_west (1, 3) 1 1 1 0 [wl_west_value]).
  - exact likelihoods_west.
  - constructor; [exact psd_eye2|constructor].
  - lra.
  - lra.
Defined.

(** Setting up a landmark one unit ahead of a particle at the origin. *)
Lemma init_ahead (lps : list vec2) (lcs : list mat2) (Qt : mat2) :
  initialize_new_landmark (mkParticle (0, 0, 0) lps lcs) (1, 0) Qt 0 =
    Ok (mkParticle (0, 0, 0) (lps ++ [(1, 0)])
          (lcs ++ [mat_mul (mat_mul eye2 Qt) (mat_T eye2)])).
Proof.
  unfold initialize_new_landmark.
  cbn [pose landmark_positions landmark_covariances].
  assert (Hlm : scanner_to_world (0 + cos 0 * 0, 0 + sin 0 * 0, 0) (1, 0) = (1, 0)).
  { unfold scanner_to_world. rewrite cos_0, sin_0. f_equal; ring. }
  rewrite Hlm, dh_east. cbn [mbind result_bind].
  rewrite inv_ok by (unfold det, eye2; cbn; lra).
  cbn [mbind result_bind].
  replace (Mat2 (m11 eye2 / det eye2) (- m01 eye2 / det eye2)
             (- m10 eye2 / det eye2) (m00 eye2 / det eye2)) with eye2
    by (unfold eye2, det; cbn; f_equal; field).
  reflexivity.
Qed.

Lemma wl_west_value_small : wl_west_value < 1 / (2 * PI * sqrt (1 * 1)) + 1.
Proof.
  destruct (wl_likelihood_le p_west (1, 3) 0 1 1 0 wl_west_value) as [_ H].
  - exact wl_west.
  - constructor; [exact psd_eye2|constructor].
  - lra.
  - lra.
  - lra.
Qed.

Lemma update_particle_west_new :
  update_particle p_west (1, 3) (1, 0) 1 (1 / (2 * PI * sqrt (1 * 1)) + 1)
    eye2 0 =
  Ok (mkParticle (0, 0, 0) ([(-1, 0)] ++ [(1, 0)])
        ([eye2] ++ [mat_mul (mat_mul eye2 eye2) (mat_T eye2)]),
      1 / (2 * PI * sqrt (1 * 1)) + 1).
Proof.
  unfold update_particle. rewrite likelihoods_west.
  cbn [mbind result_bind no_correspondence py_max list_max_from].
  destruct (Rlt_dec _ _) as [_|Hn]; [|destruct Hn; exact wl_west_value_small].
  unfold p_west. by rewrite init_ahead.
Qed.

(** X9: a threshold above [1 / (2 pi sqrt(u v))] is above every
    likelihood: every returning call of [update_particle] then sets up a
    new landmark and contributes the threshold, however many landmarks the
    particle has and however well the measurement fits one of them. *)
Theorem high_threshold_always_new (self : Particle) (z zs : vec2) (N : nat)
    (thr u v d : R) (self' : Particle) (c : R) :
  update_particle self z zs N thr (diag2 u v) d = Ok (self', c) →
  Forall psd (landmark_covariances self) → 0 < u → 0 < v →
  1 / (2 * PI * sqrt (u * v)) < thr →
  c = thr ∧ initialize_new_landmark self zs (diag2 u v) d = Ok self'.
Proof.
  intros Hup Hall Hu Hv Hthr.
  apply update_particle_inv in Hup as (ls & Hls & [(_ & Hi & ->)|Hold]);
    [done|].
  destruct Hold as (k & _ & [Hin Hmax] & Hge & _).
  apply compute_correspondence_likelihoods_spec in Hls as (_ & Hwl & _).
  apply list_elem_of_lookup_1 in Hin as [j Hj].
  apply Hwl in Hj.
  destruct (wl_likelihood_le _ _ _ _ _ _ _ Hj Hall Hu Hv) as [_ Hle].
  lra.
Qed.

Lemma high_threshold_always_new_witness :
  1 / (2 * PI * sqrt (1 * 1)) + 1 = 1 / (2 * PI * sqrt (1 * 1)) + 1 ∧
  initialize_new_landmark p_west (1, 0) (diag2 1 1) 0 =
    Ok (mkParticle (0, 0, 0) ([(-1, 0)] ++ [(1, 0)])
          ([eye2] ++ [mat_mul (mat_mul eye2 (diag2 1 1)) (mat_T eye2)])).
Proof.
  apply (high_threshold_always_new p_west (1, 3) (1, 0) 1
           (1 / (2 * PI * sqrt (1 * 1)) + 1) 1 1 0).
  - exact update_particle_west_new.
  - constructor; [exact psd_eye2|constructor].
  - lra.
  - lra.
  - lra.
Defined.

End LikelihoodBounds.

(** ** Landmark initialisation and the EKF update *)

Section LandmarkCovariances.
Local Open Scope R_scope.

(** [A Qt A^T] for an invertible [A] and a diagonal [Qt]. *)
Lemma congruence_spd (A : mat2) (u v : R) :
  det A ≠ 0 → 0 < u → 0 < v →
  spd (mat_mul (mat_mul A (diag2 u v)) (mat_T A)) ∧
  det (mat_mul (mat_mul A (diag2 u v)) (mat_T A)) = det A * det A * (u * v).
Proof.
  destruct A as [a b c e]. unfold spd, det, mat_mul, mat_T, diag2.
  cbn [m00 m01 m10 m11]. intros Hd Hu Hv.
  assert (Hdd : 0 < (a * e - b * c) * (a * e - b * c)).
  { pose proof (Rle_0_sqr (a * e - b * c)) as Q. unfold Rsqr in Q.
    destruct Q as [Q|Q]; [exact Q|]. symmetry in Q.
    apply Rmult_integral in Q. tauto. }
  assert (Huv : 0 < u * v) by (apply Rmult_lt_0_compat; lra).
  assert (Hdet :
    ((a * u + b * 0) * a + (a * 0 + b * v) * b) *
    ((c * u + e * 0) * c + (c * 0 + e * v) * e) -
    ((a * u + b * 0) * c + (a * 0 + b * v) * e) *
    ((c * u + e * 0) * a + (c * 0 + e * v) * b)
    = (a * e - b * c) * (a * e - b * c) * (u * v)) by ring.
  split; [|exact Hdet]. rewrite Hdet. split; [ring|]. split.
  - assert (Hab : a ≠ 0 ∨ b ≠ 0).
    { destruct (Req_dec_T a 0) as [->|]; [|by left].
      destruct (Req_dec_T b 0) as [->|]; [|by right].
      exfalso. apply Hd. ring. }
    pose proof (Rle_0_sqr a) as Qa. pose proof (Rle_0_sqr b) as Qb.
    unfold Rsqr in Qa, Qb.
    replace ((a * u + b * 0) * a + (a * 0 + b * v) * b)
      with (u * (a * a) + v * (b * b)) by ring.
    destruct Hab as [Ha|Hb].
    + assert (0 < a * a).
      { destruct Qa as [Q|Q]; [exact Q|]. symmetry in Q.
        apply Rmult_integral in Q. tauto. }
      pose proof (Rmult_lt_0_compat _ _ Hu H).
      pose proof (Rmult_le_pos v (b * b)). lra.
    + assert (0 < b * b).
      { destruct Qb as [Q|Q]; [exact Q|]. symmetry in Q.
        apply Rmult_integral in Q. tauto. }
      pose proof (Rmult_lt_0_compat _ _ Hv H).
      pose proof (Rmult_le_pos u (a * a)). lra.
  - by apply Rmult_lt_0_compat.
Qed.

Lemma det_mul (A B : mat2) : det (mat_mul A B) = det A * det B.
Proof.
  destruct A as [a1 a2 a3 a4], B as [b1 b2 b3 b4]. unfold det, mat_mul. cbn [m00 m01 m10 m11]. ring. Qed.

Lemma mat_mul_assoc (A B C : mat2) :
  mat_mul (mat_mul A B) C = mat_mul A (mat_mul B C).
Proof.
  destruct A as [a1 a2 a3 a4], B as [b1 b2 b3 b4], C as [c1 c2 c3 c4].
  unfold mat_mul. cbn [m00 m01 m10 m11]. f_equal; ring.
Qed.

(** Sylvester's determinant identity for 2x2 matrices. *)
Lemma det_sylvester (X Y : mat2) :
  det (mat_sub eye2 (mat_mul X Y)) = det (mat_sub eye2 (mat_mul Y X)).
Proof.
  destruct X as [x1 x2 x3 x4], Y as [y1 y2 y3 y4]. unfold det, mat_sub, mat_mul, eye2. cbn [m00 m01 m10 m11].
  ring.
Qed.

Lemma mat_sub_inverse (A P Qt : mat2) :
  mat_mul A (mat_add P Qt) = eye2 →
  mat_sub eye2 (mat_mul A P) = mat_mul A Qt.
Proof.
  intros <-. destruct A as [a1 a2 a3 a4], P as [p1 p2 p3 p4], Qt as [t1 t2 t3 t4].
  unfold mat_sub, mat_mul, mat_add.
  cbn [m00 m01 m10 m11]. f_equal; ring.
Qed.

(** The diagonal entry of [(I - K H) Sigma] in Joseph form. *)
Lemma joseph_m00 (H Sigma K : mat2) (u v : R) :
  m01 Sigma = m10 Sigma →
  mat_mul K (mat_add (mat_mul H (mat_mul Sigma (mat_T H))) (diag2 u v))
    = mat_mul Sigma (mat_T H) →
  let J := mat_sub eye2 (mat_mul K H) in
  m00 (mat_mul J Sigma) =
    m00 Sigma * (m00 J * m00 J) + 2 * m01 Sigma * (m00 J * m01 J)
    + m11 Sigma * (m01 J * m01 J)
    + (u * (m00 K * m00 K) + v * (m01 K * m01 K)).
Proof.
  intros Hsym HK J.
  assert (HJ : mat_mul J (mat_mul Sigma (mat_T H)) = mat_mul K (diag2 u v)).
  { set (X := mat_mul Sigma (mat_T H)) in *. clearbody X.
    transitivity (mat_sub X (mat_mul K (mat_mul H X))).
    - unfold J. destruct H as [a b c e], X as [x1 x2 x3 x4], K as [k1 k2 k3 k4].
      unfold mat_mul, mat_sub, eye2. cbn [m00 m01 m10 m11]. f_equal; ring.
    - rewrite <- HK at 1.
      destruct H as [a b c e], X as [x1 x2 x3 x4], K as [k1 k2 k3 k4].
      unfold mat_mul, mat_sub, mat_add, diag2. cbn [m00 m01 m10 m11].
      f_equal; ring. }
  assert (E : m00 (mat_mul J Sigma) =
              m00 (mat_mul (mat_mul J Sigma) (mat_T J))
              + m00 (mat_mul (mat_mul J (mat_mul Sigma (mat_T H))) (mat_T K))).
  { unfold J. destruct H as [a b c e], Sigma as [s t t' r], K as [k1 k2 k3 k4].
    unfold mat_mul, mat_sub, mat_T, eye2. cbn [m00 m01 m10 m11]. ring. }
  rewrite E, HJ.
  destruct J as [j1 j2 j3 j4], Sigma as [s t t' r], K as [k1 k2 k3 k4].
  cbn [m01 m10] in Hsym. subst t'.
  unfold mat_mul, mat_T, diag2. cbn [m00 m01 m10 m11]. ring.
Qed.

Lemma mat_mul_eye2_r (A : mat2) : mat_mul A eye2 = A.
Proof.
  destruct A as [a1 a2 a3 a4]. unfold mat_mul, eye2. cbn [m00 m01 m10 m11].
  f_equal; ring.
Qed.

Lemma kalman_sym (H Sigma A : mat2) :
  m01 Sigma = m10 Sigma → m01 A = m10 A →
  let K := mat_mul (mat_mul Sigma (mat_T H)) A in
  let Sigma' := mat_mul (mat_sub eye2 (mat_mul K H)) Sigma in
  m01 Sigma' = m10 Sigma'.
Proof.
  destruct H as [a b c e], Sigma as [s t t' r], A as [a1 a2 a3 a4].
  cbn [m01 m10]. intros -> ->.
  unfold mat_mul, mat_sub, mat_T, eye2. cbn [m00 m01 m10 m11]. ring.
Qed.

(** The covariance [(I - K H) Sigma] of the EKF update. *)
Lemma kalman_cov (H Sigma : mat2) (u v : R) :
  spd Sigma → 0 < u → 0 < v →
  let Ql := mat_add (mat_mul H (mat_mul Sigma (mat_T H))) (diag2 u v) in
  ∃ Ql_inv, inv Ql = Ok Ql_inv ∧
    let K := mat_mul (mat_mul Sigma (mat_T H)) Ql_inv in
    let Sigma' := mat_mul (mat_sub eye2 (mat_mul K H)) Sigma in
    spd Sigma' ∧ det Sigma' * det Ql = det Sigma * (u * v) ∧
    det Sigma' <= det Sigma.
Proof.
  intros Hspd Hu Hv Ql.
  destruct (Ql_spd H Sigma u v (spd_psd _ Hspd) Hu Hv) as [HQ HD].
  fold Ql in HQ, HD.
  assert (Huv : 0 < u * v) by (apply Rmult_lt_0_compat; lra).
  assert (HD0 : det Ql ≠ 0) by lra.
  destruct (inv_left_right Ql HD0) as (Qi & Hinv & _ & HQl).
  exists Qi. split; [exact Hinv|]. intros K Sigma'.
  assert (HQi : m01 Qi = m10 Qi).
  { rewrite inv_ok in Hinv by exact HD0. injection Hinv as <-.
    change (- m01 Ql / det Ql = - m10 Ql / det Ql).
    destruct HQ as [E _]. by rewrite E. }
  pose proof Hspd as (Hsym & H00 & Hdet).
  assert (HK : mat_mul K Ql = mat_mul Sigma (mat_T H)).
  { unfold K. by rewrite mat_mul_assoc, HQl, mat_mul_eye2_r. }
  assert (E2 : det Sigma' * det Ql = det Sigma * (u * v)).
  { unfold Sigma'. rewrite det_mul. unfold K.
    rewrite (mat_mul_assoc (mat_mul Sigma (mat_T H))), det_sylvester.
    rewrite mat_mul_assoc.
    rewrite (mat_sub_inverse Qi _ (diag2 u v)) by exact HQl.
    rewrite det_mul.
    assert (H1 : det Qi * det Ql = 1).
    { rewrite <- det_mul, HQl. unfold det, eye2. cbn [m00 m01 m10 m11]. ring. }
    assert (H2 : det (diag2 u v) = u * v)
      by (unfold det, diag2; cbn [m00 m01 m10 m11]; ring).
    rewrite H2.
    replace (det Qi * (u * v) * det Sigma * det Ql)
      with (det Qi * det Ql * (det Sigma * (u * v))) by ring.
    rewrite H1. ring. }
  assert (E1 : m01 Sigma' = m10 Sigma') by (by apply kalman_sym).
  assert (HDpos : 0 < det Ql) by lra.
  assert (Hdet' : 0 < det Sigma').
  { assert (0 < det Sigma' * det Ql)
      by (rewrite E2; apply Rmult_lt_0_compat; lra).
    destruct (Rle_or_lt (det Sigma') 0) as [Hle|Hlt]; [|exact Hlt].
    exfalso. nra. }
  assert (E3 : 0 <= m00 Sigma').
  { unfold Sigma'. rewrite (joseph_m00 H Sigma K u v Hsym HK).
    set (J := mat_sub eye2 (mat_mul K H)).
    destruct (spd_psd _ Hspd) as (_ & P0 & P1 & Pd). unfold det in Pd.
    rewrite <- Hsym in Pd.
    pose proof (psd_form _ _ _ (m00 J) (m01 J) P0 P1 Pd) as F.
    pose proof (Rle_0_sqr (m00 K)) as Q1. pose proof (Rle_0_sqr (m01 K)) as Q2.
    unfold Rsqr in Q1, Q2.
    pose proof (Rmult_le_pos u _ (Rlt_le _ _ Hu) Q1).
    pose proof (Rmult_le_pos v _ (Rlt_le _ _ Hv) Q2). lra. }
  split; [|split].
  - split; [exact E1|]. split; [|exact Hdet'].
    destruct E3 as [Hlt|Heq]; [exact Hlt|].
    exfalso. unfold det in Hdet'. rewrite <- Heq, <- E1 in Hdet'.
    pose proof (Rle_0_sqr (m01 Sigma')) as Q. unfold Rsqr in Q. lra.
  - exact E2.
  - assert (det Sigma' * det Ql <= det Sigma * det Ql).
    { rewrite E2. apply Rmult_le_compat_l; lra. }
    destruct (Rle_or_lt (det Sigma') (det Sigma)) as [Hle|Hlt]; [exact Hle|].
    exfalso. nra.
Qed.

End LandmarkCovariances.

(** ** Landmark initialisation and the EKF update, on particles *)

Section LandmarkUpdates.
Local Open Scope R_scope.

Lemma initialize_new_landmark_cov (self : Particle) (ms : vec2) (u v d : R)
    (self' : Particle) :
  initialize_new_landmark self ms (diag2 u v) d = Ok self' →
  0 < u → 0 < v →
  ∃ lm cov,
    self' = mkParticle (pose self) (landmark_positions self ++ [lm])
              (landmark_covariances self ++ [cov]) ∧
    0 < scanner_distance2 (pose self) lm d ∧
    spd cov ∧ det cov = u * v * scanner_distance2 (pose self) lm d.
Proof.
  intros Hi Hu Hv. unfold initialize_new_landmark in Hi.
  destruct (pose self) as [[x y] theta] eqn:Hpose.
  cbv zeta in Hi. set (lm := scanner_to_world _ ms) in Hi.
  bind_ok Hi. rename a into H.
  pose proof (scanner_distance2_nonneg (x, y, theta) lm d) as Hq0.
  destruct (Req_dec_T (scanner_distance2 (x, y, theta) lm d) 0) as [Hq|Hq].
  { rewrite dh_dlandmark_at_scanner in E by exact Hq. discriminate. }
  destruct (dh_dlandmark_returns _ _ _ Hq) as (H' & HH' & Hdet & Hpos).
  rewrite E in HH'. injection HH' as <-.
  assert (Hd0 : det H ≠ 0) by lra.
  rewrite inv_ok in Hi by exact Hd0. cbn [mbind result_bind] in Hi.
  injection Hi as <-. eexists lm, _. split; [reflexivity|].
  split; [lra|].
  set (q := scanner_distance2 (x, y, theta) lm d) in *.
  assert (Hs : 0 < sqrt q) by (apply sqrt_lt_R0; lra).
  set (A := Mat2 (m11 H / det H) (- m01 H / det H) (- m10 H / det H)
              (m00 H / det H)).
  assert (HdA : det A = / det H).
  { unfold A, det. cbn [m00 m01 m10 m11]. fold (det H).
    destruct H as [a b c e]. unfold det in *. cbn [m00 m01 m10 m11] in *.
    field. exact Hd0. }
  assert (HdA0 : det A ≠ 0) by (rewrite HdA; by apply Rinv_neq_0_compat).
  destruct (congruence_spd A u v HdA0 Hu Hv) as [Hspd HdetA].
  split; [exact Hspd|]. rewrite HdetA, HdA, Hdet.
  rewrite Rinv_inv. replace (sqrt q * sqrt q * (u * v)) with (u * v * (sqrt q * sqrt q)) by ring.
  rewrite sqrt_sqrt by lra. reflexivity.
Qed.

(** X10: with a diagonal measurement covariance of positive entries, a
    landmark that [initialize_new_landmark] sets up lies away from the
    scanner, and its covariance is symmetric positive-definite with
    determinant [u v q], [q] the squared distance between the scanner and
    the landmark: the further the landmark, the wider its first ellipse. *)
Theorem initialize_new_landmark_spd (self : Particle) (ms : vec2) (u v d : R)
    (self' : Particle) :
  initialize_new_landmark self ms (diag2 u v) d = Ok self' →
  0 < u → 0 < v →
  pose self' = pose self ∧
  ∃ lm cov,
    landmark_positions self' = landmark_positions self ++ [lm] ∧
    landmark_covariances self' = landmark_covariances self ++ [cov] ∧
    spd cov ∧ det cov = u * v * scanner_distance2 (pose self) lm d ∧
    0 < det cov.
Proof.
  intros Hi Hu Hv.
  destruct (initialize_new_landmark_cov _ _ _ _ _ _ Hi Hu Hv)
    as (lm & cov & -> & Hq & Hspd & Hdet).
  split; [reflexivity|]. exists lm, cov. cbn [landmark_positions landmark_covariances].
  repeat split; try done; try apply Hspd.
Qed.

Lemma initialize_new_landmark_spd_witness :
  pose (p_east (diag2 1 1)) = pose p_origin ∧
  ∃ lm cov,
    landmark_positions (p_east (diag2 1 1)) = landmark_positions p_origin ++ [lm] ∧
    landmark_covariances (p_east (diag2 1 1)) =
      landmark_covariances p_origin ++ [cov] ∧
    spd cov ∧ det cov = 1 * 1 * scanner_distance2 (pose p_origin) lm 0 ∧
    0 < det cov.
Proof.
  apply (initialize_new_landmark_spd p_origin (1, 0) 1 1 0 (p_east (diag2 1 1))).
  - exact (init_east (diag2 1 1)).
  - lra.
  - lra.
Defined.

(** What [update_landmark] returns for a landmark that exists, lies away
    from the scanner and has a positive-definite covariance. *)
Lemma update_landmark_returns (self : Particle) (k : nat) (z : vec2)
    (u v d : R) (lm : vec2) (Sigma : mat2) :
  landmark_positions self !! k = Some lm →
  landmark_covariances self !! k = Some Sigma →
  scanner_distance2 (pose self) lm d ≠ 0 →
  spd Sigma → 0 < u → 0 < v →
  ∃ H Ql_inv,
    dh_dlandmark (pose self) lm d = Ok H ∧
    inv (mat_add (mat_mul H (mat_mul Sigma (mat_T H))) (diag2 u v)) = Ok Ql_inv ∧
    let K := mat_mul (mat_mul Sigma (mat_T H)) Ql_inv in
    let Sigma' := mat_mul (mat_sub eye2 (mat_mul K H)) Sigma in
    update_landmark self k z (diag2 u v) d =
      Ok (mkParticle (pose self)
            (<[k := vec_add lm (mat_vec K (vec_sub z (h (pose self) lm d)))]>
               (landmark_positions self))
            (<[k := Sigma']> (landmark_covariances self))) ∧
    spd Sigma' ∧ det Sigma' <= det Sigma.
Proof.
  intros Hlm HS Hq Hspd Hu Hv.
  destruct (dh_dlandmark_returns _ _ _ Hq) as (H & HH & _).
  destruct (kalman_cov H Sigma u v Hspd Hu Hv) as (Ql_inv & Hinv & Hs' & _ & Hle).
  exists H, Ql_inv. split; [exact HH|]. split; [exact Hinv|].
  intros K Sigma'. split; [|split; [exact Hs'|exact Hle]].
  unfold update_landmark,
    H_Ql_jacobian_and_measurement_covariance_for_landmark.
  rewrite (proj2 (py_index_ok _ _ _) Hlm), (proj2 (py_index_ok _ _ _) HS).
  cbn [mbind result_bind]. rewrite HH. cbn [mbind result_bind].
  rewrite Hinv. cbn [mbind result_bind].
  rewrite (delta_z_ok _ _ _ _ _ Hlm). cbn [mbind result_bind].
  unfold py_setitem.
  apply lookup_lt_Some in Hlm. apply lookup_lt_Some in HS.
  destruct (decide (k < length (landmark_positions self))%nat); [|lia].
  cbn [mbind result_bind].
  destruct (decide (k < length (landmark_covariances self))%nat); [|lia].
  reflexivity.
Qed.

(** X11: the EKF update of an existing landmark that lies away from the
    scanner and has a symmetric positive-definite covariance returns; only
    entry [k] of the two lists changes, the new covariance is again
    symmetric positive-definite, and its determinant is not larger than
    before: an update never widens an error ellipse. *)
Theorem update_landmark_spd (self : Particle) (k : nat) (z : vec2)
    (u v d : R) (lm : vec2) (Sigma : mat2) :
  landmark_positions self !! k = Some lm →
  landmark_covariances self !! k = Some Sigma →
  scanner_distance2 (pose self) lm d ≠ 0 →
  spd Sigma → 0 < u → 0 < v →
  ∃ lm' Sigma',
    update_landmark self k z (diag2 u v) d =
      Ok (mkParticle (pose self) (<[k := lm']> (landmark_positions self))
            (<[k := Sigma']> (landmark_covariances self))) ∧
    spd Sigma' ∧ 0 < det Sigma' <= det Sigma.
Proof.
  intros Hlm HS Hq Hspd Hu Hv.
  destruct (update_landmark_returns self k z u v d lm Sigma Hlm HS Hq Hspd Hu Hv)
    as (H & Ql_inv & _ & _ & Hup & Hs' & Hle).
  eexists _, _. split; [exact Hup|]. split; [exact Hs'|].
  split; [apply Hs'|exact Hle].
Qed.

Lemma scanner_distance2_west : scanner_distance2 (0, 0, 0) (-1, 0) 0 ≠ 0.
Proof.
  unfold scanner_distance2. cbn [fst snd].
  replace ((-1 - (0 + 0 * cos 0)) * (-1 - (0 + 0 * cos 0))
           + (0 - (0 + 0 * sin 0)) * (0 - (0 + 0 * sin 0))) with 1 by ring.
  lra.
Qed.

Lemma update_landmark_spd_witness :
  ∃ lm' Sigma',
    update_landmark p_west 0 (1, 3) (diag2 1 1) 0 =
      Ok (mkParticle (pose p_west) (<[0%nat := lm']> (landmark_positions p_west))
            (<[0%nat := Sigma']> (landmark_covariances p_west))) ∧
    spd Sigma' ∧ 0 < det Sigma' <= det eye2.
Proof.
  apply (update_landmark_spd p_west 0 (1, 3) 1 1 0 (-1, 0) eye2).
  - reflexivity.
  - reflexivity.
  - exact scanner_distance2_west.
  - exact spd_eye2.
  - lra.
  - lra.
Defined.

(** X12: a measurement that equals the expected one leaves the landmark
    where it is: [update_landmark] returns the particle with the same
    positions, and only the covariance of landmark [k] replaced. *)
Theorem update_landmark_zero_innovation (self : Particle) (k : nat)
    (u v d : R) (lm : vec2) (Sigma : mat2) :
  landmark_positions self !! k = Some lm →
  landmark_covariances self !! k = Some Sigma →
  scanner_distance2 (pose self) lm d ≠ 0 →
  spd Sigma → 0 < u → 0 < v →
  ∃ Sigma',
    update_landmark self k (h (pose self) lm d) (diag2 u v) d =
      Ok (mkParticle (pose self) (landmark_positions self)
            (<[k := Sigma']> (landmark_covariances self))).
Proof.
  intros Hlm HS Hq Hspd Hu Hv.
  destruct (update_landmark_returns self k (h (pose self) lm d) u v d lm Sigma
              Hlm HS Hq Hspd Hu Hv) as (H & Ql_inv & _ & _ & Hup & _).
  eexists. rewrite Hup. do 2 f_equal.
  apply list_insert_id. rewrite Hlm. f_equal.
  destruct lm as [lx ly]. unfold vec_add, mat_vec, vec_sub. cbn [fst snd].
  f_equal; ring.
Qed.

Lemma update_landmark_zero_innovation_witness :
  ∃ Sigma',
    update_landmark p_west 0 (h (pose p_west) (-1, 0) 0) (diag2 1 1) 0 =
      Ok (mkParticle (pose p_west) (landmark_positions p_west)
            (<[0%nat := Sigma']> (landmark_covariances p_west))).
Proof.
  apply (update_landmark_zero_innovation p_west 0 1 1 0 (-1, 0) eye2).
  - reflexivity.
  - reflexivity.
  - exact scanner_distance2_west.
  - exact spd_eye2.
  - lra.
  - lra.
Defined.

End LandmarkUpdates.

(** ** Invariants of the correction of one particle *)

Section ParticleInvariants.
Local Open Scope R_scope.

Lemma wl_index_error (self : Particle) (z : vec2) (k : nat) (Qt : mat2) (d : R) :
  (number_of_landmarks self ≤ k)%nat →
  wl_likelihood_of_correspondence self z k Qt d = Raise IndexError.
Proof.
  intros Hk.
  unfold wl_likelihood_of_correspondence, delta_z,
    h_expected_measurement_for_landmark, py_index.
  by rewrite lookup_ge_None_2.
Qed.

Lemma likelihoods_loop_index_error (self : Particle) (z : vec2) (Qt : mat2)
    (d : R) (n : nat) :
  ∀ (i : nat) (acc : list R),
  (i ≤ number_of_landmarks self < i + n)%nat →
  (∀ k, (i ≤ k < number_of_landmarks self)%nat →
        ∃ wl, wl_likelihood_of_correspondence self z k Qt d = Ok wl) →
  likelihoods_loop self z Qt d n i acc = Raise IndexError.
Proof.
  induction n as [|n IH]; intros i acc Hi Hall; [lia|].
  cbn [likelihoods_loop].
  destruct (decide (i = number_of_landmarks self)) as [->|Hne].
  - by rewrite wl_index_error.
  - destruct (Hall i) as [wl ->]; [lia|]. cbn [mbind result_bind].
    apply IH; [lia|]. intros k Hk. apply Hall. lia.
Qed.

(** X13: asked for more candidates than the particle has landmarks,
    [compute_correspondence_likelihoods] runs off the end of the landmark
    list: once the likelihoods of the existing landmarks are computed, it
    raises [IndexError], and so does [update_particle]; no landmark is
    added or updated. *)
Theorem likelihoods_index_error (self : Particle) (z zs : vec2) (N : nat)
    (thr : R) (Qt : mat2) (d : R) :
  (number_of_landmarks self < N)%nat →
  (∀ k, (k < number_of_landmarks self)%nat →
        ∃ wl, wl_likelihood_of_correspondence self z k Qt d = Ok wl) →
  compute_correspondence_likelihoods self z N Qt d = Raise IndexError ∧
  update_particle self z zs N thr Qt d = Raise IndexError.
Proof.
  intros HN Hall.
  assert (E : compute_correspondence_likelihoods self z N Qt d = Raise IndexError).
  { apply likelihoods_loop_index_error; [lia|].
    intros k Hk. apply Hall. lia. }
  split; [exact E|]. unfold update_particle. by rewrite E.
Qed.

Lemma likelihoods_index_error_witness :
  compute_correspondence_likelihoods p_west (1, 3) 2 eye2 0 = Raise IndexError ∧
  update_particle p_west (1, 3) (1, 0) 2 1 eye2 0 = Raise IndexError.
Proof.
  apply (likelihoods_index_error p_west (1, 3) (1, 0) 2 1 eye2 0).
  - cbn. lia.
  - intros k Hk. assert (k = 0%nat) as -> by (cbn in Hk; lia).
    exists wl_west_value. exact wl_west.
Defined.

Lemma update_particle_well_formed (self : Particle) (z zs : vec2) (N : nat)
    (thr u v d : R) (self' : Particle) (c : R) :
  update_particle self z zs N thr (diag2 u v) d = Ok (self', c) →
  0 < u → 0 < v → well_formed self →
  well_formed self' ∧ pose self' = pose self ∧
  (number_of_landmarks self ≤ number_of_landmarks self'
     ≤ number_of_landmarks self + 1)%nat.
Proof.
  intros Hup Hu Hv [Hal Hall].
  apply update_particle_inv in Hup as (ls & _ & [(_ & Hi & _)|Hold]).
  - destruct (initialize_new_landmark_cov _ _ _ _ _ _ Hi Hu Hv)
      as (lm & cov & -> & _ & Hspd & _).
    unfold well_formed, aligned, number_of_landmarks in *.
    cbn [landmark_positions landmark_covariances pose].
    rewrite !length_app. cbn [length].
    split; [split; [lia|]|split; [done|lia]].
    apply Forall_app. split; [exact Hall|]. by constructor.
  - destruct Hold as (k & _ & _ & _ & _ & _ & Hu').
    apply update_landmark_inv in Hu'
      as (lm & Sigma & H & Ql_inv & Hlm & HS & HH & Hinv & ->).
    pose proof (Forall_lookup_1 _ _ _ _ Hall HS) as Hspd.
    destruct (kalman_cov H Sigma u v Hspd Hu Hv) as (Qi & Hinv' & Hs' & _).
    rewrite Hinv in Hinv'. injection Hinv' as <-.
    unfold well_formed, aligned, number_of_landmarks in *.
    cbn [landmark_positions landmark_covariances pose].
    rewrite !length_insert.
    split; [split; [lia|]|split; [done|lia]].
    by apply Forall_insert.
Qed.

Lemma update_observations_well_formed (cylinders : list (vec2 * vec2)) :
  ∀ (p : Particle) (N : nat) (thr u v d w0 : R) (p' : Particle) (w : R),
  update_observations p cylinders N thr (diag2 u v) d w0 = Ok (p', w) →
  0 < u → 0 < v → well_formed p →
  well_formed p' ∧ pose p' = pose p ∧
  (number_of_landmarks p ≤ number_of_landmarks p'
     ≤ number_of_landmarks p + length cylinders)%nat.
Proof.
  induction cylinders as [|[z zs] rest IH]; intros p N thr u v d w0 p' w;
    cbn [update_observations].
  - intros [= <- <-] _ _ Hwf. cbn [length]. split; [done|]. split; [done|lia].
  - intros Hup Hu Hv Hwf. bind_ok Hup. destruct a as [p1 c].
    destruct (update_particle_well_formed _ _ _ _ _ _ _ _ _ _ E Hu Hv Hwf)
      as (Hwf1 & Hp1 & Hn1).
    destruct (IH _ _ _ _ _ _ _ _ _ Hup Hu Hv Hwf1) as (Hwf' & Hp' & Hn').
    split; [done|]. split; [congruence|]. cbn [length]. lia.
Qed.

Lemma update_particles_frame (ps : list Particle) :
  ∀ (cylinders : list (vec2 * vec2)) (thr : R) (Qt : mat2) (d : R)
    (acc : list R) (ps' : list Particle) (ws : list R),
  update_particles ps cylinders thr Qt d acc = Ok (ps', ws) →
  Forall2 (λ p p', ∃ w, particle_weight p cylinders thr Qt d = Ok (p', w))
    ps ps'.
Proof.
  induction ps as [|p ps IH]; intros cylinders thr Qt d acc ps' ws;
    cbn [update_particles].
  - intros [= <- _]. constructor.
  - intros Hup. bind_ok Hup. destruct a as [p1 w1].
    bind_ok Hup. destruct a as [rest' ws']. injection Hup as <- _.
    constructor; [by exists w1|]. by eapply IH.
Qed.

Lemma sqr_pos (a : R) : a ≠ 0 → 0 < a ^ 2.
Proof.
  intros Ha. replace (a ^ 2) with (a * a) by ring.
  pose proof (Rle_0_sqr a) as [Q|Q]; unfold Rsqr in *; [exact Q|].
  symmetry in Q. apply Rmult_integral in Q. tauto.
Qed.

Lemma update_particles_well_formed (ps : list Particle) :
  ∀ (cylinders : list (vec2 * vec2)) (thr u v d : R) (acc : list R)
    (ps' : list Particle) (ws : list R),
  update_particles ps cylinders thr (diag2 u v) d acc = Ok (ps', ws) →
  0 < u → 0 < v → Forall well_formed ps →
  Forall2 (λ p p', well_formed p' ∧ pose p' = pose p ∧
      (number_of_landmarks p ≤ number_of_landmarks p'
         ≤ number_of_landmarks p + length cylinders)%nat) ps ps'.
Proof.
  intros cylinders thr u v d acc ps' ws Hup Hu Hv Hwf.
  apply update_particles_frame in Hup. revert Hwf.
  induction Hup as [|p p' l l' [w Hw] _ IH]; intros Hwf.
  - constructor.
  - apply Forall_cons in Hwf as [Hp Hl]. constructor; [|by apply IH].
    unfold particle_weight in Hw.
    by eapply update_observations_well_formed.
Qed.

(** X14: with non-zero measurement standard deviations, a returning
    [update_and_compute_weights] keeps the filter constants and every pose,
    keeps every particle well formed (parallel lists, symmetric
    positive-definite covariances), and lets the map of a particle grow by
    at most one landmark per cylinder of the scan. *)
Theorem update_and_compute_weights_invariant (self : FastSLAM) (d : R)
    (cylinders : list (vec2 * vec2)) (self' : FastSLAM) (weights : list R) :
  update_and_compute_weights self d cylinders = Ok (self', weights) →
  measurement_distance_stddev self ≠ 0 → measurement_angle_stddev self ≠ 0 →
  Forall well_formed (particles self) →
  set_particles self' (particles self) = self ∧
  Forall well_formed (particles self') ∧
  Forall2 (λ p p', pose p' = pose p ∧
      (number_of_landmarks p ≤ number_of_landmarks p'
         ≤ number_of_landmarks p + length cylinders)%nat)
    (particles self) (particles self').
Proof.
  unfold update_and_compute_weights. intros Hup Hd Ha Hwf.
  bind_ok Hup. destruct a as [ps ws]. injection Hup as <- <-.
  split; [by destruct self|]. cbn [particles set_particles].
  pose proof (update_particles_well_formed _ _ _ _ _ _ _ _ _ E
                (sqr_pos _ Hd) (sqr_pos _ Ha) Hwf) as HF.
  split.
  - clear -HF. induction HF as [|???? (H1 & _) _ IH]; by constructor.
  - eapply Forall2_impl; [exact HF|]. by intros ?? (_ & ? & ?).
Qed.

Lemma p_origin_well_formed : well_formed p_origin.
Proof. split; [reflexivity|constructor]. Qed.

Lemma update_and_compute_weights_invariant_witness :
  let self' := set_particles fs_one [p_east (diag2 (1 ^ 2) (1 ^ 2))] in
  set_particles self' (particles fs_one) = fs_one ∧
  Forall well_formed (particles self') ∧
  Forall2 (λ p p', pose p' = pose p ∧
      (number_of_landmarks p ≤ number_of_landmarks p'
         ≤ number_of_landmarks p + length scan_one)%nat)
    (particles fs_one) (particles self').
Proof.
  apply (update_and_compute_weights_invariant fs_one 0 scan_one
           (set_particles fs_one [p_east (diag2 (1 ^ 2) (1 ^ 2))])
           [1 * (1 / 10000)]).
  - exact weights_fs_one.
  - cbn. lra.
  - cbn. lra.
  - constructor; [exact p_origin_well_formed|constructor].
Defined.

End ParticleInvariants.

(** ** When the correction of one particle returns *)

Section Failures.
Local Open Scope R_scope.

(** The likelihood of a landmark that lies away from the scanner and has a
    positive-definite covariance is computed. *)
Lemma wl_returns (self : Particle) (z : vec2) (k : nat) (u v d : R)
    (lm : vec2) :
  well_formed self → landmark_positions self !! k = Some lm →
  scanner_distance2 (pose self) lm d ≠ 0 → 0 < u → 0 < v →
  ∃ wl, wl_likelihood_of_correspondence self z k (diag2 u v) d = Ok wl.
Proof.
  intros [Hal Hall] Hlm Hq Hu Hv.
  pose proof (lookup_lt_Some _ _ _ Hlm) as Hk.
  assert (Hk' : (k < length (landmark_covariances self))%nat)
    by (unfold aligned in Hal; lia).
  destruct (lookup_lt_is_Some_2 (landmark_covariances self) k Hk') as [Sigma HS].
  unfold wl_likelihood_of_correspondence,
    H_Ql_jacobian_and_measurement_covariance_for_landmark.
  rewrite (delta_z_ok _ _ _ _ _ Hlm), (proj2 (py_index_ok _ _ _) Hlm).
  cbn [mbind result_bind].
  destruct (dh_dlandmark_returns _ _ _ Hq) as (H & -> & _).
  cbn [mbind result_bind]. rewrite (proj2 (py_index_ok _ _ _) HS).
  cbn [mbind result_bind].
  pose proof (Forall_lookup_1 _ _ _ _ Hall HS) as Hspd.
  destruct (Ql_spd H Sigma u v (spd_psd _ Hspd) Hu Hv) as [[_ [_ Hd]] _].
  rewrite gauss_likelihood_ok by exact Hd. eauto.
Qed.

Lemma likelihoods_loop_returns (self : Particle) (z : vec2) (Qt : mat2)
    (d : R) (n : nat) :
  ∀ (i : nat) (acc : list R),
  (∀ k, (i ≤ k < i + n)%nat →
        ∃ wl, wl_likelihood_of_correspondence self z k Qt d = Ok wl) →
  ∃ ls, likelihoods_loop self z Qt d n i acc = Ok ls.
Proof.
  induction n as [|n IH]; intros i acc Hall; cbn [likelihoods_loop]; [eauto|].
  destruct (Hall i) as [wl ->]; [lia|]. cbn [mbind result_bind].
  apply IH. intros k Hk. apply Hall. lia.
Qed.

(** What [initialize_new_landmark] returns for a measurement that puts the
    new landmark away from the scanner. *)
Lemma initialize_new_landmark_returns (self : Particle) (zs : vec2)
    (Qt : mat2) (d : R) :
  let lm := new_landmark_position self zs d in
  scanner_distance2 (pose self) lm d ≠ 0 →
  ∃ H H_inv,
    dh_dlandmark (pose self) lm d = Ok H ∧ inv H = Ok H_inv ∧
    initialize_new_landmark self zs Qt d =
      Ok (mkParticle (pose self) (landmark_positions self ++ [lm])
            (landmark_covariances self ++
               [mat_mul (mat_mul H_inv Qt) (mat_T H_inv)])).
Proof.
  intros lm Hq.
  destruct (dh_dlandmark_returns _ _ _ Hq) as (H & HH & _ & Hd).
  destruct (inv_left_right H) as (H_inv & Hinv & _); [lra|].
  exists H, H_inv. split; [exact HH|]. split; [exact Hinv|].
  unfold initialize_new_landmark. unfold lm, new_landmark_position in HH.
  destruct (pose self) as [[x y] theta] eqn:Hpose. cbv zeta.
  rewrite HH. cbn [mbind result_bind]. rewrite Hinv. cbn [mbind result_bind].
  unfold lm, new_landmark_position. rewrite Hpose. reflexivity.
Qed.

(** A landmark whose likelihood was computed can be updated: the innovation
    covariance is invertible and both lists have the index. *)
Lemma update_landmark_after_likelihood (self : Particle) (z : vec2) (k : nat)
    (Qt : mat2) (d wl : R) :
  wl_likelihood_of_correspondence self z k Qt d = Ok wl →
  ∃ lm Sigma H Ql_inv,
    landmark_positions self !! k = Some lm ∧
    landmark_covariances self !! k = Some Sigma ∧
    dh_dlandmark (pose self) lm d = Ok H ∧
    inv (mat_add (mat_mul H (mat_mul Sigma (mat_T H))) Qt) = Ok Ql_inv ∧
    let K := mat_mul (mat_mul Sigma (mat_T H)) Ql_inv in
    update_landmark self k z Qt d =
      Ok (mkParticle (pose self)
            (<[k := vec_add lm (mat_vec K (vec_sub z (h (pose self) lm d)))]>
               (landmark_positions self))
            (<[k := mat_mul (mat_sub eye2 (mat_mul K H)) Sigma]>
               (landmark_covariances self))).
Proof.
  unfold wl_likelihood_of_correspondence. intros Hw.
  bind_ok Hw. bind_ok Hw. destruct a0 as [H Ql].
  pose proof E0 as HQ.
  apply H_Ql_inv in E0 as (lm & Sigma & Hlm & HS & HH & ->).
  apply gauss_likelihood_pos in Hw as [Hd _].
  destruct (inv_left_right _ (Rgt_not_eq _ _ Hd)) as (Ql_inv & Hinv & _).
  exists lm, Sigma, H, Ql_inv.
  split; [done|]. split; [done|]. split; [done|]. split; [done|]. cbv zeta.
  unfold update_landmark. rewrite HQ. cbn [mbind result_bind].
  rewrite (proj2 (py_index_ok _ _ _) HS). cbn [mbind result_bind].
  rewrite Hinv. cbn [mbind result_bind].
  rewrite (proj2 (py_index_ok _ _ _) Hlm). cbn [mbind result_bind].
  rewrite (delta_z_ok _ _ _ _ _ Hlm). cbn [mbind result_bind].
  unfold py_setitem.
  apply lookup_lt_Some in Hlm. apply lookup_lt_Some in HS.
  destruct (decide (k < length (landmark_positions self))%nat); [|lia].
  cbn [mbind result_bind].
  destruct (decide (k < length (landmark_covariances self))%nat); [|lia].
  reflexivity.
Qed.

(** Once the likelihoods are computed, [update_particle] returns whenever a
    new landmark, if one is to be set up, is away from the scanner: the
    update of an existing landmark cannot fail. *)
Lemma update_particle_after_likelihoods (self : Particle) (z zs : vec2)
    (N : nat) (thr : R) (Qt : mat2) (d : R) (ls : list R) :
  compute_correspondence_likelihoods self z N Qt d = Ok ls →
  scanner_distance2 (pose self) (new_landmark_position self zs d) d ≠ 0 →
  ∃ r, update_particle self z zs N thr Qt d = Ok r.
Proof.
  intros Hls Hq.
  pose proof (compute_correspondence_likelihoods_spec _ _ _ _ _ _ Hls)
    as (Hlen & Hwl & Hpos).
  destruct (no_correspondence_spec ls thr) as (b & Hb & Hiff).
  unfold update_particle. rewrite Hls. cbn [mbind result_bind]. rewrite Hb.
  cbn [mbind result_bind]. destruct b.
  - destruct (initialize_new_landmark_returns self zs Qt d Hq)
      as (H & H_inv & _ & _ & ->).
    cbn [mbind result_bind]. eauto.
  - assert (Hne : ls ≠ []).
    { intros ->. by discriminate (proj2 Hiff (or_introl eq_refl)). }
    pose proof (argmax_loop_positive ls Hne Hpos) as Harg.
    destruct (argmax_loop ls 0 0 0) as [w k]. cbn [fst snd] in Harg.
    destruct Harg as [_ [Hk _]].
    destruct (update_landmark_after_likelihood _ _ _ _ _ _ (Hwl _ _ Hk))
      as (lm & Sigma & H & Ql_inv & _ & _ & _ & _ & Hup).
    cbv zeta in Hup. rewrite Hup. cbn [mbind result_bind]. eauto.
Qed.

(** X15: for a well-formed particle, a candidate count within its map, a
    diagonal measurement covariance of positive entries, every candidate
    landmark away from the scanner and the position of a new landmark away
    from the scanner as well, [update_particle] returns: it raises no
    [ZeroDivisionError], [ValueError], [LinAlgError] or [IndexError].  The
    particle it returns is well formed and the contribution is at least
    the threshold. *)
Theorem update_particle_returns (self : Particle) (z zs : vec2) (N : nat)
    (thr u v d : R) :
  well_formed self → (N ≤ number_of_landmarks self)%nat → 0 < u → 0 < v →
  (∀ k lm, (k < N)%nat → landmark_positions self !! k = Some lm →
           scanner_distance2 (pose self) lm d ≠ 0) →
  scanner_distance2 (pose self) (new_landmark_position self zs d) d ≠ 0 →
  ∃ self' c,
    update_particle self z zs N thr (diag2 u v) d = Ok (self', c) ∧
    well_formed self' ∧ thr <= c.
Proof.
  intros Hwf HN Hu Hv Haway Hnew.
  assert (Hall : ∀ k, (0 ≤ k < 0 + N)%nat →
            ∃ wl, wl_likelihood_of_correspondence self z k (diag2 u v) d
                    = Ok wl).
  { intros k Hk.
    destruct (lookup_lt_is_Some_2 (landmark_positions self) k) as [lm Hlm];
      [unfold number_of_landmarks in HN; lia|].
    eapply wl_returns; [done|exact Hlm| |done|done].
    eapply Haway; [|exact Hlm]. lia. }
  destruct (likelihoods_loop_returns self z (diag2 u v) d N 0 [] Hall)
    as [ls Hls].
  destruct (update_particle_after_likelihoods self z zs N thr (diag2 u v) d ls
              Hls Hnew) as [[self' c] Hr].
  exists self', c. split; [exact Hr|]. split.
  - by apply (update_particle_well_formed _ _ _ _ _ _ _ _ _ _ Hr).
  - by eapply update_particle_contribution.
Qed.

Lemma p_west_well_formed : well_formed p_west.
Proof. split; [reflexivity|]. constructor; [exact spd_eye2|constructor]. Qed.

Lemma new_landmark_west_away :
  scanner_distance2 (pose p_west) (new_landmark_position p_west (1, 0) 0) 0 ≠ 0.
Proof.
  unfold scanner_distance2, new_landmark_position, scanner_to_world, p_west.
  cbn [pose fst snd]. rewrite cos_0, sin_0.
  match goal with |- ?q ≠ 0 => replace q with 1 by ring end. lra.
Qed.

Lemma update_particle_returns_witness :
  ∃ self' c,
    update_particle p_west (1, 3) (1, 0) 1 1 (diag2 1 1) 0 = Ok (self', c) ∧
    well_formed self' ∧ 1 <= c.
Proof.
  apply (update_particle_returns p_west (1, 3) (1, 0) 1 1 1 1 0).
  - exact p_west_well_formed.
  - cbn. lia.
  - lra.
  - lra.
  - intros k lm Hk Hlm. assert (k = 0%nat) as -> by lia.
    injection Hlm as <-. exact scanner_distance2_west.
  - exact new_landmark_west_away.
Defined.

Lemma update_particles_empty_scan (ps : list Particle) :
  ∀ (thr : R) (Qt : mat2) (d : R) (acc : list R),
  update_particles ps [] thr Qt d acc =
    Ok (ps, acc ++ replicate (length ps) 1).
Proof.
  induction ps as [|p ps IH]; intros thr Qt d acc; cbn [update_particles].
  - by rewrite app_nil_r.
  - unfold particle_weight. cbn [update_observations mbind result_bind].
    rewrite IH. cbn [mbind result_bind length replicate].
    by rewrite <- app_assoc.
Qed.

(** X16: on a scan without cylinders [update_and_compute_weights] changes
    nothing and returns the weight 1.0 for every particle. *)
Theorem update_and_compute_weights_empty_scan (self : FastSLAM) (d : R) :
  update_and_compute_weights self d [] =
    Ok (self, replicate (length (particles self)) 1).
Proof.
  unfold update_and_compute_weights. rewrite update_particles_empty_scan.
  cbn [mbind result_bind app]. by destruct self.
Qed.

End Failures.

(** ** What resampling selects *)

Section Selection.
Local Open Scope R_scope.
Context {P St : Type}.
Variable deepcopy : P → St → result (P * St).

(** Where the wheel stops: at an index whose weight is at least the
    remaining offset; a positive offset stays positive. *)
Lemma wheel_post (ws : list R) (fuel : nat) :
  ∀ (offset : R) (index : nat) (o' : R) (i' : nat),
  wheel fuel ws offset index = Ok (o', i') →
  ∃ w, ws !! i' = Some w ∧ o' <= w ∧ (0 < offset → 0 < o').
Proof.
  induction fuel as [|fuel IH]; intros offset index o' i'; cbn [wheel];
    intros Hw; bind_ok Hw; apply py_index_ok in E;
    destruct (Rgt_dec offset a) as [Hgt|Hle]; try discriminate.
  - injection Hw as <- <-. exists a. split; [done|]. split; [lra|done].
  - apply IH in Hw as (w & Hw & Hle & Hpos). exists w.
    split; [done|]. split; [done|]. intros Ho. apply Hpos. lra.
  - injection Hw as <- <-. exists a. split; [done|]. split; [lra|done].
Qed.

Lemma resample_loop_members (Q : P → Prop) (fuel : nat) (ps : list P)
    (ws : list R) (mw : R) (random : nat → R) (n : nat) :
  (∀ j p s c s', ps !! j = Some p → deepcopy p s = Ok (c, s') → Q c) →
  ∀ (i : nat) (offset : R) (index : nat) (new : list P) (s : St)
    (out : list P) (s' : St),
  resample_loop deepcopy fuel ps ws mw random n i offset index new s
    = Ok (out, s') →
  Forall Q new → Forall Q out.
Proof.
  intros HQ. induction n as [|n IH]; intros i offset index new s out s';
    cbn [resample_loop].
  - by intros [= <- <-].
  - intros Hr Hnew. bind_ok Hr. destruct a as [offset' index'].
    bind_ok Hr. apply py_index_ok in E0. bind_ok Hr. destruct a0 as [c s1].
    apply IH in Hr; [done|]. apply Forall_app. split; [done|].
    constructor; [|constructor]. by eapply HQ.
Qed.

Lemma resample_loop_selects (fuel : nat) (ps : list P) (ws : list R)
    (mw : R) (random : nat → R) (n : nat) :
  0 < mw → (∀ i, 0 < random i) →
  let Q := λ c, ∃ j p w s1 s2, ps !! j = Some p ∧ ws !! j = Some w ∧ 0 < w ∧
                               deepcopy p s1 = Ok (c, s2) in
  ∀ (i : nat) (offset : R) (index : nat) (new : list P) (s : St)
    (out : list P) (s' : St),
  resample_loop deepcopy fuel ps ws mw random n i offset index new s
    = Ok (out, s') →
  0 <= offset → Forall Q new → Forall Q out.
Proof.
  intros Hmw Hrand Q. induction n as [|n IH];
    intros i offset index new s out s'; cbn [resample_loop].
  - by intros [= <- <-].
  - intros Hr Hoff Hnew. bind_ok Hr. destruct a as [offset' index'].
    bind_ok Hr. apply py_index_ok in E0. bind_ok Hr. destruct a0 as [c s1].
    apply wheel_post in E as (w & Hw & Hle & Hpos).
    assert (Hstep : 0 < offset + uniform 0 (2 * mw) (random i)).
    { unfold uniform. pose proof (Hrand i) as Hr0.
      assert (0 < (2 * mw - 0) * random i)
        by (apply Rmult_lt_0_compat; lra).
      lra. }
    specialize (Hpos Hstep).
    apply IH in Hr; [done|lra|]. apply Forall_app. split; [done|].
    constructor; [|constructor]. exists index', a, w, s, s1.
    repeat split; try done. lra.
Qed.

(** X17: when some weight is positive and every draw of [random.random()]
    is positive, [resample] only copies particles whose weight is positive:
    a particle of weight zero (or below) is never selected. *)
Theorem resample_selects_positive (fuel : nat) (ps : list P) (ws : list R)
    (start : nat) (random : nat → R) (s : St) (out : list P) (s' : St) :
  resample deepcopy fuel ps ws start random s = Ok (out, s') →
  (∃ w, w ∈ ws ∧ 0 < w) → (∀ i, 0 < random i) →
  Forall (λ c, ∃ j p w s1 s2, ps !! j = Some p ∧ ws !! j = Some w ∧ 0 < w ∧
                              deepcopy p s1 = Ok (c, s2)) out.
Proof.
  unfold resample. intros Hr (w & Hin & Hw) Hrand.
  bind_ok Hr. bind_ok Hr. apply py_max_spec in E as [_ Hmax].
  pose proof (Hmax _ Hin) as Hle.
  eapply resample_loop_selects in Hr; [exact Hr|lra|done|lra|constructor].
Qed.

End Selection.

Section Correction.
Local Open Scope R_scope.

(** A filter with one particle, whatever its weight, keeps that particle. *)
Lemma resample_single {A} (p : A) (w : R) (fuel : nat) :
  resample deepcopy_value fuel [p] [w] 0 (λ _, 1 / 2) () = Ok ([p], ()).
Proof.
  unfold resample. cbn [py_max list_max_from mbind result_bind length].
  unfold randint_upto. destruct (decide (1 = 0)%nat) as [|_]; [lia|].
  cbn [mbind result_bind resample_loop].
  assert (Hw : ∀ o, o = w → wheel fuel [w] o 0 = Ok (o, 0%nat)).
  { intros o ->. destruct fuel; cbn [wheel]; unfold py_index;
      cbn [lookup list_lookup mbind result_bind];
      destruct (Rgt_dec w w); try lra; reflexivity. }
  rewrite Hw by (unfold uniform; lra).
  cbn [mbind result_bind]. unfold py_index. reflexivity.
Qed.

Lemma resample_selects_positive_witness :
  Forall (λ c, ∃ j p w s1 s2, [p_origin] !! j = Some p ∧
                 [1] !! j = Some w ∧ 0 < w ∧
                 deepcopy_value p s1 = Ok (c, s2)) [p_origin].
Proof.
  apply (resample_selects_positive deepcopy_value 0 [p_origin] [1] 0
           (λ _, 1 / 2) () [p_origin] ()).
  - exact (resample_single p_origin 1 0).
  - exists 1. split; [constructor|lra].
  - intros _. lra.
Defined.

Lemma list_max_from_zero (ws : list R) :
  Forall (λ w, w = 0) ws → list_max_from 0 ws = 0.
Proof.
  induction 1 as [|w ws -> _ IH]; cbn [list_max_from]; [done|].
  destruct (Rlt_dec 0 0); [lra|exact IH].
Qed.

Lemma resample_loop_zero {A} (fuel : nat) (ps : list A) (ws : list R)
    (random : nat → R) (start : nat) (p : A) :
  Forall (λ w, w = 0) ws → ws !! start = Some 0 → ps !! start = Some p →
  ∀ (n i : nat) (offset : R) (new : list A),
  offset = 0 →
  resample_loop deepcopy_value fuel ps ws 0 random n i offset start new ()
    = Ok (new ++ replicate n p, ()).
Proof.
  intros Hz Hw Hp. induction n as [|n IH]; intros i offset new ->;
    cbn [resample_loop replicate].
  - by rewrite app_nil_r.
  - assert (Hwh : ∀ o, o = 0 → wheel fuel ws o start = Ok (o, start)).
    { intros o ->. destruct fuel; cbn [wheel]; unfold py_index; rewrite Hw;
        cbn [mbind result_bind]; destruct (Rgt_dec 0 0); try lra; reflexivity. }
    rewrite Hwh by (unfold uniform; lra). cbn [mbind result_bind].
    unfold py_index. rewrite Hp. cbn [mbind result_bind deepcopy_value].
    rewrite IH by (unfold uniform; lra).
    by rewrite <- app_assoc.
Qed.

(** X18: when every weight is zero the offset never moves: [resample]
    returns as many copies of the particle at the start index as the filter
    has particles, whatever the draws. *)
Theorem resample_zero_weights {A} (fuel : nat) (ps : list A) (ws : list R)
    (start : nat) (random : nat → R) (p : A) :
  Forall (λ w, w = 0) ws → length ws = length ps → ps !! start = Some p →
  resample deepcopy_value fuel ps ws start random () =
    Ok (replicate (length ps) p, ()).
Proof.
  intros Hz Hlen Hp. unfold resample.
  pose proof (lookup_lt_Some _ _ _ Hp) as Hlt.
  destruct (lookup_lt_is_Some_2 ws start ltac:(lia)) as [w Hw].
  pose proof (Forall_lookup_1 _ _ _ _ Hz Hw) as ->.
  destruct ws as [|w0 ws']; [cbn in Hlen; lia|].
  pose proof (Forall_inv Hz) as Hw0. cbn beta in Hw0. subst w0.
  cbn [py_max mbind result_bind].
  rewrite list_max_from_zero by exact (Forall_inv_tail Hz).
  unfold randint_upto. destruct (decide (length ps = 0)%nat) as [|_]; [lia|].
  cbn [mbind result_bind].
  by rewrite (resample_loop_zero fuel ps (0 :: ws') random start p Hz Hw Hp).
Qed.

Lemma resample_zero_weights_witness :
  resample deepcopy_value 0 [p_origin; p_west] [0; 0] 1 (λ _, 1) () =
    Ok (replicate (length [p_origin; p_west]) p_west, ()).
Proof.
  apply (resample_zero_weights 0 [p_origin; p_west] [0; 0] 1 (λ _, 1) p_west).
  - repeat constructor.
  - reflexivity.
  - reflexivity.
Defined.

Lemma resample_value_members {A} (fuel : nat) (ps : list A) (ws : list R)
    (start : nat) (random : nat → R) (out : list A) (s' : unit) :
  resample deepcopy_value fuel ps ws start random () = Ok (out, s') →
  length out = length ps ∧ Forall (λ c, c ∈ ps) out.
Proof.
  intros Hr. split; [by eapply resample_length|].
  unfold resample in Hr. bind_ok Hr. bind_ok Hr.
  eapply (resample_loop_members deepcopy_value (λ c, c ∈ ps)) in Hr;
    [exact Hr| |constructor].
  intros j p s c s1 Hj [= <- _]. by eapply list_elem_of_lookup_2.
Qed.

(** X19: a returning [correct] keeps the filter constants and the particle
    count, and every particle of the new list is what
    [update_and_compute_weights] made of some particle of the old list:
    its pose is that particle's pose, and its weight was computed for it. *)
Theorem correct_frame (self self' : FastSLAM) (d : R)
    (cylinders : list (vec2 * vec2)) (fuel start : nat) (random : nat → R) :
  correct self d cylinders fuel start random = Ok self' →
  set_particles self' (particles self) = self ∧
  length (particles self') = length (particles self) ∧
  Forall (λ c, ∃ p w, p ∈ particles self ∧ pose c = pose p ∧
      particle_weight p cylinders (minimum_correspondence_likelihood self)
        (diag2 (measurement_distance_stddev self ^ 2)
               (measurement_angle_stddev self ^ 2)) d = Ok (c, w))
    (particles self').
Proof.
  unfold correct, update_and_compute_weights. intros Hc.
  bind_ok Hc. destruct a as [self1 ws]. bind_ok E. destruct a as [ps1 ws1].
  injection E as <- <-. bind_ok Hc. destruct a as [out s'].
  injection Hc as <-. cbn [particles set_particles] in *.
  split; [by destruct self|].
  apply resample_value_members in E as [Hlen Hmem].
  pose proof (update_particles_frame _ _ _ _ _ _ _ _ E0) as HF.
  split; [rewrite Hlen; symmetry; by eapply Forall2_length|].
  eapply Forall_impl; [exact Hmem|]. intros c Hin. cbn beta in Hin.
  apply list_elem_of_lookup_1 in Hin as [j Hj].
  destruct (Forall2_lookup_r _ _ _ _ _ HF Hj) as (p & Hp & w & Hw).
  exists p, w. split; [by eapply list_elem_of_lookup_2|]. split; [|exact Hw].
  unfold particle_weight in Hw.
  by apply update_observations_grows in Hw as [? _].
Qed.

Lemma correct_fs_one (fuel : nat) :
  correct fs_one 0 scan_one fuel 0 (λ _, 1 / 2) =
    Ok (set_particles fs_one [p_east (diag2 (1 ^ 2) (1 ^ 2))]).
Proof.
  unfold correct. rewrite weights_fs_one. cbn [mbind result_bind particles
    set_particles]. rewrite resample_single. reflexivity.
Qed.

Lemma correct_frame_witness :
  let self' := set_particles fs_one [p_east (diag2 (1 ^ 2) (1 ^ 2))] in
  set_particles self' (particles fs_one) = fs_one ∧
  length (particles self') = length (particles fs_one) ∧
  Forall (λ c, ∃ p w, p ∈ particles fs_one ∧ pose c = pose p ∧
      particle_weight p scan_one (minimum_correspondence_likelihood fs_one)
        (diag2 (measurement_distance_stddev fs_one ^ 2)
               (measurement_angle_stddev fs_one ^ 2)) 0 = Ok (c, w))
    (particles self').
Proof.
  apply (correct_frame fs_one
           (set_particles fs_one [p_east (diag2 (1 ^ 2) (1 ^ 2))])
           0 scan_one 0 0 (λ _, 1 / 2)).
  exact (correct_fs_one 0).
Defined.

End Correction.

(** ** The filter loop *)

Section FilterLoop.
Local Open Scope R_scope.

Lemma set_particles_trans (a b c : FastSLAM) :
  set_particles b (particles a) = a → set_particles c (particles b) = b →
  set_particles c (particles a) = a.
Proof.
  destruct a, b, c. unfold set_particles. cbn.
  intros [= -> -> -> -> -> -> ->] [= -> -> -> -> -> -> ->]. reflexivity.
Qed.

Lemma set_particles_stddev (a b : FastSLAM) :
  set_particles b (particles a) = a →
  measurement_distance_stddev b = measurement_distance_stddev a ∧
  measurement_angle_stddev b = measurement_angle_stddev a.
Proof. intros <-. done. Qed.

Lemma predict_well_formed (self self' : FastSLAM) (control : R * R)
    (normal : nat → R) :
  predict self control normal = Ok self' →
  Forall well_formed (particles self) →
  set_particles self' (particles self) = self ∧
  length (particles self') = length (particles self) ∧
  Forall well_formed (particles self').
Proof.
  unfold predict. intros Hp Hwf. bind_ok Hp. injection Hp as <-.
  split; [by destruct self|]. cbn [particles set_particles].
  apply predict_loop_frame in E.
  split; [symmetry; by eapply Forall2_length|].
  revert Hwf. induction E as [|p p' l l' (_ & Hl & Hc) _ IH]; intros Hwf;
    [constructor|].
  apply Forall_cons in Hwf as [[Hal Hall] Hrest].
  constructor; [|by apply IH].
  unfold well_formed, aligned in *. rewrite Hl, Hc. done.
Qed.

Lemma correct_well_formed (self self' : FastSLAM) (d : R)
    (cylinders : list (vec2 * vec2)) (fuel start : nat) (random : nat → R) :
  correct self d cylinders fuel start random = Ok self' →
  measurement_distance_stddev self ≠ 0 → measurement_angle_stddev self ≠ 0 →
  Forall well_formed (particles self) →
  set_particles self' (particles self) = self ∧
  length (particles self') = length (particles self) ∧
  Forall well_formed (particles self').
Proof.
  unfold correct, update_and_compute_weights. intros Hc Hd Ha Hwf.
  bind_ok Hc. destruct a as [self1 ws]. bind_ok E. destruct a as [ps1 ws1].
  injection E as <- <-. bind_ok Hc. destruct a as [out s'].
  injection Hc as <-. cbn [particles set_particles] in *.
  split; [by destruct self|].
  apply resample_value_members in E as [Hlen Hmem].
  pose proof (update_particles_well_formed _ _ _ _ _ _ _ _ _ E0
                (sqr_pos _ Hd) (sqr_pos _ Ha) Hwf) as HF.
  split; [rewrite Hlen; symmetry; by eapply Forall2_length|].
  eapply Forall_impl; [exact Hmem|]. intros c Hin. cbn beta in Hin.
  apply list_elem_of_lookup_1 in Hin as [j Hj].
  by destruct (Forall2_lookup_r _ _ _ _ _ HF Hj) as (p & _ & Hc & _).
Qed.

(** X20: along the filter loop, with non-zero measurement standard
    deviations and well-formed particles at the start (the initial
    particles have empty maps), the filter constants and the particle
    count never change, and every particle stays well formed: its two lists
    run in parallel and every landmark covariance is symmetric
    positive-definite. *)
Theorem filter_loop_invariant (ticks : list tick) :
  ∀ (fs fs' : FastSLAM) (d : R) (fuel : nat),
  filter_loop fs d fuel ticks = Ok fs' →
  measurement_distance_stddev fs ≠ 0 → measurement_angle_stddev fs ≠ 0 →
  Forall well_formed (particles fs) →
  set_particles fs' (particles fs) = fs ∧
  length (particles fs') = length (particles fs) ∧
  Forall well_formed (particles fs').
Proof.
  induction ticks as [|t rest IH]; intros fs fs' d fuel; cbn [filter_loop].
  - intros [= <-] _ _ Hwf. split; [by destruct fs|done].
  - intros Hl Hd Ha Hwf. bind_ok Hl. bind_ok Hl.
    rename a into fs1, a0 into fs2.
    destruct (predict_well_formed _ _ _ _ E Hwf) as (Hc1 & Hn1 & Hwf1).
    destruct (set_particles_stddev _ _ Hc1) as [Ed1 Ea1].
    destruct (correct_well_formed _ _ _ _ _ _ _ E0) as (Hc2 & Hn2 & Hwf2);
      [congruence|congruence|done|].
    destruct (set_particles_stddev _ _ Hc2) as [Ed2 Ea2].
    destruct (IH _ _ _ _ Hl) as (Hc3 & Hn3 & Hwf3);
      [congruence|congruence|done|].
    split; [|split; [lia|done]].
    eapply set_particles_trans; [exact Hc1|].
    eapply set_particles_trans; [exact Hc2|exact Hc3].
Qed.

Lemma filter_loop_fs_one (fuel : nat) :
  filter_loop fs_one 0 fuel [tick_ahead] = Ok (set_particles fs_one [p_ahead]).
Proof.
  cbn [filter_loop]. unfold tick_ahead.
  cbn [tick_control tick_normal tick_cylinders tick_start tick_random].
  rewrite predict_fs_one. cbn [mbind result_bind].
  unfold correct, update_and_compute_weights.
  rewrite update_particles_empty_scan.
  cbn [mbind result_bind particles set_particles length replicate app].
  rewrite resample_single. reflexivity.
Qed.

Lemma filter_loop_invariant_witness :
  let fs' := set_particles fs_one [p_ahead] in
  set_particles fs' (particles fs_one) = fs_one ∧
  length (particles fs') = length (particles fs_one) ∧
  Forall well_formed (particles fs').
Proof.
  apply (filter_loop_invariant [tick_ahead] fs_one
           (set_particles fs_one [p_ahead]) 0 0).
  - exact (filter_loop_fs_one 0).
  - cbn. lra.
  - cbn. lra.
  - constructor; [exact p_origin_well_formed|constructor].
Defined.

End FilterLoop.

(** ** The object store and the values, on the aliased store *)

Section StoreRefinement.

Lemma store_aliased_reads :
  Forall2 (λ p v, read_particle store_aliased p = Some v) [6; 7]%positive
    [([0; 0; 0]%R, [[1; 0]%R], [[1; 0; 0; 1]%R]);
     ([0; 0; 0]%R, [[1; 0]%R], [[1; 0; 0; 1]%R])].
Proof. repeat constructor; vm_compute; reflexivity. Qed.

Lemma resample_store_refines_witness :
  let vs := [([0; 0; 0]%R, [[1; 0]%R], [[1; 0; 0; 1]%R]);
             ([0; 0; 0]%R, [[1; 0]%R], [[1; 0; 0; 1]%R])] in
  ∃ fuel outs h' vouts,
    resample deepcopy_particle fuel [6; 7]%positive [1; 1]%R 0 (λ _, 0%R)
      store_aliased = Ok (outs, h') ∧
    resample deepcopy_value fuel vs [1; 1]%R 0 (λ _, 0%R) () = Ok (vouts, ()) ∧
    Forall2 (λ o v, read_particle h' o = Some v) outs vouts.
Proof.
  intros vs.
  destruct (resample_store_terminates [6; 7]%positive [1; 1]%R 0 (λ _, 0%R)
              store_aliased) as (f & outs & h' & Hr).
  - exact store_aliased_well_formed.
  - discriminate.
  - reflexivity.
  - repeat constructor; lra.
  - cbn. lia.
  - destruct (resample_store_refines f [6; 7]%positive vs [1; 1]%R 0
                (λ _, 0%R) store_aliased h' outs) as (vouts & Hv & Hread).
    + exact store_aliased_reads.
    + by apply Hr.
    + exists f, outs, h', vouts. split; [by apply Hr|]. split; [exact Hv|exact Hread].
Defined.

End StoreRefinement.

(** ** The initial particles and [move], on the object store *)

Section InitialParticles.

Lemma read_empty_list (h : gmap loc obj) (b : loc) :
  h !! b = Some (OList []) → read_list h b = Some [] ∧ items_of h b = [].
Proof. intros Hb. unfold read_list, items_of. by rewrite Hb. Qed.

(** One round of the list comprehension. *)
Lemma initial_round (start : loc) (d : list R) (h : gmap loc obj) :
  h !! start = Some (OArray d) →
  ∃ x b c h2,
    (let '(t, h1) := Particle_init start h in copy_copy t h1) = Ok (x, h2) ∧
    h ⊆ h2 ∧ (x ∉ dom h) ∧ (b ∉ dom h) ∧ (c ∉ dom h) ∧
    x ∈ dom h2 ∧ b ∈ dom h2 ∧ c ∈ dom h2 ∧
    h2 !! x = Some (OParticle start b c) ∧
    h2 !! b = Some (OList []) ∧ h2 !! c = Some (OList []).
Proof.
  intros Hs. unfold Particle_init.
  destruct (alloc h (OList [])) as [b h1] eqn:E1.
  destruct (alloc h1 (OList [])) as [c h2] eqn:E2.
  destruct (alloc h2 (OParticle start b c)) as [t h3] eqn:E3.
  destruct (alloc h3 (OParticle start b c)) as [x h4] eqn:E4.
  pose proof (alloc_fresh h (OList [])) as (F1 & S1 & L1 & D1).
  pose proof (alloc_fresh h1 (OList [])) as (F2 & S2 & L2 & D2).
  pose proof (alloc_fresh h2 (OParticle start b c)) as (F3 & S3 & L3 & D3).
  pose proof (alloc_fresh h3 (OParticle start b c)) as (F4 & S4 & L4 & D4).
  rewrite E1 in *. rewrite E2 in *. rewrite E3 in *. rewrite E4 in *.
  cbn [fst snd] in *.
  exists x, b, c, h4. unfold copy_copy. rewrite L3, E4.
  assert (H14 : h1 ⊆ h4) by (do 2 (etrans; [eassumption|]); done).
  assert (H24 : h2 ⊆ h4) by (etrans; eassumption).
  split; [done|]. split; [by etrans|].
  split; [set_solver|]. split; [done|]. split; [set_solver|].
  split; [set_solver|]. split; [set_solver|]. split; [set_solver|].
  split; [done|].
  split; [by eapply lookup_weaken|by eapply lookup_weaken].
Qed.

(** X22: the initial particles of the main section are distinct instances
    with lists of their own, all reading as the start pose with an empty
    map, and all holding the one start-pose array: any two of them share
    that array, which is mutable, and nothing else. *)
Theorem initial_particles_share_pose (n : nat) :
  ∀ (start : loc) (d : list R) (h : gmap loc obj),
  h !! start = Some (OArray d) →
  ∃ xs h',
    initial_particles n start h = Ok (xs, h') ∧ length xs = n ∧ h ⊆ h' ∧
    mutable h' start ∧
    (∀ i x, xs !! i = Some x →
       (x ∉ dom h) ∧ read_particle h' x = Some (d, [], []) ∧
       ∃ b c, footprint h' x = {[x; start; b; c]} ∧
              (b ∉ dom h) ∧ (c ∉ dom h)) ∧
    (∀ i j xi xj, i ≠ j → xs !! i = Some xi → xs !! j = Some xj →
       footprint h' xi ∩ footprint h' xj = {[start]}).
Proof.
  induction n as [|n IH]; intros start d h Hs; cbn [initial_particles].
  - exists [], h. split; [done|]. split; [done|]. split; [done|].
    split; [unfold mutable; by rewrite Hs|].
    split; intros *; by rewrite ?lookup_nil.
  - destruct (initial_round start d h Hs)
      as (x & b & c & h2 & Hround & Hsub & Hx & Hb & Hc & Hx2 & Hb2 & Hc2
          & Lx & Lb & Lc).
    destruct (Particle_init start h) as [t h1]. rewrite Hround.
    cbn [mbind result_bind].
    pose proof (lookup_weaken _ _ _ _ Hs Hsub) as Hs2.
    destruct (IH start d h2 Hs2) as (xs & h' & -> & Hlen & Hsub' & Hmut & Hall & Hpair).
    cbn [mbind result_bind]. exists (x :: xs), h'.
    split; [done|]. split; [cbn; lia|]. split; [by etrans|]. split; [done|].
    pose proof (lookup_weaken _ _ _ _ Lx Hsub') as Lx'.
    pose proof (lookup_weaken _ _ _ _ Lb Hsub') as Lb'.
    pose proof (lookup_weaken _ _ _ _ Lc Hsub') as Lc'.
    pose proof (lookup_weaken _ _ _ _ Hs2 Hsub') as Hs'.
    destruct (read_empty_list _ _ Lb') as [Rb Ib].
    destruct (read_empty_list _ _ Lc') as [Rc Ic].
    assert (Hfx : footprint h' x = {[x; start; b; c]}).
    { unfold footprint. rewrite Lx', Ib, Ic. set_solver. }
    assert (Hstart : start ∈ dom h) by (by eapply elem_of_dom_2).
    assert (Hhead : (x ∉ dom h) ∧ read_particle h' x = Some (d, [], []) ∧
              ∃ b c, footprint h' x = {[x; start; b; c]} ∧
                     (b ∉ dom h) ∧ (c ∉ dom h)).
    { split; [done|]. split; [|by exists b, c].
      unfold read_particle. rewrite Lx'. unfold read_leaf. rewrite Hs'.
      cbn. rewrite Rb. cbn. by rewrite Rc. }
    assert (Hdom : dom h ⊆ dom h2) by (by apply subseteq_dom).
    assert (Htail : ∀ j xj, xs !! j = Some xj →
              footprint h' x ∩ footprint h' xj = {[start]}).
    { intros j xj Hj. destruct (Hall _ _ Hj) as (Hxj & _ & bj & cj & Hfj & Hbj & Hcj).
      rewrite Hfx, Hfj. set_solver. }
    split.
    + intros [|i] y; cbn [lookup list_lookup].
      * by intros [= <-].
      * intros Hi. destruct (Hall _ _ Hi) as (Hy & Hr & b' & c' & Hf & Hb' & Hc').
        split; [set_solver|]. split; [done|]. exists b', c'.
        split; [done|]. split; set_solver.
    + intros [|i] [|j] xi xj Hij; cbn [lookup list_lookup]; intros Hi Hj.
      * done.
      * injection Hi as <-. by eapply Htail.
      * injection Hj as <-. rewrite (comm_L (∩)). by eapply Htail.
      * eapply (Hpair i j); [lia|done|done].
Qed.

Lemma initial_particles_share_pose_witness :
  ∃ xs h',
    initial_particles 2 1%positive store_start = Ok (xs, h') ∧ length xs = 2%nat ∧
    store_start ⊆ h' ∧ mutable h' 1%positive ∧
    (∀ i x, xs !! i = Some x →
       (x ∉ dom store_start) ∧
       read_particle h' x = Some ([0; 0; 0]%R, [], []) ∧
       ∃ b c, footprint h' x = {[x; 1%positive; b; c]} ∧
              (b ∉ dom store_start) ∧ (c ∉ dom store_start)) ∧
    (∀ i j xi xj, i ≠ j → xs !! i = Some xi → xs !! j = Some xj →
       footprint h' xi ∩ footprint h' xj = {[1%positive]}).
Proof.
  apply (initial_particles_share_pose 2 1%positive [0; 0; 0]%R store_start).
  reflexivity.
Defined.

Lemma read_particle_parts (h : gmap loc obj) (x : loc) (pa : list R)
    (lb lc : list (list R)) :
  read_particle h x = Some (pa, lb, lc) →
  ∃ a b c, h !! x = Some (OParticle a b c) ∧ read_leaf h a = Some pa ∧
           read_list h b = Some lb ∧ read_list h c = Some lc.
Proof.
  unfold read_particle.
  destruct (h !! x) as [[| | |a b c]|] eqn:Hx; try done. intros Hv.
  destruct (read_leaf h a) as [pa'|] eqn:Hpa; [|done]. cbn in Hv.
  destruct (read_list h b) as [lb'|] eqn:Hlb; [|done]. cbn in Hv.
  destruct (read_list h c) as [lc'|] eqn:Hlc; [|done]. cbn in Hv.
  injection Hv as -> -> ->. by exists a, b, c.
Qed.

(** No object in the footprint of a readable particle, the instance itself
    apart, is an instance. *)
Lemma footprint_not_instance (h : gmap loc obj) (y z : loc)
    (v : list R * list (list R) * list (list R)) (a b c : loc) :
  read_particle h y = Some v → z ∈ footprint h y →
  h !! z = Some (OParticle a b c) → z = y.
Proof.
  destruct v as [[pa lb] lc]. intros Hv Hz Hzo.
  destruct (read_particle_parts _ _ _ _ _ Hv) as (a' & b' & c' & Hy & Ha & Hb & Hc).
  unfold footprint in Hz. rewrite Hy in Hz.
  assert (Hleaf : ∀ l dl, read_leaf h l = Some dl → l ≠ z).
  { intros l dl Hl ->. unfold read_leaf in Hl. by rewrite Hzo in Hl. }
  assert (Hlist : ∀ l vl, read_list h l = Some vl →
                    l ≠ z ∧ z ∉ items_of h l).
  { intros l vl Hl. unfold read_list, items_of in *.
    destruct (h !! l) as [[| |items|]|] eqn:El; try done.
    split; [intros ->; by rewrite Hzo in El|].
    intros Hin. apply mapM_Some in Hl.
    apply list_elem_of_lookup_1 in Hin as [k Hk].
    destruct (Forall2_lookup_l _ _ _ _ _ Hl Hk) as (dl & _ & Hd).
    by eapply Hleaf. }
  destruct (Hlist _ _ Hb) as [Nb Ib]. destruct (Hlist _ _ Hc) as [Nc Ic].
  pose proof (Hleaf _ _ Ha) as Na.
  set_solver.
Qed.

(** X23: [move] binds a new pose array and leaves the old one untouched:
    the particle reads as moved, with its map as before, and every other
    particle of the store reads as it did, also one that holds the same
    pose array as the particle that moved. *)
Theorem move_obj_rebinds (x : loc) (left right w : R) (h : gmap loc obj)
    (px py theta : R) (lb lc : list (list R)) (p : Pose) :
  read_particle h x = Some ([px; py; theta], lb, lc) →
  g (px, py, theta) (left, right) w = Ok p →
  ∃ h',
    move_obj x left right w h = Ok h' ∧
    read_particle h' x = Some ([p.1.1; p.1.2; p.2], lb, lc) ∧
    ∀ y v, y ≠ x → read_particle h y = Some v → read_particle h' y = Some v.
Proof.
  intros Hx Hg.
  destruct (read_particle_parts _ _ _ _ _ Hx) as (a & b & c & Lx & Ha & Hb & Hc).
  unfold move_obj. rewrite Lx, Ha, Hg. cbn [mbind result_bind].
  destruct (alloc h (OArray [p.1.1; p.1.2; p.2])) as [a' h1] eqn:E.
  pose proof (alloc_fresh h (OArray [p.1.1; p.1.2; p.2])) as (F & S & L & D).
  rewrite E in F, S, L, D. cbn [fst snd] in F, S, L, D.
  eexists. split; [reflexivity|].
  assert (Hxd : x ∈ dom h) by (by eapply elem_of_dom_2).
  assert (Hne : x ≠ a') by (intros ->; done).
  pose proof (read_particle_mono _ _ _ _ S Hx) as Hx1.
  split.
  - assert (Hlist : ∀ l vl, read_list h l = Some vl →
              read_list (<[x := OParticle a' b c]> h1) l = Some vl).
    { intros l vl Hl. rewrite read_list_insert_ne.
      - by eapply read_list_mono.
      - intros ->. unfold read_list in Hl. by rewrite Lx in Hl.
      - intros Hin.
        assert (Hf : x ∈ footprint h1 x)
          by (unfold footprint; destruct (h1 !! x) as [[]|]; set_solver).
        unfold items_of, read_list in *.
        destruct (h !! l) as [[| |items|]|] eqn:El; try done.
        rewrite (lookup_weaken _ _ _ _ El S) in Hin.
        apply mapM_Some in Hl. apply list_elem_of_lookup_1 in Hin as [k Hk].
        destruct (Forall2_lookup_l _ _ _ _ _ Hl Hk) as (dl & _ & Hd).
        unfold read_leaf in Hd. by rewrite Lx in Hd. }
    unfold read_particle. rewrite lookup_insert_eq.
    rewrite read_leaf_insert_ne by done. unfold read_leaf at 1. rewrite L.
    cbn. rewrite (Hlist _ _ Hb). cbn. by rewrite (Hlist _ _ Hc).
  - intros y v Hy Hv. pose proof (read_particle_mono _ _ _ _ S Hv) as Hv1.
    rewrite read_particle_frame; [exact Hv1|].
    intros Hin. apply Hy. symmetry.
    eapply (footprint_not_instance h1 y x v); [exact Hv1|exact Hin|].
    by eapply lookup_weaken.
Qed.

Lemma g_ahead : g (0, 0, 0)%R (50, 50)%R 1 = Ok (pose p_ahead).
Proof.
  unfold g. destruct (Rne_dec 50 50) as [Hne|_]; [contradiction|reflexivity].
Qed.

Lemma move_obj_rebinds_witness :
  let p := pose p_ahead in
  ∃ h',
    move_obj 6 50 50 1 store_aliased = Ok h' ∧
    read_particle h' 6%positive =
      Some ([p.1.1; p.1.2; p.2], [[1; 0]%R], [[1; 0; 0; 1]%R]) ∧
    ∀ y v, y ≠ 6%positive → read_particle store_aliased y = Some v →
           read_particle h' y = Some v.
Proof.
  apply (move_obj_rebinds 6 50 50 1 store_aliased 0 0 0 [[1; 0]%R]
           [[1; 0; 0; 1]%R] (pose p_ahead)).
  - vm_compute. reflexivity.
  - exact g_ahead.
Defined.

End InitialParticles.

(** ** Exceptions in the correction step *)

Section AbortedStep.
Local Open Scope R_scope.

Lemma gauss_likelihood_no_linalg (Ql : mat2) (dz : vec2) :
  gauss_likelihood Ql dz ≠ Raise LinAlgError.
Proof.
  unfold gauss_likelihood, py_sqrt, py_div, inv.
  destruct (Rlt_dec (det Ql) 0) as [|Hge]; [done|]. cbn [mbind result_bind].
  destruct (Req_dec_T (2 * PI * sqrt (det Ql)) 0) as [|Hnz]; [done|].
  cbn [mbind result_bind].
  destruct (Req_dec_T (det Ql) 0) as [Hz|]; [|done].
  exfalso. apply Hnz. rewrite Hz, sqrt_0. ring.
Qed.

(** The Jacobian raises nothing. *)
Lemma dh_dlandmark_no_raise (state : Pose) (landmark : vec2) (d : R) (e : exn) :
  dh_dlandmark state landmark d ≠ Raise e.
Proof.
  destruct (Req_dec_T (scanner_distance2 state landmark d) 0) as [Hq|Hq].
  - by rewrite dh_dlandmark_at_scanner.
  - by destruct (dh_dlandmark_returns _ _ _ Hq) as (H & -> & _).
Qed.

Lemma wl_no_linalg (self : Particle) (z : vec2) (k : nat) (Qt : mat2) (d : R) :
  wl_likelihood_of_correspondence self z k Qt d ≠ Raise LinAlgError.
Proof.
  unfold wl_likelihood_of_correspondence, delta_z,
    h_expected_measurement_for_landmark,
    H_Ql_jacobian_and_measurement_covariance_for_landmark, py_index.
  destruct (landmark_positions self !! k) as [lm|]; [|done].
  cbn [mbind result_bind].
  destruct (dh_dlandmark (pose self) lm d) as [H|e| |] eqn:E;
    cbn [mbind result_bind]; [| |done|done].
  - destruct (landmark_covariances self !! k) as [Sigma|]; [|done].
    cbn [mbind result_bind]. apply gauss_likelihood_no_linalg.
  - by destruct (dh_dlandmark_no_raise _ _ _ _ E).
Qed.

Lemma likelihoods_loop_no_linalg (self : Particle) (z : vec2) (Qt : mat2)
    (d : R) (n : nat) :
  ∀ (i : nat) (acc : list R),
  likelihoods_loop self z Qt d n i acc ≠ Raise LinAlgError.
Proof.
  induction n as [|n IH]; intros i acc; cbn [likelihoods_loop]; [done|].
  pose proof (wl_no_linalg self z i Qt d) as Hw.
  destruct (wl_likelihood_of_correspondence self z i Qt d) as [wl|e| |];
    cbn [mbind result_bind]; [apply IH|congruence|done|done].
Qed.

(** The likelihood loop stops at the first candidate whose likelihood
    raises. *)
Lemma likelihoods_loop_raise (self : Particle) (z : vec2) (Qt : mat2)
    (d : R) (e : exn) (k : nat) (n : nat) :
  ∀ (i : nat) (acc : list R),
  (i ≤ k < i + n)%nat →
  (∀ j, (i ≤ j < k)%nat →
        ∃ wl, wl_likelihood_of_correspondence self z j Qt d = Ok wl) →
  wl_likelihood_of_correspondence self z k Qt d = Raise e →
  likelihoods_loop self z Qt d n i acc = Raise e.
Proof.
  induction n as [|n IH]; intros i acc Hi Hbefore Hk; [lia|].
  cbn [likelihoods_loop].
  destruct (decide (i = k)) as [->|Hne].
  - by rewrite Hk.
  - destruct (Hbefore i) as [wl ->]; [lia|]. cbn [mbind result_bind].
    apply IH; [lia| |done]. intros j Hj. apply Hbefore. lia.
Qed.

(** [initialize_new_landmark] raises nothing. *)
Lemma initialize_new_landmark_no_raise (self : Particle) (zs : vec2)
    (Qt : mat2) (d : R) (e : exn) :
  initialize_new_landmark self zs Qt d ≠ Raise e.
Proof.
  destruct (Req_dec_T (scanner_distance2 (pose self)
                         (new_landmark_position self zs d) d) 0) as [Hq|Hq].
  - unfold initialize_new_landmark.
    unfold new_landmark_position in Hq.
    destruct (pose self) as [[x y] theta]. cbv zeta.
    by rewrite dh_dlandmark_at_scanner.
  - by destruct (initialize_new_landmark_returns self zs Qt d Hq)
      as (H & H_inv & _ & _ & ->).
Qed.

(** Every exception of [update_particle] comes out of the computation of
    the likelihoods: setting up a landmark and updating one raise
    nothing. *)
Lemma update_particle_raise_origin (self : Particle) (z zs : vec2) (N : nat)
    (thr : R) (Qt : mat2) (d : R) (e : exn) :
  update_particle self z zs N thr Qt d = Raise e →
  compute_correspondence_likelihoods self z N Qt d = Raise e.
Proof.
  unfold update_particle. intros Hu.
  destruct (compute_correspondence_likelihoods self z N Qt d)
    as [ls|e'| |] eqn:Hls; cbn [mbind result_bind] in Hu;
    [|by injection Hu as ->|discriminate|discriminate].
  exfalso.
  pose proof (compute_correspondence_likelihoods_spec _ _ _ _ _ _ Hls)
    as (Hlen & Hwl & Hpos).
  destruct (no_correspondence_spec ls thr) as (b & Hb & Hiff).
  rewrite Hb in Hu. cbn [mbind result_bind] in Hu. destruct b.
  - pose proof (initialize_new_landmark_no_raise self zs Qt d e) as Hi.
    destruct (initialize_new_landmark self zs Qt d) as [self'|e'| |];
      cbn [mbind result_bind] in Hu; [done|congruence|done|done].
  - assert (Hne : ls ≠ []).
    { intros ->. by discriminate (proj2 Hiff (or_introl eq_refl)). }
    pose proof (argmax_loop_positive ls Hne Hpos) as Harg.
    destruct (argmax_loop ls 0 0 0) as [w k]. cbn [fst snd] in Harg.
    destruct Harg as [_ [Hk _]].
    destruct (update_landmark_after_likelihood _ _ _ _ _ _ (Hwl _ _ Hk))
      as (lm & Sigma & H & Ql_inv & _ & _ & _ & _ & Hup).
    cbv zeta in Hup. rewrite Hup in Hu. done.
Qed.

(** C8, as the code has it: nothing catches an exception of the correction
    step.  A singular innovation covariance makes the likelihood raise
    [ZeroDivisionError], which ends [update_particle]; and an exception
    raised while one observation of one particle is processed is the
    outcome of the whole of [update_and_compute_weights] and of [correct]:
    the observations and particles that follow are not processed and no
    weights are returned.  Such an exception always comes out of the
    computation of the likelihoods, and [np.linalg.inv] is never reached
    with a singular matrix: it is not [LinAlgError]. *)
Theorem numerical_failure_aborts_step (self : FastSLAM) (d : R)
    (pre post : list (vec2 * vec2)) (z zs : vec2)
    (ps1 ps2 : list Particle) (p p1 : Particle) (w1 : R) (e : exn) :
  let thr := minimum_correspondence_likelihood self in
  let Qt := diag2 (measurement_distance_stddev self ^ 2)
                  (measurement_angle_stddev self ^ 2) in
  let cylinders := pre ++ (z, zs) :: post in
  particles self = ps1 ++ p :: ps2 →
  Forall (λ q, ∃ r, particle_weight q cylinders thr Qt d = Ok r) ps1 →
  update_observations p pre (number_of_landmarks p) thr Qt d 1 = Ok (p1, w1) →
  update_particle p1 z zs (number_of_landmarks p) thr Qt d = Raise e →
  update_and_compute_weights self d cylinders = Raise e ∧
  (∀ fuel start random,
     correct self d cylinders fuel start random = Raise e) ∧
  compute_correspondence_likelihoods p1 z (number_of_landmarks p) Qt d
    = Raise e ∧
  e ≠ LinAlgError ∧
  (∀ (q : Particle) (N k : nat) (H Ql : mat2),
     (k < N)%nat →
     (∀ j, (j < k)%nat →
           ∃ wl, wl_likelihood_of_correspondence q z j Qt d = Ok wl) →
     H_Ql_jacobian_and_measurement_covariance_for_landmark q k Qt d
       = Ok (H, Ql) →
     det Ql = 0 →
     update_particle q z zs N thr Qt d = Raise ZeroDivisionError).
Proof.
  intros thr Qt cylinders Hps Hok Hpre He.
  assert (Hp : particle_weight p cylinders thr Qt d = Raise e).
  { unfold particle_weight, cylinders.
    rewrite update_observations_app, Hpre. cbn [mbind result_bind update_observations].
    by rewrite He. }
  assert (Hu : update_and_compute_weights self d cylinders = Raise e).
  { unfold update_and_compute_weights. fold thr Qt. rewrite Hps.
    by rewrite (update_particles_raise _ _ _ _ _ _ _ _ _ Hok Hp). }
  pose proof (update_particle_raise_origin _ _ _ _ _ _ _ _ He) as Hls.
  split; [exact Hu|]. split; [|split; [exact Hls|split]].
  - intros fuel start random. unfold correct. by rewrite Hu.
  - intros ->. by apply (likelihoods_loop_no_linalg p1 z Qt d
                           (number_of_landmarks p) 0 []).
  - intros q N k H Ql Hk Hbefore HQ Hdet.
    assert (Hwl : wl_likelihood_of_correspondence q z k Qt d
                  = Raise ZeroDivisionError).
    { unfold wl_likelihood_of_correspondence. rewrite HQ.
      pose proof HQ as HQ'.
      apply H_Ql_inv in HQ' as (lm & Sigma & Hlm & _).
      rewrite (delta_z_ok _ _ _ _ _ Hlm). cbn [mbind result_bind].
      by apply gauss_likelihood_singular. }
    unfold update_particle, compute_correspondence_likelihoods.
    rewrite (likelihoods_loop_raise q z Qt d ZeroDivisionError k N 0 []);
      [done|lia| |done].
    intros j Hj. apply Hbefore. lia.
Qed.

Lemma H_Ql_noiseless :
  H_Ql_jacobian_and_measurement_covariance_for_landmark (p_east Qt_zero) 0
    Qt_zero 0 = Ok (eye2, mat_add (mat_mul eye2 (mat_mul
                   (mat_mul (mat_mul eye2 Qt_zero) (mat_T eye2)) (mat_T eye2)))
                   Qt_zero).
Proof.
  unfold H_Ql_jacobian_and_measurement_covariance_for_landmark, p_east.
  cbn [py_index lookup list_lookup landmark_positions landmark_covariances
       pose mbind result_bind].
  by rewrite dh_east.
Qed.

Lemma numerical_failure_aborts_step_witness :
  let self := fs_noiseless in
  let e := ZeroDivisionError in
  let thr := minimum_correspondence_likelihood self in
  let Qt := diag2 (measurement_distance_stddev self ^ 2)
                  (measurement_angle_stddev self ^ 2) in
  update_and_compute_weights self 0 ([] ++ ((1, 0), (1, 0)) :: []) = Raise e ∧
  (∀ fuel start random,
     correct self 0 ([] ++ ((1, 0), (1, 0)) :: []) fuel start random = Raise e) ∧
  compute_correspondence_likelihoods (p_east Qt_zero) (1, 0)
    (number_of_landmarks (p_east Qt_zero)) Qt 0 = Raise e ∧
  e ≠ LinAlgError ∧
  (∀ (q : Particle) (N k : nat) (H Ql : mat2),
     (k < N)%nat →
     (∀ j, (j < k)%nat →
           ∃ wl, wl_likelihood_of_correspondence q (1, 0) j Qt 0 = Ok wl) →
     H_Ql_jacobian_and_measurement_covariance_for_landmark q k Qt 0
       = Ok (H, Ql) →
     det Ql = 0 →
     update_particle q (1, 0) (1, 0) N thr Qt 0 = Raise ZeroDivisionError).
Proof.
  apply (numerical_failure_aborts_step fs_noiseless 0 [] [] (1, 0) (1, 0)
           [] [p_origin] (p_east Qt_zero) (p_east Qt_zero) 1 ZeroDivisionError).
  - reflexivity.
  - constructor.
  - reflexivity.
  - apply update_particle_noiseless.
Defined.

(** C8 as stated fails.  With zero measurement noise, the landmark that the
    code itself set up has a singular innovation covariance, and the next
    step raises [ZeroDivisionError]: no weights are returned, although the
    second particle, taken alone, is processed without error. *)
Lemma singular_not_recovered_counterexample :
  initialize_new_landmark p_origin (1, 0) Qt_zero 0 = Ok (p_east Qt_zero) ∧
  (∃ H Ql,
     H_Ql_jacobian_and_measurement_covariance_for_landmark (p_east Qt_zero) 0
       Qt_zero 0 = Ok (H, Ql) ∧ det Ql = 0) ∧
  (∃ r, particle_weight p_origin scan_one (1 / 10000) Qt_zero 0 = Ok r) ∧
  update_and_compute_weights fs_noiseless 0 scan_one = Raise ZeroDivisionError ∧
  (∀ fuel start random,
     correct fs_noiseless 0 scan_one fuel start random = Raise ZeroDivisionError).
Proof.
  assert (Hu : update_and_compute_weights fs_noiseless 0 scan_one
               = Raise ZeroDivisionError).
  { unfold update_and_compute_weights, fs_noiseless, scan_one.
    cbn [particles minimum_correspondence_likelihood
         measurement_distance_stddev measurement_angle_stddev
         update_particles particle_weight update_observations].
    fold Qt_zero.
    replace (number_of_landmarks (p_east Qt_zero)) with 1%nat by reflexivity.
    by rewrite update_particle_noiseless. }
  split; [|split; [|split; [|split]]].
  - apply init_east.
  - eexists _, _. split; [exact H_Ql_noiseless|].
    unfold det, mat_add, mat_mul, mat_T, eye2, Qt_zero, diag2.
    cbn [m00 m01 m10 m11]. ring.
  - unfold particle_weight, scan_one.
    cbn [update_observations number_of_landmarks landmark_positions p_origin
         length].
    fold p_origin. rewrite update_particle_east. cbn [mbind result_bind]. eauto.
  - exact Hu.
  - intros fuel start random. unfold correct. by rewrite Hu.
Qed.

End AbortedStep.

(** ** The decision of [update_particle] *)

Section Decision.
Local Open Scope R_scope.

(** C1: once the likelihoods of the N candidates are computed, the decision
    of [update_particle] is the one the spec describes.  With no candidate,
    or with the maximum below the threshold, the call is the initialisation
    of a new landmark: for a measurement that puts the landmark away from
    the scanner it returns the particle with that landmark appended, at the
    world position of the measurement and with the covariance
    [H^-1 Qt H^-T], and it contributes the threshold.  Otherwise it is the
    EKF update of the landmark at the first index attaining the maximum: it
    returns the particle with the position and the covariance of that
    landmark replaced by [mu + K dz] and [(I - K H) Sigma], and it
    contributes that maximum. *)
Theorem update_particle_decision (self : Particle) (z zs : vec2) (N : nat)
    (thr : R) (Qt : mat2) (d : R) (ls : list R) :
  compute_correspondence_likelihoods self z N Qt d = Ok ls →
  let lm_new := new_landmark_position self zs d in
  length ls = N ∧
  (N = 0%nat ∨ (∃ m, is_max m ls ∧ m < thr) →
     update_particle self z zs N thr Qt d =
       (self' ← initialize_new_landmark self zs Qt d; Ok (self', thr)) ∧
     (scanner_distance2 (pose self) lm_new d ≠ 0 →
        ∃ H H_inv,
          dh_dlandmark (pose self) lm_new d = Ok H ∧ inv H = Ok H_inv ∧
          update_particle self z zs N thr Qt d =
            Ok (mkParticle (pose self) (landmark_positions self ++ [lm_new])
                  (landmark_covariances self ++
                     [mat_mul (mat_mul H_inv Qt) (mat_T H_inv)]),
                thr))) ∧
  (∀ m, N ≠ 0%nat → is_max m ls → ¬ m < thr →
     ∃ k, first_index_of m ls k ∧ (k < N)%nat ∧
          update_particle self z zs N thr Qt d =
            (self' ← update_landmark self k z Qt d; Ok (self', m)) ∧
          ∃ lm Sigma H Ql_inv,
            landmark_positions self !! k = Some lm ∧
            landmark_covariances self !! k = Some Sigma ∧
            dh_dlandmark (pose self) lm d = Ok H ∧
            inv (mat_add (mat_mul H (mat_mul Sigma (mat_T H))) Qt)
              = Ok Ql_inv ∧
            let K := mat_mul (mat_mul Sigma (mat_T H)) Ql_inv in
            update_particle self z zs N thr Qt d =
              Ok (mkParticle (pose self)
                    (<[k := vec_add lm
                              (mat_vec K (vec_sub z (h (pose self) lm d)))]>
                       (landmark_positions self))
                    (<[k := mat_mul (mat_sub eye2 (mat_mul K H)) Sigma]>
                       (landmark_covariances self)),
                  m)).
Proof.
  intros Hls lm_new.
  pose proof (compute_correspondence_likelihoods_spec _ _ _ _ _ _ Hls)
    as (Hlen & Hwl & Hpos).
  split; [exact Hlen|].
  destruct (no_correspondence_spec ls thr) as (b & Hb & Hiff).
  unfold update_particle. rewrite Hls. cbn [mbind result_bind]. rewrite Hb.
  cbn [mbind result_bind]. split.
  - intros Hnew. assert (b = true) as ->.
    { apply Hiff. destruct Hnew as [->|Hnew]; [|by right].
      left. by apply nil_length_inv. }
    split; [done|]. intros Hq.
    destruct (initialize_new_landmark_returns self zs Qt d Hq)
      as (H & H_inv & HH & Hinv & Hi).
    exists H, H_inv. split; [exact HH|]. split; [exact Hinv|].
    fold lm_new in Hi. by rewrite Hi.
  - intros m HN Hmax Hge.
    assert (b = false) as ->.
    { destruct b; [|done]. destruct (proj1 Hiff eq_refl) as [->|(m' & Hm' & Hlt)].
      - done.
      - by rewrite (is_max_unique _ _ _ Hmax Hm') in Hge. }
    assert (Hne : ls ≠ []) by (intros ->; done).
    pose proof (argmax_loop_positive ls Hne Hpos) as [Hmax' Hfirst].
    destruct (argmax_loop ls 0 0 0) as [w k]. cbn [fst snd] in *.
    rewrite (is_max_unique _ _ _ Hmax' Hmax) in *.
    exists k. split; [exact Hfirst|].
    destruct Hfirst as [Hk Hbefore]. split; [apply lookup_lt_Some in Hk; lia|].
    split; [done|].
    destruct (update_landmark_after_likelihood _ _ _ _ _ _ (Hwl _ _ Hk))
      as (lm & Sigma & H & Ql_inv & Hlm & HS & HH & Hinv & Hup).
    exists lm, Sigma, H, Ql_inv.
    split; [done|]. split; [done|]. split; [done|]. split; [done|].
    cbv zeta in *. by rewrite Hup.
Qed.

Lemma likelihoods_west_exact :
  compute_correspondence_likelihoods p_west (1, - PI) 1 eye2 0
    = Ok [1 / (2 * PI * 2)].
Proof.
  unfold compute_correspondence_likelihoods. cbn [likelihoods_loop].
  unfold wl_likelihood_of_correspondence.
  rewrite (delta_z_ok p_west (1, - PI) 0 0 (-1, 0)) by reflexivity.
  cbn [pose p_west mbind result_bind]. fold p_west.
  rewrite h_west, H_Ql_west. cbn [mbind result_bind].
  assert (Hd : det (Mat2 2 0 0 2) = 4) by (unfold det; cbn; ring).
  rewrite gauss_likelihood_ok by (rewrite Hd; lra).
  rewrite Hd. unfold vec_sub. cbn [fst snd m00 m01 m10 m11 app mbind result_bind].
  replace (sqrt 4) with 2.
  2:{ replace 4 with (2 * 2) by ring. rewrite sqrt_square; lra. }
  replace (- (2 * (1 - 1) * (1 - 1) - (0 + 0) * (1 - 1) * (- PI - - PI)
              + 2 * (- PI - - PI) * (- PI - - PI)) / (2 * 4)) with 0
    by (field).
  rewrite exp_0. do 2 f_equal. ring.
Qed.

Lemma wl_west_value_below_one : wl_west_value < 1.
Proof.
  destruct (wl_likelihood_le p_west (1, 3) 0 1 1 0 wl_west_value) as [_ H].
  - exact wl_west.
  - constructor; [exact psd_eye2|constructor].
  - lra.
  - lra.
  - replace (1 * 1) with 1 in H by ring. rewrite sqrt_1 in H.
    pose proof PI2_1 as Hpi.
    assert (1 / (2 * PI * 1) < 1).
    { apply (Rmult_lt_reg_r (2 * PI * 1)); [lra|].
      unfold Rdiv. rewrite Rmult_assoc, Rinv_l by lra. lra. }
    lra.
Qed.

Lemma peak_above_threshold : ¬ 1 / (2 * PI * 2) < 1 / 10000.
Proof.
  pose proof PI_4 as H4. pose proof PI_RGT_0 as H0. intros Hlt.
  assert (H1 : 1 / (2 * PI * 2) * (2 * PI * 2) = 1) by (field; lra).
  assert (H2 : 1 / (2 * PI * 2) * (2 * PI * 2) < 1 / 10000 * (2 * PI * 2))
    by (apply Rmult_lt_compat_r; lra).
  lra.
Qed.

Lemma is_max_singleton (m : R) : is_max m [m].
Proof.
  split; [constructor|]. intros x Hx. apply list_elem_of_singleton in Hx.
  subst. lra.
Qed.

Lemma update_particle_decision_witness :
  (is_max wl_west_value [wl_west_value] ∧ wl_west_value < 1 ∧
   scanner_distance2 (pose p_west) (new_landmark_position p_west (1, 0) 0) 0
     ≠ 0 ∧
   let lm_new := new_landmark_position p_west (1, 0) 0 in
   length [wl_west_value] = 1%nat ∧
   (1%nat = 0%nat ∨ (∃ m, is_max m [wl_west_value] ∧ m < 1) →
      update_particle p_west (1, 3) (1, 0) 1 1 eye2 0 =
        (self' ← initialize_new_landmark p_west (1, 0) eye2 0; Ok (self', 1)) ∧
      (scanner_distance2 (pose p_west) lm_new 0 ≠ 0 →
         ∃ H H_inv,
           dh_dlandmark (pose p_west) lm_new 0 = Ok H ∧ inv H = Ok H_inv ∧
           update_particle p_west (1, 3) (1, 0) 1 1 eye2 0 =
             Ok (mkParticle (pose p_west)
                   (landmark_positions p_west ++ [lm_new])
                   (landmark_covariances p_west ++
                      [mat_mul (mat_mul H_inv eye2) (mat_T H_inv)]),
                 1))) ∧
   (∀ m, 1%nat ≠ 0%nat → is_max m [wl_west_value] → ¬ m < 1 →
      ∃ k, first_index_of m [wl_west_value] k ∧ (k < 1)%nat ∧
           update_particle p_west (1, 3) (1, 0) 1 1 eye2 0 =
             (self' ← update_landmark p_west k (1, 3) eye2 0; Ok (self', m)) ∧
           ∃ lm Sigma H Ql_inv,
             landmark_positions p_west !! k = Some lm ∧
             landmark_covariances p_west !! k = Some Sigma ∧
             dh_dlandmark (pose p_west) lm 0 = Ok H ∧
             inv (mat_add (mat_mul H (mat_mul Sigma (mat_T H))) eye2)
               = Ok Ql_inv ∧
             let K := mat_mul (mat_mul Sigma (mat_T H)) Ql_inv in
             update_particle p_west (1, 3) (1, 0) 1 1 eye2 0 =
               Ok (mkParticle (pose p_west)
                     (<[k := vec_add lm
                               (mat_vec K (vec_sub (1, 3) (h (pose p_west) lm 0)))]>
                        (landmark_positions p_west))
                     (<[k := mat_mul (mat_sub eye2 (mat_mul K H)) Sigma]>
                        (landmark_covariances p_west)),
                   m))) ∧
  (is_max (1 / (2 * PI * 2)) [1 / (2 * PI * 2)] ∧
   ¬ 1 / (2 * PI * 2) < 1 / 10000 ∧
   let lm_new := new_landmark_position p_west (1, 0) 0 in
   length [1 / (2 * PI * 2)] = 1%nat ∧
   (1%nat = 0%nat ∨ (∃ m, is_max m [1 / (2 * PI * 2)] ∧ m < 1 / 10000) →
      update_particle p_west (1, - PI) (1, 0) 1 (1 / 10000) eye2 0 =
        (self' ← initialize_new_landmark p_west (1, 0) eye2 0;
         Ok (self', 1 / 10000)) ∧
      (scanner_distance2 (pose p_west) lm_new 0 ≠ 0 →
         ∃ H H_inv,
           dh_dlandmark (pose p_west) lm_new 0 = Ok H ∧ inv H = Ok H_inv ∧
           update_particle p_west (1, - PI) (1, 0) 1 (1 / 10000) eye2 0 =
             Ok (mkParticle (pose p_west)
                   (landmark_positions p_west ++ [lm_new])
                   (landmark_covariances p_west ++
                      [mat_mul (mat_mul H_inv eye2) (mat_T H_inv)]),
                 1 / 10000))) ∧
   (∀ m, 1%nat ≠ 0%nat → is_max m [1 / (2 * PI * 2)] → ¬ m < 1 / 10000 →
      ∃ k, first_index_of m [1 / (2 * PI * 2)] k ∧ (k < 1)%nat ∧
           update_particle p_west (1, - PI) (1, 0) 1 (1 / 10000) eye2 0 =
             (self' ← update_landmark p_west k (1, - PI) eye2 0;
              Ok (self', m)) ∧
           ∃ lm Sigma H Ql_inv,
             landmark_positions p_west !! k = Some lm ∧
             landmark_covariances p_west !! k = Some Sigma ∧
             dh_dlandmark (pose p_west) lm 0 = Ok H ∧
             inv (mat_add (mat_mul H (mat_mul Sigma (mat_T H))) eye2)
               = Ok Ql_inv ∧
             let K := mat_mul (mat_mul Sigma (mat_T H)) Ql_inv in
             update_particle p_west (1, - PI) (1, 0) 1 (1 / 10000) eye2 0 =
               Ok (mkParticle (pose p_west)
                     (<[k := vec_add lm
                               (mat_vec K
                                  (vec_sub (1, - PI) (h (pose p_west) lm 0)))]>
                        (landmark_positions p_west))
                     (<[k := mat_mul (mat_sub eye2 (mat_mul K H)) Sigma]>
                        (landmark_covariances p_west)),
                   m))).
Proof.
  split.
  - split; [apply is_max_singleton|]. split; [exact wl_west_value_below_one|].
    split; [exact new_landmark_west_away|].
    apply (update_particle_decision p_west (1, 3) (1, 0) 1 1 eye2 0
             [wl_west_value]).
    exact likelihoods_west.
  - split; [apply is_max_singleton|]. split; [exact peak_above_threshold|].
    apply (update_particle_decision p_west (1, - PI) (1, 0) 1 (1 / 10000)
             eye2 0 [1 / (2 * PI * 2)]).
    exact likelihoods_west_exact.
Defined.

End Decision.
